(** * Search orchestration, location rotation and result pipeline

    A shallow embedding of the TypeScript sources of the search server:
    the operation store ([Database]), the location rotation manager
    ([LocationManager]), the result pipeline of the search engines
    ([Engines]), the parsing of the AI filter answer ([AI]) and the
    search orchestrator ([Orchestrator]).

    Conventions.  A JavaScript [Date] is the number of milliseconds since
    the epoch, an integer.  JavaScript numbers that hold counters are
    integers ([Z] or [nat]); numbers that hold ratios are exact rationals
    ([Q]), with the two special values the code can produce made explicit
    where they matter ([Number.t]); the estimate of the remaining time,
    where the rounding of the arithmetic decides the answer, is computed
    in double precision ([Double]).  Optional properties are [option]s.
    Every [await]ed call that can reject is given its outcome by an
    explicit script of the environment; [Date.now()] is an argument. *)

From Stdlib Require Import ZArith QArith Qround Qminmax Lqa String Ascii List Sorted Permutation Lia.
From Stdlib Require PrimFloat FloatOps SpecFloat.
From stdpp Require Import base gmap sets list strings.

Definition Date : Type := Z.

(* ================================================================== *)
(** * Part I.  Definitions *)
(* ================================================================== *)

(** ** JavaScript helpers *)

Module JS.

(** [Array.prototype.sort(compareFn)]: the sort is stable (ECMAScript
    2019); [compareFn a b <= 0] leaves [a] before [b].  Insertion from
    the right end of the array is such a stable sort. *)
Fixpoint sort_insert {A} (compareFn : A -> A -> Q) (x : A) (l : list A) : list A :=
  match l with
  | [] => [x]
  | y :: l' =>
      if Qle_bool (compareFn x y) 0 then x :: y :: l'
      else y :: sort_insert compareFn x l'
  end.

Fixpoint Array_sort {A} (compareFn : A -> A -> Q) (l : list A) : list A :=
  match l with
  | [] => []
  | x :: l' => sort_insert compareFn x (Array_sort compareFn l')
  end.

(** [Math.round] on a rational: the nearest integer, halves upwards. *)
Definition Math_round (x : Q) : Z := Qfloor (x + (1 # 2)).

(** Truthiness of a string: the empty string is falsy. *)
Definition truthy (s : string) : bool :=
  match s with EmptyString => false | _ => true end.

(** [s && { key: s }] spread into an object literal: the key is present
    only for a truthy string. *)
Definition spread_truthy (s : option string) : option string :=
  match s with
  | Some v => if truthy v then Some v else None
  | None => None
  end.

(** The delay, in milliseconds, after which [setTimeout(callback, delay)]
    of Node.js runs the callback, for a delay that is a whole number: a
    delay below 1 or above [TIMEOUT_MAX], which is 2^31 - 1, is set
    to 1. *)
Definition TIMEOUT_MAX : Z := 2147483647.

Definition setTimeout_after (delay : Z) : Z :=
  if ((1 <=? delay) && (delay <=? TIMEOUT_MAX))%Z then delay else 1%Z.

End JS.

(** ** Double-precision numbers

    A JavaScript number is an IEEE 754 double; the primitive floating
    point numbers of the kernel are these doubles, with the same
    rounding to the nearest, ties to even, in every operation. *)

Module Double.

Definition t : Set := PrimFloat.float.

(** The double of a whole number: the number itself when a double
    holds it, as it holds every whole number up to 2^53 in absolute
    value, and otherwise the double nearest to it, which is also what a
    sum or a difference of two doubles with that exact value is. *)
Definition of_Z (z : Z) : t :=
  FloatOps.SF2Prim (SpecFloat.binary_normalize FloatOps.prec FloatOps.emax z 0 false).

(** [x / y] and [x * y] *)
Definition div (x y : t) : t := PrimFloat.div x y.

Definition mul (x y : t) : t := PrimFloat.mul x y.

(** The value of a double that is finite; [None] for NaN and for the
    two infinities. *)
Definition to_Q (x : t) : option Q :=
  match FloatOps.Prim2SF x with
  | SpecFloat.S754_zero _ => Some 0%Q
  | SpecFloat.S754_finite negative mantissa exponent =>
      let n := if negative then Z.neg mantissa else Z.pos mantissa in
      Some (if (0 <=? exponent)%Z then inject_Z (n * 2 ^ exponent)
            else Qmake n (Z.to_pos (2 ^ (- exponent))))
  | SpecFloat.S754_infinity _ | SpecFloat.S754_nan => None
  end.

(** What [Math.round] answers: a whole number (a zero is kept without
    its sign, which no reader of the estimate sees), or the infinity or
    the NaN that it was given. *)
Inductive rounded :=
| Whole (z : Z)
| Infinity (negative : bool)
| NaN.

(** [Math.round(x)]: the nearest whole number, halves upwards, of the
    value that the double holds. *)
Definition Math_round (x : t) : rounded :=
  match FloatOps.Prim2SF x with
  | SpecFloat.S754_infinity negative => Infinity negative
  | SpecFloat.S754_nan => NaN
  | _ => Whole (JS.Math_round (default 0%Q (to_Q x)))
  end.

End Double.

(** ** Data model ([types/index.ts]) *)

Inductive Status := pending | running | completed | failed | cancelled.

#[global] Instance Status_eq_dec : EqDecision Status.
Proof. solve_decision. Defined.

Record SearchOperationConfig := {
  maxLocations : option Z;
  delayBetweenSearches : option Z;
  enableQueryExpansion : option bool;
  enableResultFiltering : option bool;
  enableContactEnrichment : option bool;
  aiProvider : option string;
  relevanceThreshold : option Q
}.

Definition emptyConfig : SearchOperationConfig :=
  {| maxLocations := None; delayBetweenSearches := None;
     enableQueryExpansion := None; enableResultFiltering := None;
     enableContactEnrichment := None; aiProvider := None;
     relevanceThreshold := None |}.

Module SearchOperation.

Record t := mk {
  id : string;
  query : string;
  status : Status;
  startTime : Date;
  endTime : option Date;
  totalLocations : Z;
  searchedLocations : Z;
  totalResults : Z;
  currentLocation : option string;
  progress : Q;
  error : option string;
  config : SearchOperationConfig
}.

(** Assignments to one property of the (mutable) operation object. *)
Definition set_status (v : Status) (o : t) : t :=
  mk (id o) (query o) v (startTime o) (endTime o) (totalLocations o)
     (searchedLocations o) (totalResults o) (currentLocation o) (progress o)
     (error o) (config o).

Definition set_endTime (v : option Date) (o : t) : t :=
  mk (id o) (query o) (status o) (startTime o) v (totalLocations o)
     (searchedLocations o) (totalResults o) (currentLocation o) (progress o)
     (error o) (config o).

Definition set_searchedLocations (v : Z) (o : t) : t :=
  mk (id o) (query o) (status o) (startTime o) (endTime o) (totalLocations o)
     v (totalResults o) (currentLocation o) (progress o) (error o) (config o).

Definition set_totalResults (v : Z) (o : t) : t :=
  mk (id o) (query o) (status o) (startTime o) (endTime o) (totalLocations o)
     (searchedLocations o) v (currentLocation o) (progress o) (error o)
     (config o).

Definition set_currentLocation (v : option string) (o : t) : t :=
  mk (id o) (query o) (status o) (startTime o) (endTime o) (totalLocations o)
     (searchedLocations o) (totalResults o) v (progress o) (error o)
     (config o).

Definition set_progress (v : Q) (o : t) : t :=
  mk (id o) (query o) (status o) (startTime o) (endTime o) (totalLocations o)
     (searchedLocations o) (totalResults o) (currentLocation o) v (error o)
     (config o).

Definition set_error (v : option string) (o : t) : t :=
  mk (id o) (query o) (status o) (startTime o) (endTime o) (totalLocations o)
     (searchedLocations o) (totalResults o) (currentLocation o) (progress o)
     v (config o).

End SearchOperation.

(** [Partial<SearchOperation>]: every property optional.  A property
    whose value is [undefined] and a missing property are the same to
    the store, which tests [!== undefined]. *)
Module PartialOperation.

Record t := mk {
  id : option string;
  query : option string;
  status : option Status;
  startTime : option Date;
  endTime : option Date;
  totalLocations : option Z;
  searchedLocations : option Z;
  totalResults : option Z;
  currentLocation : option string;
  progress : option Q;
  error : option string;
  config : option SearchOperationConfig
}.

Definition empty : t :=
  mk None None None None None None None None None None None None.

End PartialOperation.

Module Location.

Record t := mk {
  id : string;
  name : string;
  country : string;
  countryCode : string;
  region : option string;
  city : option string;
  searchCode : string;
  priority : Z;
  isActive : bool;
  lastSearched : option Date;
  successRate : Q
}.

End Location.

Module SearchProgress.

Record t := mk {
  operationId : string;
  status : Status;
  progress : Q;
  currentLocation : option string;
  searchedLocations : Z;
  totalLocations : Z;
  resultsFound : Z;
  estimatedTimeRemaining : option Double.rounded;
  lastUpdate : Date
}.

End SearchProgress.

(** ** The store ([SearchDatabase]) *)

(** A row of the table [search_operations]. *)
Module OperationRow.

Record t := mk {
  id : string;
  query : string;
  status : Status;
  start_time : Date;
  end_time : option Date;
  total_locations : Z;
  searched_locations : Z;
  total_results : Z;
  current_location : option string;
  progress : Q;
  error : option string;
  config : SearchOperationConfig;
  created_at : Date;
  updated_at : Date
}.

End OperationRow.

(** A row of the table [locations].  The two counters are created as 0
    and written by [updateLocationStats] only, so they are naturals. *)
Module LocationRow.

Record t := mk {
  id : string;
  name : string;
  country : string;
  country_code : string;
  region : option string;
  city : option string;
  search_code : string;
  priority : Z;
  is_active : bool;
  last_searched : option Date;
  success_rate : Q;
  total_searches : nat;
  successful_searches : nat;
  created_at : Date;
  updated_at : Date
}.

End LocationRow.

Module Database.

(** The tables the orchestrator and the location manager use.  The rows
    of [locations] are kept in row order, which is the order a query
    returns rows that its ORDER BY does not separate. *)
Record t := mk {
  locations : list LocationRow.t;
  search_operations : gmap string OperationRow.t
}.

Definition set_locations (v : list LocationRow.t) (db : t) : t :=
  mk v (search_operations db).

Definition set_search_operations (v : gmap string OperationRow.t) (db : t) : t :=
  mk (locations db) v.

(** One [column = ?] of the SET clause that [updateSearchOperation]
    builds, with the value bound to it. *)
Inductive Assignment :=
| SetStatus (v : Status)
| SetEndTime (v : Date)
| SetSearchedLocations (v : Z)
| SetTotalResults (v : Z)
| SetCurrentLocation (v : string)
| SetProgress (v : Q)
| SetError (v : string)
| SetUpdatedAt (v : Date).

Definition assign (a : Assignment) (r : OperationRow.t) : OperationRow.t :=
  let '(OperationRow.mk i q st s e tl sl tr cl p er c ca ua) := r in
  match a with
  | SetStatus v => OperationRow.mk i q v s e tl sl tr cl p er c ca ua
  | SetEndTime v => OperationRow.mk i q st s (Some v) tl sl tr cl p er c ca ua
  | SetSearchedLocations v => OperationRow.mk i q st s e tl v tr cl p er c ca ua
  | SetTotalResults v => OperationRow.mk i q st s e tl sl v cl p er c ca ua
  | SetCurrentLocation v => OperationRow.mk i q st s e tl sl tr (Some v) p er c ca ua
  | SetProgress v => OperationRow.mk i q st s e tl sl tr cl v er c ca ua
  | SetError v => OperationRow.mk i q st s e tl sl tr cl p (Some v) c ca ua
  | SetUpdatedAt v => OperationRow.mk i q st s e tl sl tr cl p er c ca v
  end.

(** [if (updates.x !== undefined) { fields.push(..); values.push(..) }] *)
Definition push {A} (mk : A -> Assignment) (v : option A) : list Assignment :=
  match v with Some x => [mk x] | None => [] end.

Definition updateFields (updates : PartialOperation.t) : list Assignment :=
  push SetStatus (PartialOperation.status updates)
  ++ push SetEndTime (PartialOperation.endTime updates)
  ++ push SetSearchedLocations (PartialOperation.searchedLocations updates)
  ++ push SetTotalResults (PartialOperation.totalResults updates)
  ++ push SetCurrentLocation (PartialOperation.currentLocation updates)
  ++ push SetProgress (PartialOperation.progress updates)
  ++ push SetError (PartialOperation.error updates).

(** [UPDATE search_operations SET ... WHERE id = ?]: the assignments are
    applied to the row of that id, if there is one.  [now] is the value
    of CURRENT_TIMESTAMP. *)
Definition updateSearchOperation (id : string) (updates : PartialOperation.t)
    (now : Date) (db : t) : t :=
  let fields := updateFields updates in
  match fields with
  | [] => db
  | _ =>
      let fields := fields ++ [SetUpdatedAt now] in
      set_search_operations
        (alter (fun r => fold_left (fun r a => assign a r) fields r) id
               (search_operations db)) db
  end.

(** [insertSearchOperation]: the parameter is an
    [Omit<SearchOperation, 'id'>], and the row is stored under the id
    [uuid] that the store draws itself; the [id] of the operation that
    was passed is not read. *)
Definition insertSearchOperation (uuid : string) (operation : SearchOperation.t)
    (now : Date) (db : t) : t :=
  set_search_operations
    (<[ uuid :=
        OperationRow.mk uuid (SearchOperation.query operation)
          (SearchOperation.status operation) (SearchOperation.startTime operation)
          (SearchOperation.endTime operation) (SearchOperation.totalLocations operation)
          (SearchOperation.searchedLocations operation)
          (SearchOperation.totalResults operation)
          (SearchOperation.currentLocation operation)
          (SearchOperation.progress operation) (SearchOperation.error operation)
          (SearchOperation.config operation) now now ]>
       (search_operations db)) db.

Definition rowToOperation (row : OperationRow.t) : SearchOperation.t :=
  SearchOperation.mk (OperationRow.id row) (OperationRow.query row)
    (OperationRow.status row) (OperationRow.start_time row)
    (OperationRow.end_time row) (OperationRow.total_locations row)
    (OperationRow.searched_locations row) (OperationRow.total_results row)
    (OperationRow.current_location row) (OperationRow.progress row)
    (OperationRow.error row) (OperationRow.config row).

Definition getSearchOperation (id : string) (db : t) : option SearchOperation.t :=
  rowToOperation <$> search_operations db !! id.

(** [UPDATE locations SET total_searches = total_searches + 1, ...
    WHERE id = ?].  Every right-hand side reads the columns as they were
    before the statement. *)
Definition bumpStats (success : bool) (now : Date) (r : LocationRow.t) : LocationRow.t :=
  let successValue := if success then 1%nat else 0%nat in
  LocationRow.mk (LocationRow.id r) (LocationRow.name r) (LocationRow.country r)
    (LocationRow.country_code r) (LocationRow.region r) (LocationRow.city r)
    (LocationRow.search_code r) (LocationRow.priority r) (LocationRow.is_active r)
    (Some now)
    (inject_Z (Z.of_nat (LocationRow.successful_searches r + successValue))
       / inject_Z (Z.of_nat (LocationRow.total_searches r + 1)))%Q
    (LocationRow.total_searches r + 1)%nat
    (LocationRow.successful_searches r + successValue)%nat
    (LocationRow.created_at r) now.

Definition updateLocationStats (id : string) (success : bool) (now : Date) (db : t) : t :=
  set_locations
    (map (fun r => if decide (LocationRow.id r = id) then bumpStats success now r else r)
         (locations db)) db.

Definition rowToLocation (row : LocationRow.t) : Location.t :=
  Location.mk (LocationRow.id row) (LocationRow.name row) (LocationRow.country row)
    (LocationRow.country_code row) (LocationRow.region row) (LocationRow.city row)
    (LocationRow.search_code row) (LocationRow.priority row)
    (LocationRow.is_active row) (LocationRow.last_searched row)
    (LocationRow.success_rate row).

(** ORDER BY priority DESC, success_rate DESC, as a comparison of rows. *)
Definition orderBy (a b : LocationRow.t) : Q :=
  if decide (LocationRow.priority a = LocationRow.priority b)
  then LocationRow.success_rate b - LocationRow.success_rate a
  else inject_Z (LocationRow.priority b - LocationRow.priority a).

(** [getLocations(activeOnly)].  The rows that the ORDER BY clause does
    not separate are answered here in the order of the table; SQLite
    promises no order among such rows. *)
Definition getLocations (activeOnly : bool) (db : t) : list Location.t :=
  let rows :=
    if activeOnly then filter (fun r => LocationRow.is_active r = true) (locations db)
    else locations db in
  map rowToLocation (JS.Array_sort orderBy rows).

End Database.

(** ** The location rotation manager ([locations/index.ts]) *)

Module LocationManager.

Record LocationQueue := mkQueue {
  locations : list Location.t;
  currentIndex : nat;
  blacklistedLocations : gset string
}.

(** The manager object.  [timers] are the callbacks that [setTimeout]
    has scheduled and that have not run yet: the time each one is due
    and the location id it deletes from the blacklist.  No handle of a
    timer is kept anywhere in the source, so a pending timer can only
    leave this list by firing. *)
Record t := mk {
  locationQueue : LocationQueue;
  initialized : bool;
  timers : list (Date * string)
}.

Definition set_locations (v : list Location.t) (q : LocationQueue) : LocationQueue :=
  mkQueue v (currentIndex q) (blacklistedLocations q).

Definition set_currentIndex (v : nat) (q : LocationQueue) : LocationQueue :=
  mkQueue (locations q) v (blacklistedLocations q).

Definition set_blacklistedLocations (v : gset string) (q : LocationQueue) : LocationQueue :=
  mkQueue (locations q) (currentIndex q) v.

(** [constructor] *)
Definition new : t :=
  mk (mkQueue [] 0 ∅) false [].

(** The comparison function given to [sort] in [initialize] and in
    [updateLocationSuccess]. *)
Definition compareFn (a b : Location.t) : Q :=
  if decide (Location.priority a <> Location.priority b)
  then inject_Z (Location.priority b - Location.priority a)
  else Location.successRate b - Location.successRate a.

(** The catalogue of [initializeDefaultLocations], in source order. *)
Definition country (name code : string) (priority : Z) : Location.t :=
  Location.mk "" name name code None None code priority true None 0.

Definition cityOf (name country code searchCode : string) (priority : Z) : Location.t :=
  Location.mk "" name country code None (Some name) searchCode priority true None 0.

Definition defaultLocations : list Location.t :=
  [ country "United States" "US" 10; country "United Kingdom" "GB" 9;
    country "Canada" "CA" 9; country "Australia" "AU" 8;
    country "Germany" "DE" 8; country "France" "FR" 7;
    country "Netherlands" "NL" 7; country "Switzerland" "CH" 7;
    country "Sweden" "SE" 6; country "Denmark" "DK" 6;
    country "Singapore" "SG" 8; country "Hong Kong" "HK" 7;
    country "Japan" "JP" 6; country "India" "IN" 6;
    cityOf "New York" "United States" "US" "New York, NY, US" 9;
    cityOf "San Francisco" "United States" "US" "San Francisco, CA, US" 9;
    cityOf "Los Angeles" "United States" "US" "Los Angeles, CA, US" 8;
    cityOf "Chicago" "United States" "US" "Chicago, IL, US" 7;
    cityOf "Boston" "United States" "US" "Boston, MA, US" 7;
    cityOf "Seattle" "United States" "US" "Seattle, WA, US" 7;
    cityOf "London" "United Kingdom" "GB" "London, GB" 9;
    cityOf "Berlin" "Germany" "DE" "Berlin, DE" 7;
    cityOf "Paris" "France" "FR" "Paris, FR" 7;
    cityOf "Amsterdam" "Netherlands" "NL" "Amsterdam, NL" 6;
    cityOf "Zurich" "Switzerland" "CH" "Zurich, CH" 6;
    cityOf "Toronto" "Canada" "CA" "Toronto, ON, CA" 8;
    cityOf "Vancouver" "Canada" "CA" "Vancouver, BC, CA" 7;
    cityOf "Sydney" "Australia" "AU" "Sydney, AU" 7;
    cityOf "Melbourne" "Australia" "AU" "Melbourne, AU" 6 ].

(** [database.insertLocation]: the row gets the id [uuid] that the store
    draws, and both counters start at 0. *)
Definition insertLocation (uuid : string) (location : Location.t) (now : Date)
    (db : Database.t) : Database.t :=
  Database.set_locations
    (Database.locations db ++
       [LocationRow.mk uuid (Location.name location) (Location.country location)
          (Location.countryCode location) (Location.region location)
          (Location.city location) (Location.searchCode location)
          (Location.priority location) (Location.isActive location)
          (Location.lastSearched location) (Location.successRate location)
          0%nat 0%nat now now]) db.

(** [uuids k] is the id drawn for the [k]-th default location. *)
Definition initializeDefaultLocations (uuids : nat -> string) (now : Date)
    (db : Database.t) : Database.t :=
  fold_left (fun db kl => insertLocation (uuids (fst kl)) (snd kl) now db)
            (combine (seq 0 (length defaultLocations)) defaultLocations) db.

Definition initialize (uuids : nat -> string) (now : Date)
    (s : t * Database.t) : t * Database.t :=
  let '(m, db) := s in
  if initialized m then (m, db)
  else
    let loaded := Database.getLocations true db in
    let '(loaded, db) :=
      if (length loaded =? 0)%nat then
        let db' := initializeDefaultLocations uuids now db in
        (Database.getLocations true db', db')
      else (loaded, db) in
    (mk (set_locations (JS.Array_sort compareFn loaded) (locationQueue m))
        true (timers m), db).

(** The [while (attempts < locations.length)] loop of [getNextLocation];
    [fuel] is [locations.length - attempts]. *)
Fixpoint scan (fuel : nat) (q : LocationQueue) : option Location.t * LocationQueue :=
  match fuel with
  | O => (None, q)
  | S fuel' =>
      let next := set_currentIndex ((currentIndex q + 1) mod length (locations q)) q in
      match locations q !! currentIndex q with
      | Some location =>
          if decide (Location.id location ∈ blacklistedLocations q)
          then scan fuel' next
          else (Some location, next)
      | None => scan fuel' next
      end
  end.

Definition getNextLocation (uuids : nat -> string) (now : Date)
    (s : t * Database.t) : option Location.t * (t * Database.t) :=
  let '(m, db) := initialize uuids now s in
  let q := locationQueue m in
  if (length (locations q) =? 0)%nat then (None, (m, db))
  else
    let '(r, q') := scan (length (locations q)) q in
    (r, (mk q' (initialized m) (timers m), db)).

(** [getLocations(maxCount?)] *)
Definition getLocations (uuids : nat -> string) (now : Date) (maxCount : option Z)
    (s : t * Database.t) : list Location.t * (t * Database.t) :=
  let '(m, db) := initialize uuids now s in
  let q := locationQueue m in
  let locations :=
    filter (fun loc => Location.id loc ∉ blacklistedLocations q) (locations q) in
  let locations :=
    match maxCount with
    | Some n => if (0 <? n)%Z then take (Z.to_nat n) locations else locations
    | None => locations
    end in
  (locations, (m, db)).

(** [blacklistLocation(locationId, duration = 3600000)], called at time
    [now]: the id enters the set and one more [setTimeout] callback is
    scheduled, which is due when the delay that [setTimeout] makes of
    the duration has passed. *)
Definition blacklistLocation (locationId : string) (duration : option Z)
    (now : Date) (m : t) : t :=
  let duration := default 3600000%Z duration in
  mk (set_blacklistedLocations ({[ locationId ]} ∪ blacklistedLocations (locationQueue m))
        (locationQueue m))
     (initialized m)
     (timers m ++ [((now + JS.setTimeout_after duration)%Z, locationId)]).

(** The event loop at time [now]: every pending callback that is due
    runs, each deleting its id from the blacklist, and leaves the list
    of pending timers. *)
Definition fireTimers (now : Date) (m : t) : t :=
  let due := filter (fun tm => (fst tm <= now)%Z) (timers m) in
  mk (set_blacklistedLocations
        (fold_left (fun s tm => s ∖ {[ snd tm ]}) due
                   (blacklistedLocations (locationQueue m)))
        (locationQueue m))
     (initialized m)
     (filter (fun tm => (now < fst tm)%Z) (timers m)).

Definition isBlacklisted (locationId : string) (m : t) : bool :=
  bool_decide (locationId ∈ blacklistedLocations (locationQueue m)).

(** [updateLocationSuccess]: the store is updated, the list is loaded
    again and sorted again; the cursor is left where it was. *)
Definition updateLocationSuccess (locationId : string) (success : bool) (now : Date)
    (s : t * Database.t) : t * Database.t :=
  let '(m, db) := s in
  let db := Database.updateLocationStats locationId success now db in
  (mk (set_locations (JS.Array_sort compareFn (Database.getLocations true db))
         (locationQueue m))
      (initialized m) (timers m), db).

Definition clearBlacklist (m : t) : t :=
  mk (set_blacklistedLocations ∅ (locationQueue m)) (initialized m) (timers m).

Definition reset (m : t) : t :=
  clearBlacklist (mk (set_currentIndex 0 (locationQueue m)) (initialized m) (timers m)).

End LocationManager.

(** [k] successive calls of [getNextLocation], with the answers in the
    order they were given. *)
Fixpoint callNext (uuids : nat -> string) (now : Date) (k : nat)
    (s : LocationManager.t * Database.t) : list (option Location.t) :=
  match k with
  | O => []
  | S k' =>
      let '(r, s') := LocationManager.getNextLocation uuids now s in
      r :: callNext uuids now k' s'
  end.

(** ** Strings and numbers of the result pipeline *)

Module Str.

(** [toLowerCase], on the ASCII letters. *)
Definition lower (c : ascii) : ascii :=
  let n := nat_of_ascii c in
  if ((65 <=? n) && (n <=? 90))%nat then ascii_of_nat (n + 32) else c.

Fixpoint toLowerCase (s : string) : string :=
  match s with
  | EmptyString => EmptyString
  | String c s' => String (lower c) (toLowerCase s')
  end.

Fixpoint startsWith (s sub : string) : bool :=
  match sub, s with
  | EmptyString, _ => true
  | String _ _, EmptyString => false
  | String a sub', String b s' => if ascii_dec a b then startsWith s' sub' else false
  end.

(** [s.includes(sub)] *)
Fixpoint includes (s sub : string) : bool :=
  if startsWith s sub then true
  else match s with
       | EmptyString => false
       | String _ s' => includes s' sub
       end.

(** [s.split(sep)] for a separator of one character: the pieces between
    the separators, the empty ones too; the empty string gives [[""]]. *)
Fixpoint split (sep : ascii) (s : string) : list string :=
  match s with
  | EmptyString => [EmptyString]
  | String c s' =>
      if ascii_dec c sep then EmptyString :: split sep s'
      else match split sep s' with
           | [] => [String c EmptyString]
           | w :: ws => String c w :: ws
           end
  end.

End Str.

(** The values of a JavaScript number that the scoring can reach: a
    rational, positive infinity, or NaN.  A quotient of two counts is NaN
    for 0/0 and infinite for a positive count over 0; NaN is absorbing,
    also for [Math.min]. *)
Module Number.

Inductive t := Num (q : Q) | Infinity | NaN.

(** [a / b] for two array lengths. *)
Definition div_counts (a b : nat) : t :=
  match b, a with
  | O, O => NaN
  | O, S _ => Infinity
  | S _, _ => Num (inject_Z (Z.of_nat a) / inject_Z (Z.of_nat b))
  end.

(** [x * c] for a positive constant [c]. *)
Definition scale (x : t) (c : Q) : t :=
  match x with
  | Num q => Num (q * c)
  | Infinity => Infinity
  | NaN => NaN
  end.

(** [x + y] where neither is negative infinity. *)
Definition add (x y : t) : t :=
  match x, y with
  | NaN, _ | _, NaN => NaN
  | Infinity, _ | _, Infinity => Infinity
  | Num a, Num b => Num (a + b)
  end.

Definition Math_min (x y : t) : t :=
  match x, y with
  | NaN, _ | _, NaN => NaN
  | Infinity, v | v, Infinity => v
  | Num a, Num b => Num (Qmin a b)
  end.

(** The number is a real in the closed interval from 0 to 1. *)
Definition in_unit_interval (x : t) : Prop :=
  match x with
  | Num q => (0 <= q /\ q <= 1)%Q
  | _ => False
  end.

End Number.

Module SearchResult.

Record t := mk {
  title : string;
  url : string;
  snippet : string;
  displayUrl : option string;
  source : string;
  timestamp : Date;
  relevanceScore : option Number.t
}.

End SearchResult.

Module SearchQuery.

Record t := mk {
  query : string;
  location : option string;
  maxResults : option Z;
  language : option string;
  dateRestrict : option string
}.

End SearchQuery.

(** ** The search engines ([GoogleSearchEngine], [SearchEngineManager]) *)

Module Engines.

(** An item of the answer of the search API ([item: any]): the three
    properties the scoring reads, each possibly missing. *)
Record Item := mkItem {
  title : option string;
  snippet : option string;
  link : option string
}.

Definition professionalKeywords : list string :=
  ["ceo"; "cto"; "manager"; "director"; "engineer"; "developer"; "analyst";
   "consultant"].

(** [queryLower.split(' ').filter(term => term.length > 2)] *)
Definition queryTerms (query : SearchQuery.t) : list string :=
  filter (fun term => (2 < String.length term)%nat)
         (Str.split " " (Str.toLowerCase (SearchQuery.query query))).

Definition calculateRelevanceScore (item : Item) (query : SearchQuery.t) : Number.t :=
  let score := Number.Num (1 # 2) in
  let title := Str.toLowerCase (default "" (title item)) in
  let snippet := Str.toLowerCase (default "" (snippet item)) in
  let score :=
    match link item with
    | Some l =>
        if JS.truthy l && Str.includes l "linkedin.com/in/"
        then Number.add score (Number.Num (3 # 10)) else score
    | None => score
    end in
  let queryTerms := queryTerms query in
  let titleMatches := length (filter (fun term => Str.includes title term = true) queryTerms) in
  let score :=
    Number.add score
      (Number.scale (Number.div_counts titleMatches (length queryTerms)) (3 # 10)) in
  let snippetMatches :=
    length (filter (fun term => Str.includes snippet term = true) queryTerms) in
  let score :=
    Number.add score
      (Number.scale (Number.div_counts snippetMatches (length queryTerms)) (2 # 10)) in
  let professionalMatches :=
    length (filter (fun keyword =>
                      Str.includes title keyword || Str.includes snippet keyword = true)
                   professionalKeywords) in
  let score :=
    Number.add score
      (Number.Math_min (Number.Num (inject_Z (Z.of_nat professionalMatches) * (1 # 10)))
                       (Number.Num (2 # 10))) in
  let score :=
    match SearchQuery.location query with
    | Some location =>
        if JS.truthy location then
          let locationLower := Str.toLowerCase location in
          if Str.includes title locationLower || Str.includes snippet locationLower
          then Number.add score (Number.Num (1 # 10)) else score
        else score
    | None => score
    end in
  Number.Math_min score (Number.Num 1).

(** What [new URL(url)] gives when it does not throw: the components
    that [normalizeUrl] reads and the two it leaves out. *)
Record URL := mkURL {
  protocol : string;
  host : string;
  pathname : string;
  search : string;
  hash : string
}.

Section Deduplication.

(** The URL parser of the platform: [None] when [new URL] throws. *)
Variable URL_parse : string -> option URL.

Definition normalizeUrl (url : string) : string :=
  match URL_parse url with
  | Some parsed => protocol parsed ++ "//" ++ host parsed ++ pathname parsed
  | None => url
  end.

(** The body of the [for] loop, on the pair of [seen] and [unique]. *)
Definition dedupStep (acc : gset string * list SearchResult.t) (result : SearchResult.t)
    : gset string * list SearchResult.t :=
  let normalizedUrl := normalizeUrl (SearchResult.url result) in
  if decide (normalizedUrl ∈ fst acc) then acc
  else ({[ normalizedUrl ]} ∪ fst acc, snd acc ++ [result]).

Definition deduplicateResults (results : list SearchResult.t) : list SearchResult.t :=
  snd (fold_left dedupStep results (∅, [])).

End Deduplication.

(** A reader of URLs of the shape [scheme://host/path?query#fragment],
    to run the deduplication on examples; anything else is refused. *)
Fixpoint untilAny (stops : list ascii) (s : string) : string * string :=
  match s with
  | EmptyString => (EmptyString, EmptyString)
  | String c s' =>
      if bool_decide (c ∈ stops) then (EmptyString, s)
      else let '(a, b) := untilAny stops s' in (String c a, b)
  end.

Definition simpleURL (url : string) : option URL :=
  let '(scheme, rest) := untilAny [":"%char] url in
  if Str.startsWith rest "://" && JS.truthy scheme then
    let rest := String.substring 3 (String.length rest - 3) rest in
    let '(host, rest) := untilAny ["/"; "?"; "#"]%char rest in
    let '(path, rest) := untilAny ["?"; "#"]%char rest in
    let '(search, hash) := untilAny ["#"%char] rest in
    if JS.truthy host then
      Some (mkURL (scheme ++ ":") host (if JS.truthy path then path else "/") search hash)
    else None
  else None.

End Engines.

(** ** The answer of the AI filter ([AIProviderManager]) *)

Module AI.

(** A value that [JSON.parse] returns. *)
#[local] Unset Elimination Schemes.
Inductive json :=
| JNull
| JBool (b : bool)
| JNumber (q : Q)
| JString (s : string)
| JArray (items : list json)
| JObject (members : list (string * json)).
#[local] Set Elimination Schemes.

(** An entry of [filteredResults]: a result, or [undefined] when the
    index that selected it is not a position of the array. *)
Definition Entry : Type := option SearchResult.t.

Record ResultFilterResponse := mkResponse {
  filteredResults : list Entry;
  removedCount : Z;
  reasoning : option json
}.

(** [content.match(/\{[\s\S]*\}/)]: the text from the first opening
    brace to the last closing brace behind it, if there is one. *)
Fixpoint fromFirstOpen (s : list ascii) : option (list ascii) :=
  match s with
  | [] => None
  | c :: s' => if ascii_dec c "{" then Some s else fromFirstOpen s'
  end.

Fixpoint throughLastClose (s : list ascii) : option (list ascii) :=
  match s with
  | [] => None
  | c :: s' =>
      match throughLastClose s' with
      | Some m => Some (c :: m)
      | None => if ascii_dec c "}" then Some [c] else None
      end
  end.

Definition matchBraces (content : string) : option string :=
  match fromFirstOpen (list_ascii_of_string content) with
  | Some s =>
      match s with
      | open :: s' =>
          match throughLastClose s' with
          | Some m => Some (string_of_list_ascii (open :: m))
          | None => None
          end
      | [] => None
      end
  | None => None
  end.

(** [parsed.name]: the last member of that name wins in an object made
    by [JSON.parse]; reading a property of [null] throws. *)
Fixpoint lastMember (name : string) (members : list (string * json)) : option json :=
  match members with
  | [] => None
  | (k, v) :: rest =>
      match lastMember name rest with
      | Some v' => Some v'
      | None => if decide (k = name) then Some v else None
      end
  end.

Inductive Thrown := TypeError | SyntaxError.

Definition getProperty (name : string) (v : json) : Thrown + option json :=
  match v with
  | JObject members => inr (lastMember name members)
  | JNull => inl TypeError
  | _ => inr None
  end.

Definition truthy (v : json) : bool :=
  match v with
  | JNull => false
  | JBool b => b
  | JNumber q => negb (Qeq_bool q 0)
  | JString s => JS.truthy s
  | JArray _ | JObject _ => true
  end.

Fixpoint digits (s : string) (acc : nat) : option nat :=
  match s with
  | EmptyString => Some acc
  | String c s' =>
      let n := nat_of_ascii c in
      if ((48 <=? n) && (n <=? 57))%nat then digits s' (10 * acc + (n - 48)) else None
  end.

(** How an element of [relevantIndices] acts as an index: the number it
    is compared as, and the array position it selects if it is compared
    successfully ([None]: the property read gives [undefined]).  The
    model covers numbers, [null], booleans and strings of decimal
    digits.  Any other element (an array, an object, a string in
    another notation such as [1.0] or [1e1]) is outside the model, where
    it is answered as not numeric; JavaScript converts some of them to
    numbers. *)
Definition asIndex (v : json) : option (Q * option nat) :=
  match v with
  | JNumber q =>
      Some (q, if Qeq_bool q (inject_Z (Qfloor q)) then Some (Z.to_nat (Qfloor q)) else None)
  | JNull => Some (0%Q, None)
  | JBool b => Some ((if b then 1 else 0)%Q, None)
  | JString s =>
      match digits s 0 with
      | Some n =>
          Some (inject_Z (Z.of_nat n),
                match s with
                | EmptyString => None
                | String "0" (String _ _) => None
                | _ => Some n
                end)
      | None => None
      end
  | JArray _ | JObject _ => None
  end.

(** [.filter(index => index >= 0 && index < originalResults.length)
     .map(index => originalResults[index])] *)
Definition selectEntries (indices : list json) (originalResults : list SearchResult.t)
    : list Entry :=
  omap (fun v =>
          match asIndex v with
          | Some (q, position) =>
              if Qle_bool 0 q && negb (Qle_bool (inject_Z (Z.of_nat (length originalResults))) q)
              then Some (position ≫= fun i => originalResults !! i)
              else None
          | None => None
          end)
       indices.

Section ParseFilterResponse.

(** [JSON.parse]: [None] when it throws. *)
Variable JSON_parse : string -> option json.

(** The [try] block, up to the first [return]; [inl] is a throw. *)
Definition tryParse (content : string) (originalResults : list SearchResult.t)
    : Thrown + option ResultFilterResponse :=
  match matchBraces content with
  | Some jsonMatch =>
      match JSON_parse jsonMatch with
      | None => inl SyntaxError
      | Some parsed =>
          match getProperty "relevantIndices" parsed with
          | inl e => inl e
          | inr found =>
              let relevantIndices :=
                match found with
                | Some v => if truthy v then v else JArray []
                | None => JArray []
                end in
              match relevantIndices with
              | JArray indices =>
                  let filteredResults := selectEntries indices originalResults in
                  match getProperty "reasoning" parsed with
                  | inl e => inl e
                  | inr reasoning =>
                      inr (Some (mkResponse filteredResults
                                   (Z.of_nat (length originalResults)
                                    - Z.of_nat (length filteredResults))
                                   reasoning))
                  end
              | _ => inl TypeError
              end
          end
      end
  | None => inr None
  end.

Definition parseResultFilterResponse (content : string)
    (originalResults : list SearchResult.t) : ResultFilterResponse :=
  match tryParse content originalResults with
  | inr (Some response) => response
  | inr None =>
      mkResponse (Some <$> originalResults) 0%Z
        (Some (JString "Failed to parse filter response, returned all results"))
  | inl _ =>
      mkResponse (Some <$> originalResults) 0%Z
        (Some (JString "Failed to parse response, returned all results"))
  end.

End ParseFilterResponse.

End AI.

(** ** A reader of JSON text

    [JSON.parse] is a parameter of the model; this reader of the plain
    part of the grammar (no exponents, no [\u] escapes) stands for it
    where an answer of the AI provider is run as an example. *)

Module JSONText.

Import AI.

Definition isSpace (c : ascii) : bool :=
  let n := nat_of_ascii c in
  ((n =? 32) || (n =? 9) || (n =? 10) || (n =? 13))%nat.

Fixpoint skipSpace (s : list ascii) : list ascii :=
  match s with
  | c :: s' => if isSpace c then skipSpace s' else s
  | [] => []
  end.

Definition digitOf (c : ascii) : option Z :=
  let n := nat_of_ascii c in
  if ((48 <=? n) && (n <=? 57))%nat then Some (Z.of_nat (n - 48)) else None.

(** Digits, as a numerator and the power of ten they span. *)
Fixpoint readDigits (s : list ascii) (acc : Z) (scale : positive)
    : Z * positive * list ascii :=
  match s with
  | c :: s' =>
      match digitOf c with
      | Some d => readDigits s' (10 * acc + d)%Z (10 * scale)%positive
      | None => (acc, scale, s)
      end
  | [] => (acc, scale, [])
  end.

Definition readNumber (s : list ascii) : option (Q * list ascii) :=
  let '(negative, s) :=
    match s with
    | "-"%char :: s' => (true, s')
    | _ => (false, s)
    end in
  match s with
  | c :: _ =>
      match digitOf c with
      | Some _ =>
          let '(whole, _, rest) := readDigits s 0 1 in
          let '(value, rest) :=
            match rest with
            | "."%char :: (d :: _) as frac =>
                match digitOf d with
                | Some _ =>
                    let '(num, scale, rest') := readDigits frac 0 1 in
                    ((inject_Z whole + (num # scale))%Q, rest')
                | None => (inject_Z whole, rest)
                end
            | _ => (inject_Z whole, rest)
            end in
          Some (Qred (if negative : bool then - value else value)%Q, rest)
      | None => None
      end
  | [] => None
  end.

(** The characters of a string literal, after its opening quote. *)
Fixpoint readString (s : list ascii) : option (string * list ascii) :=
  match s with
  | [] => None
  | c :: s' =>
      if ascii_dec c (ascii_of_nat 34) then Some (EmptyString, s')
      else if ascii_dec c "\"%char then
        match s' with
        | e :: s'' =>
            let plain :=
              if ascii_dec e "n" then Some (ascii_of_nat 10)
              else if ascii_dec e "t" then Some (ascii_of_nat 9)
              else if ascii_dec e "r" then Some (ascii_of_nat 13)
              else if ascii_dec e (ascii_of_nat 34) then Some e
              else if ascii_dec e "\"%char then Some e
              else if ascii_dec e "/" then Some e
              else None in
            match plain, readString s'' with
            | Some ch, Some (str, rest) => Some (String ch str, rest)
            | _, _ => None
            end
        | [] => None
        end
      else
        match readString s' with
        | Some (str, rest) => Some (String c str, rest)
        | None => None
        end
  end.

Definition literal (word : string) (s : list ascii) : option (list ascii) :=
  let w := list_ascii_of_string word in
  if decide (take (length w) s = w) then Some (drop (length w) s) else None.

Fixpoint readValue (fuel : nat) (s : list ascii) : option (json * list ascii) :=
  match fuel with
  | O => None
  | S fuel =>
      match skipSpace s with
      | "{"%char :: rest =>
          match skipSpace rest with
          | "}"%char :: rest' => Some (JObject [], rest')
          | _ =>
              match readMembers fuel rest with
              | Some (members, rest') => Some (JObject members, rest')
              | None => None
              end
          end
      | "["%char :: rest =>
          match skipSpace rest with
          | "]"%char :: rest' => Some (JArray [], rest')
          | _ =>
              match readItems fuel rest with
              | Some (items, rest') => Some (JArray items, rest')
              | None => None
              end
          end
      | c :: rest =>
          if ascii_dec c (ascii_of_nat 34) then
            match readString rest with
            | Some (str, rest') => Some (JString str, rest')
            | None => None
            end
          else
            match literal "null" (c :: rest), literal "true" (c :: rest),
                  literal "false" (c :: rest) with
            | Some rest', _, _ => Some (JNull, rest')
            | _, Some rest', _ => Some (JBool true, rest')
            | _, _, Some rest' => Some (JBool false, rest')
            | _, _, _ =>
                match readNumber (c :: rest) with
                | Some (q, rest') => Some (JNumber q, rest')
                | None => None
                end
            end
      | [] => None
      end
  end
with readItems (fuel : nat) (s : list ascii) : option (list json * list ascii) :=
  match fuel with
  | O => None
  | S fuel =>
      match readValue fuel s with
      | Some (v, rest) =>
          match skipSpace rest with
          | ","%char :: rest' =>
              match readItems fuel rest' with
              | Some (vs, rest'') => Some (v :: vs, rest'')
              | None => None
              end
          | "]"%char :: rest' => Some ([v], rest')
          | _ => None
          end
      | None => None
      end
  end
with readMembers (fuel : nat) (s : list ascii)
    : option (list (string * json) * list ascii) :=
  match fuel with
  | O => None
  | S fuel =>
      match skipSpace s with
      | q :: rest =>
          if ascii_dec q (ascii_of_nat 34) then
            match readString rest with
            | Some (key, rest) =>
                match skipSpace rest with
                | ":"%char :: rest =>
                    match readValue fuel rest with
                    | Some (v, rest) =>
                        match skipSpace rest with
                        | ","%char :: rest' =>
                            match readMembers fuel rest' with
                            | Some (ms, rest'') => Some ((key, v) :: ms, rest'')
                            | None => None
                            end
                        | "}"%char :: rest' => Some ([(key, v)], rest')
                        | _ => None
                        end
                    | None => None
                    end
                | _ => None
                end
            | None => None
            end
          else None
      | [] => None
      end
  end.

Definition parse (text : string) : option json :=
  let s := list_ascii_of_string text in
  match readValue (2 * length s + 2) s with
  | Some (v, rest) =>
      match skipSpace rest with
      | [] => Some v
      | _ => None
      end
  | None => None
  end.

End JSONText.

(** ** The search orchestrator ([SearchOrchestrator]) *)

Module Orchestrator.

(** The orchestrator with the two services it calls.  The operation
    objects live in [heap]; [activeOperations] holds references to them,
    as the [Map] of the source does, so an object that has been deleted
    from the map is still reached by the task that works on it. *)
Record t := mk {
  heap : gmap nat SearchOperation.t;
  activeOperations : gmap string nat;
  operationTimers : gmap string nat;
  database : Database.t;
  locationManager : LocationManager.t
}.

Definition new : t := mk ∅ ∅ ∅ (Database.mk [] ∅) LocationManager.new.

Definition set_heap (v : gmap nat SearchOperation.t) (s : t) : t :=
  mk v (activeOperations s) (operationTimers s) (database s) (locationManager s).

Definition set_activeOperations (v : gmap string nat) (s : t) : t :=
  mk (heap s) v (operationTimers s) (database s) (locationManager s).

Definition set_operationTimers (v : gmap string nat) (s : t) : t :=
  mk (heap s) (activeOperations s) v (database s) (locationManager s).

Definition set_database (v : Database.t) (s : t) : t :=
  mk (heap s) (activeOperations s) (operationTimers s) v (locationManager s).

Definition set_locationManager (v : LocationManager.t) (s : t) : t :=
  mk (heap s) (activeOperations s) (operationTimers s) (database s) v.

(** An assignment to properties of the object behind a reference. *)
Definition mutate (operation : nat) (f : SearchOperation.t -> SearchOperation.t) (s : t) : t :=
  set_heap (alter f operation (heap s)) s.

(** The object literal given to [database.updateSearchOperation]. *)
Definition updates (status : option Status) (endTime : option Date)
    (searchedLocations totalResults : option Z) (currentLocation : option string)
    (progress : option Q) (error : option string) : PartialOperation.t :=
  PartialOperation.mk None None status None endTime None searchedLocations
    totalResults currentLocation progress error None.

Definition write (operationId : string) (u : PartialOperation.t) (now : Date) (s : t) : t :=
  set_database (Database.updateSearchOperation operationId u now (database s)) s.

(** [cancelSearch], called at time [now]; [writeOk] tells whether the
    write to the store succeeds.  The answer is [None] when the promise
    is rejected. *)
Definition cancelSearch (operationId : string) (now : Date) (writeOk : bool) (s : t)
    : option bool * t :=
  match activeOperations s !! operationId with
  | None => (Some false, s)
  | Some operation =>
      let s :=
        mutate operation
          (fun o => SearchOperation.set_endTime (Some now)
                      (SearchOperation.set_status cancelled o)) s in
      if writeOk then
        let s :=
          write operationId
            (updates (Some cancelled) (Some now) None None None None None) now s in
        let s := set_activeOperations (delete operationId (activeOperations s)) s in
        let s :=
          match operationTimers s !! operationId with
          | Some _ => set_operationTimers (delete operationId (operationTimers s)) s
          | None => s
          end in
        (Some true, s)
      else (None, s)
  end.

(** [handleOperationError], called at time [now]; [writeOk] tells
    whether its write to the store succeeds.  The answer is [false] when
    the promise is rejected: the exception of the write leaves the
    handler before the operation is deleted from the map. *)
Definition handleOperationError (operationId : string) (message : string) (now : Date)
    (writeOk : bool) (s : t) : bool * t :=
  match activeOperations s !! operationId with
  | Some operation =>
      let s :=
        mutate operation
          (fun o => SearchOperation.set_error (Some message)
                      (SearchOperation.set_endTime (Some now)
                         (SearchOperation.set_status failed o))) s in
      if writeOk then
        let s :=
          write operationId
            (updates (Some failed) (Some now) None None None None (Some message)) now s in
        (true, set_activeOperations (delete operationId (activeOperations s)) s)
      else (false, s)
  | None => (true, s)
  end.

(** What happens around a task while it is suspended in an [await]. *)
Inductive External :=
| CancelSearch (operationId : string) (now : Date) (writeOk : bool)
| TimersFire (now : Date).

Definition external (s : t) (e : External) : t :=
  match e with
  | CancelSearch operationId now writeOk => snd (cancelSearch operationId now writeOk s)
  | TimersFire now =>
      set_locationManager (LocationManager.fireTimers now (locationManager s)) s
  end.

(** How the [try] block of one location ends.  The searches of the
    query variants, the AI filter, the storing of each result and the
    enrichment of each result catch their own exceptions, so of them only
    [found = finalResults.length] is kept (the table of profiles is not
    part of the model).  The block ends at its end; or with an exception
    before the counters of the operation are advanced (line 620, the call
    of [updateLocationSuccess], or earlier); or with an exception of the
    write of the counters to the store (line 625), after
    [updateLocationSuccess] and after [operation.totalResults] and
    [operation.searchedLocations] were assigned (lines 622 and 623). *)
Inductive Attempt :=
| Searched (found : nat)
| ThrewBeforeCount
| ThrewAtWrite (found : nat).

(** What the environment does in one iteration of the loop over the
    locations: the calls that ran since the previous iteration was
    entered, which the membership test of this one is the first to see;
    the clock; whether the write of the progress succeeds; how the [try]
    block ends; whether [updateLocationSuccess] in the [catch] block
    succeeds. *)
Record Slot := mkSlot {
  before : list External;
  now : Date;
  progressWrite : bool;
  attempt : Attempt;
  handlerOk : bool
}.

Inductive Control :=
| Continue (consecutiveFailures : nat)
| Break
| Return
| Throw.

Definition maxConsecutiveFailures : nat := 3.

(** The [catch] block of a location. *)
Definition catchLocation (location : Location.t) (e : Slot) (consecutiveFailures : nat)
    (s : t) : t * Control :=
  let consecutiveFailures := S consecutiveFailures in
  if handlerOk e then
    let '(lm, db) :=
      LocationManager.updateLocationSuccess (Location.id location) false (now e)
        (locationManager s, database s) in
    let lm :=
      LocationManager.blacklistLocation (Location.id location) (Some 3600000%Z) (now e) lm in
    let s := set_locationManager lm (set_database db s) in
    if (maxConsecutiveFailures <=? consecutiveFailures)%nat then (s, Break)
    else (s, Continue consecutiveFailures)
  else (s, Throw).

(** Lines 620 to 623: the outcome is reported to the location manager
    and the counters of the operation are advanced. *)
Definition countLocation (operation : nat) (i : nat) (location : Location.t)
    (found : nat) (e : Slot) (s : t) : t :=
  let '(lm, db) :=
    LocationManager.updateLocationSuccess (Location.id location) (0 <? found)%nat (now e)
      (locationManager s, database s) in
  let s := set_locationManager lm (set_database db s) in
  mutate operation
    (fun o => SearchOperation.set_searchedLocations (Z.of_nat (i + 1))
                (SearchOperation.set_totalResults
                   (SearchOperation.totalResults o + Z.of_nat found)%Z o)) s.

(** The body of [for (let i = 0; i < locations.length; i++)] for the
    location at index [i] of [total]. *)
Definition iteration (operationId : string) (operation : nat) (total i : nat)
    (location : Location.t) (e : Slot) (consecutiveFailures : nat) (s : t) : t * Control :=
  match activeOperations s !! operationId with
  | None => (s, Return)
  | Some _ =>
      let s :=
        mutate operation
          (fun o => SearchOperation.set_progress
                      (inject_Z (Z.of_nat i) / inject_Z (Z.of_nat total))
                      (SearchOperation.set_currentLocation (Some (Location.name location)) o))
          s in
      if progressWrite e then
        let s :=
          write operationId
            (updates None None None None
               (JS.spread_truthy (heap s !! operation ≫= SearchOperation.currentLocation))
               (SearchOperation.progress <$> heap s !! operation) None)
            (now e) s in
        match attempt e with
        | Searched found =>
            let s := countLocation operation i location found e s in
            let s :=
              write operationId
                (updates None None
                   (SearchOperation.searchedLocations <$> heap s !! operation)
                   (SearchOperation.totalResults <$> heap s !! operation)
                   None None None)
                (now e) s in
            (s, Continue 0)
        | ThrewBeforeCount => catchLocation location e consecutiveFailures s
        | ThrewAtWrite found =>
            catchLocation location e consecutiveFailures
              (countLocation operation i location found e s)
        end
      else (s, Throw)
  end.

(** The loop, from index [i] on; [slots j] is what the environment does
    in iteration [j]. *)
Fixpoint locationLoop (operationId : string) (operation : nat) (total i : nat)
    (locations : list Location.t) (slots : nat -> Slot) (consecutiveFailures : nat)
    (s : t) : t * Control :=
  match locations with
  | [] => (s, Continue consecutiveFailures)
  | location :: rest =>
      let s := fold_left external (before (slots i)) s in
      match iteration operationId operation total i location (slots i)
                      consecutiveFailures s with
      | (s, Continue consecutiveFailures) =>
          locationLoop operationId operation total (S i) rest slots consecutiveFailures s
      | (s, control) => (s, control)
      end
  end.

(** What the environment does during one run of [processGlobalSearch]:
    [lastly] are the calls that ran while the last iteration entered was
    suspended; [message] is the message of an exception that leaves the
    loop; [handlerWrite] tells whether the write of
    [handleOperationError] succeeds. *)
Record Script := mkScript {
  startWrite : bool;
  startNow : Date;
  slots : nat -> Slot;
  lastly : list External;
  finalWrite : bool;
  finalNow : Date;
  message : string;
  handlerWrite : bool
}.

Inductive Outcome := Finished | Stopped | Escalated.

(** [processGlobalSearch].  The expansion of the query only chooses the
    queries that the [try] block of each location runs, which the script
    answers.  The outcome [Escalated] is the one of the [catch] block,
    whether [handleOperationError] returns or rejects. *)
Definition processGlobalSearch (operationId : string) (locations : list Location.t)
    (script : Script) (s : t) : t * Outcome :=
  match activeOperations s !! operationId with
  | None => (s, Stopped)
  | Some operation =>
      let s := mutate operation (SearchOperation.set_status running) s in
      if startWrite script then
        let s :=
          write operationId (updates (Some running) None None None None None None)
            (startNow script) s in
        match locationLoop operationId operation (length locations) 0 locations
                           (slots script) 0 s with
        | (s, Return) => (s, Stopped)
        | (s, Throw) =>
            let s := fold_left external (lastly script) s in
            (snd (handleOperationError operationId (message script) (finalNow script)
                    (handlerWrite script) s),
             Escalated)
        | (s, _) =>
            let s := fold_left external (lastly script) s in
            let s :=
              mutate operation
                (fun o => SearchOperation.set_progress 1
                            (SearchOperation.set_endTime (Some (finalNow script))
                               (SearchOperation.set_status completed o))) s in
            if finalWrite script then
              let s :=
                write operationId
                  (updates (Some completed) (Some (finalNow script)) None None None
                     (Some 1%Q) None)
                  (finalNow script) s in
              (set_activeOperations (delete operationId (activeOperations s)) s, Finished)
            else
              (snd (handleOperationError operationId (message script) (finalNow script)
                      (handlerWrite script) s),
               Escalated)
        end
      else
        (snd (handleOperationError operationId (message script) (startNow script)
                (handlerWrite script) s),
         Escalated)
  end.

(** [globalSearchProfiles], up to the start of the task: [operationId]
    is the id the orchestrator draws and returns, [storeId] the one the
    store draws in [insertSearchOperation]. *)
Definition globalSearchProfiles (operationId storeId : string) (query : string)
    (config : SearchOperationConfig) (uuids : nat -> string) (now : Date) (s : t)
    : list Location.t * t :=
  let maxCount :=
    match maxLocations config with
    | Some n => if (n =? 0)%Z then 10%Z else n
    | None => 10%Z
    end in
  let '(locations, (lm, db)) :=
    LocationManager.getLocations uuids now (Some maxCount)
      (locationManager s, database s) in
  let operation := fresh (dom (heap s)) in
  let object :=
    SearchOperation.mk operationId query pending now None
      (Z.of_nat (length locations)) 0 0 None 0 None config in
  let s := set_locationManager lm (set_database db s) in
  let s := set_heap (<[ operation := object ]> (heap s)) s in
  let s := set_activeOperations (<[ operationId := operation ]> (activeOperations s)) s in
  let s := set_database (Database.insertSearchOperation storeId object now (database s)) s in
  (locations, s).

(** [calculateEstimatedTime], with [now] for [Date.now()].  The two
    differences are differences of whole numbers, which are exact; the
    quotient and the product are those of doubles. *)
Definition calculateEstimatedTime (operation : SearchOperation.t) (now : Date)
    : option Double.rounded :=
  if bool_decide (SearchOperation.status operation = completed
                  \/ SearchOperation.status operation = failed)
  then Some (Double.Whole 0)
  else if (SearchOperation.searchedLocations operation =? 0)%Z then None
  else
    let elapsed := (now - SearchOperation.startTime operation)%Z in
    let avgTimePerLocation :=
      Double.div (Double.of_Z elapsed)
                 (Double.of_Z (SearchOperation.searchedLocations operation)) in
    let remainingLocations :=
      (SearchOperation.totalLocations operation
       - SearchOperation.searchedLocations operation)%Z in
    Some (Double.Math_round
            (Double.mul avgTimePerLocation (Double.of_Z remainingLocations))).

Definition getSearchProgress (operationId : string) (now : Date) (s : t)
    : option SearchProgress.t :=
  match Database.getSearchOperation operationId (database s) with
  | None => None
  | Some operation =>
      let estimatedTimeRemaining := calculateEstimatedTime operation now in
      Some (SearchProgress.mk (SearchOperation.id operation)
              (SearchOperation.status operation)
              (SearchOperation.progress operation)
              (JS.spread_truthy (SearchOperation.currentLocation operation))
              (SearchOperation.searchedLocations operation)
              (SearchOperation.totalLocations operation)
              (SearchOperation.totalResults operation)
              estimatedTimeRemaining now)
  end.

End Orchestrator.

(** ** The location manager: the methods that maintain the list *)

Module LocationAdmin.

Import LocationManager.

(** [addCustomLocation]: the location is inserted under the id [uuid]
    that the store draws, then [initialize] is called. *)
Definition addCustomLocation (uuid : string) (location : Location.t)
    (uuids : nat -> string) (now : Date) (s : t * Database.t)
    : string * (t * Database.t) :=
  let '(m, db) := s in
  let db := insertLocation uuid location now db in
  (uuid, initialize uuids now (m, db)).

(** [{ ...loc, isActive: false }] *)
Definition deactivated (loc : Location.t) : Location.t :=
  Location.mk (Location.id loc) (Location.name loc) (Location.country loc)
    (Location.countryCode loc) (Location.region loc) (Location.city loc)
    (Location.searchCode loc) (Location.priority loc) false
    (Location.lastSearched loc) (Location.successRate loc).

(** [removeLocation]: the entries of that id are replaced in the list of
    the manager and the id is deleted from the blacklist; the store is
    not called. *)
Definition removeLocation (locationId : string) (m : t) : t :=
  let q := locationQueue m in
  let q :=
    set_locations
      (map (fun loc => if decide (Location.id loc = locationId) then deactivated loc else loc)
           (locations q)) q in
  mk (set_blacklistedLocations (blacklistedLocations q ∖ {[ locationId ]}) q)
     (initialized m) (timers m).

Record LocationStats := mkStats {
  total : nat;
  active : nat;
  blacklisted : nat;
  avgSuccessRate : Number.t
}.

(** [sum / total] for a sum of success rates and an array length: over
    0 the quotient is NaN for the sum 0 and infinite otherwise. *)
Definition div_length (sum : Q) (total : nat) : Number.t :=
  match total with
  | O => if Qeq_bool sum 0 then Number.NaN else Number.Infinity
  | S _ => Number.Num (sum / inject_Z (Z.of_nat total))
  end.

Definition isNaN (x : Number.t) : bool :=
  match x with Number.NaN => true | _ => false end.

Definition getLocationStats (m : t) : LocationStats :=
  let q := locationQueue m in
  let total := length (locations q) in
  let active := length (filter (fun loc => Location.isActive loc = true) (locations q)) in
  let blacklisted := size (blacklistedLocations q) in
  let avgSuccessRate :=
    div_length (fold_left (fun sum loc => (sum + Location.successRate loc)%Q) (locations q) 0%Q)
               total in
  mkStats total active blacklisted
    (if isNaN avgSuccessRate then Number.Num 0 else avgSuccessRate).

End LocationAdmin.

(** ** Text

    The string methods and the regular expressions that the extraction
    of profiles, the reading of the AI answers and the matching of
    contacts use, on strings of ASCII characters.  The white space of
    [\s] and of [trim] is the same set: space, tab, line feed, vertical
    tab, form feed and carriage return. *)

Module Text.

Definition isWhite (c : ascii) : bool :=
  let n := nat_of_ascii c in
  ((n =? 32) || ((9 <=? n) && (n <=? 13)))%nat.

Definition isDigit (c : ascii) : bool :=
  let n := nat_of_ascii c in
  ((48 <=? n) && (n <=? 57))%nat.

(** [a-z] *)
Definition isLower (c : ascii) : bool :=
  let n := nat_of_ascii c in
  ((97 <=? n) && (n <=? 122))%nat.

Definition isChar (d : ascii) (c : ascii) : bool :=
  if ascii_dec c d then true else false.

Fixpoint takeWhile (p : ascii -> bool) (s : list ascii) : list ascii :=
  match s with
  | c :: s' => if p c then c :: takeWhile p s' else []
  | [] => []
  end.

Fixpoint dropWhile (p : ascii -> bool) (s : list ascii) : list ascii :=
  match s with
  | c :: s' => if p c then dropWhile p s' else s
  | [] => []
  end.

Definition trimStart (s : list ascii) : list ascii := dropWhile isWhite s.

Definition trimEnd (s : list ascii) : list ascii := rev (dropWhile isWhite (rev s)).

(** [s.trim()] *)
Definition trim (s : string) : string :=
  string_of_list_ascii (trimEnd (trimStart (list_ascii_of_string s))).

(** [s.replace(/[^...]/g, '')] for a class of characters: the characters
    of the class [keep] are the ones that stay. *)
Definition keepChars (keep : ascii -> bool) (s : string) : string :=
  string_of_list_ascii (List.filter keep (list_ascii_of_string s)).

(** [s.split(/\s+/)]: the pieces between the runs of white space, the
    empty piece before a leading run and behind a trailing run too; the
    empty string gives [[""]].  [inSeparator] tells that the character
    before was white space. *)
Fixpoint splitWhiteFrom (inSeparator : bool) (s : list ascii) : list string :=
  match s with
  | [] => [EmptyString]
  | c :: s' =>
      if isWhite c then
        if inSeparator then splitWhiteFrom true s'
        else EmptyString :: splitWhiteFrom true s'
      else
        match splitWhiteFrom false s' with
        | w :: ws => String c w :: ws
        | [] => [String c EmptyString]
        end
  end.

Definition splitWhite (s : string) : list string :=
  splitWhiteFrom false (list_ascii_of_string s).

(** The first position of the text, from the left, at which the
    pattern [at] matches, with what it captures there: a regular
    expression without the sticky flag is tried at every position in
    turn. *)
Fixpoint firstMatch {A} (at_ : list ascii -> option A) (s : list ascii) : option A :=
  match at_ s with
  | Some g => Some g
  | None =>
      match s with
      | _ :: s' => firstMatch at_ s'
      | [] => None
      end
  end.

(** The characters of [word], given in lower case, at the head of the
    text, in either case (the flag [i]); the answer is the text behind
    them. *)
Fixpoint ignoreCase (word : list ascii) (s : list ascii) : option (list ascii) :=
  match word with
  | [] => Some s
  | w :: word' =>
      match s with
      | c :: s' => if ascii_dec (Str.lower c) w then ignoreCase word' s' else None
      | [] => None
      end
  end.

End Text.

(** ** The extraction of a profile from a result ([SearchOrchestrator]) *)

Module ProfileExtraction.

Import Text.

(** [.replace(/\s*-\s*LinkedIn$/, '')]: when the text ends with
    [LinkedIn], and the last character before it that is not white space
    is a hyphen, the match is that hyphen with all the white space on
    both sides of it and the word; it begins at the first character of
    the white space before the hyphen, the leftmost position from which
    the expression reaches the end of the text. *)
Definition stripLinkedIn (s : list ascii) : list ascii :=
  let word := rev (list_ascii_of_string "LinkedIn") in
  let r := rev s in
  if decide (take (length word) r = word) then
    match dropWhile isWhite (drop (length word) r) with
    | "-"%char :: r' => rev (dropWhile isWhite r')
    | _ => s
    end
  else s.

(** [extractNameFromTitle]: [title.match(/^([^|]+)/)] captures the
    characters before the first [|], at least one. *)
Definition extractNameFromTitle (title : string) : option string :=
  match takeWhile (fun c => negb (isChar "|" c)) (list_ascii_of_string title) with
  | [] => None
  | group =>
      Some (string_of_list_ascii (stripLinkedIn (trimEnd (trimStart group))))
  end.

(** [\s+([^.]+)] at the head of the text.  The white space is taken
    greedily, then the characters that are not a full stop; when there
    is none of these the white space gives its last character back, if
    it has two at least, and that character is what is captured. *)
Definition whiteThenText (s : list ascii) : option string :=
  let white := takeWhile isWhite s in
  let text := takeWhile (fun c => negb (isChar "." c)) (dropWhile isWhite s) in
  match white, text with
  | [], _ => None
  | _ :: _, _ :: _ => Some (string_of_list_ascii text)
  | _ :: w :: white', [] => Some (String (List.last white' w) EmptyString)
  | [_], [] => None
  end.

(** [at\s+([^.]+)] with the flag [i], at the head of the text. *)
Definition atPattern (s : list ascii) : option string :=
  match ignoreCase (list_ascii_of_string "at") s with
  | Some s' => whiteThenText s'
  | None => None
  end.

(** [\s+at\s+([^.]+)] with the flag [i], at the head of the text. *)
Definition whiteThenAt (s : list ascii) : option string :=
  match takeWhile isWhite s with
  | [] => None
  | _ :: _ => atPattern (dropWhile isWhite s)
  end.

(** [works?\s+at\s+([^.]+)] with the flag [i], at the head of the text. *)
Definition worksAtPattern (s : list ascii) : option string :=
  match ignoreCase (list_ascii_of_string "work") s with
  | Some s' =>
      match ignoreCase (list_ascii_of_string "s") s' with
      | Some s'' => whiteThenAt s''
      | None => whiteThenAt s'
      end
  | None => None
  end.

(** [employed\s+at\s+([^.]+)] with the flag [i], at the head of the
    text. *)
Definition employedAtPattern (s : list ascii) : option string :=
  match ignoreCase (list_ascii_of_string "employed") s with
  | Some s' => whiteThenAt s'
  | None => None
  end.

(** The array [patterns], each as [snippet.match(pattern)] with the
    group it captures. *)
Definition patterns : list (list ascii -> option string) :=
  [ firstMatch atPattern; firstMatch worksAtPattern; firstMatch employedAtPattern ].

(** [for (const pattern of patterns)] *)
Fixpoint firstCaptured (patterns : list (list ascii -> option string)) (snippet : list ascii)
    : option string :=
  match patterns with
  | [] => None
  | pattern :: rest =>
      match pattern snippet with
      | Some group =>
          if JS.truthy group then Some (trim group) else firstCaptured rest snippet
      | None => firstCaptured rest snippet
      end
  end.

Definition extractCompanyFromSnippet (snippet : string) : option string :=
  firstCaptured patterns (list_ascii_of_string snippet).

(** [extractProfileInfo]: a property is present when its value is a
    string that is not empty. *)
Definition extractProfileInfo (result : SearchResult.t) : option string * option string :=
  (JS.spread_truthy (extractNameFromTitle (SearchResult.title result)),
   JS.spread_truthy (extractCompanyFromSnippet (SearchResult.snippet result))).

End ProfileExtraction.

(** ** The answer of the AI query expansion ([AIProviderManager]) *)

Module QueryExpansion.

Import AI Text.

(** What [parseQueryExpansionResponse] returns.  The properties are
    the values that were read, of whatever type the answer gave them. *)
Record QueryExpansionResponse := mkExpansion {
  expandedQueries : json;
  confidence : json;
  reasoning : option json
}.

(** [value || fallback] *)
Definition orElse (value : option json) (fallback : json) : json :=
  match value with
  | Some v => if truthy v then v else fallback
  | None => fallback
  end.

(** [line.match(/^\d+\.|\-|\*/)]: digits and a full stop at the head of
    the line, or a hyphen anywhere, or an asterisk anywhere. *)
Definition isListLine (line : list ascii) : bool :=
  match takeWhile isDigit line, dropWhile isDigit line with
  | _ :: _, "."%char :: _ => true
  | _, _ => existsb (fun c => isChar "-" c || isChar "*" c) line
  end.

(** The global [replace] of the lines, whose expression has four
    alternatives: digits with a full stop and white space at the head of
    the line, a hyphen with white space, an asterisk with white space, a
    double quote.  Behind the head of the line every hyphen and every
    asterisk goes with the white space that follows it, and every double
    quote goes.  [skipping] tells that the white space at the head still
    belongs to the match before. *)
Fixpoint stripFrom (skipping : bool) (line : list ascii) : list ascii :=
  match line with
  | [] => []
  | c :: line' =>
      if skipping && isWhite c then stripFrom true line'
      else if isChar "-" c || isChar "*" c then stripFrom true line'
      else if isChar (ascii_of_nat 34) c then stripFrom false line'
      else c :: stripFrom false line'
  end.

(** The whole replacement: at the head of the line the first
    alternative, digits with a full stop and white space, is tried
    first. *)
Definition stripMarkers (line : list ascii) : list ascii :=
  match takeWhile isDigit line, dropWhile isDigit line with
  | _ :: _, "."%char :: rest => stripFrom true rest
  | _, _ => stripFrom false line
  end.

(** The fallback that reads the queries from the lines of the text. *)
Definition textQueries (content : string) : list string :=
  let lines :=
    filter (fun line => JS.truthy (trim line) = true)
           (Str.split (ascii_of_nat 10) content) in
  let marked :=
    filter (fun line =>
              isListLine (list_ascii_of_string line)
              || Str.includes line (String (ascii_of_nat 34) EmptyString) = true)
           lines in
  let queries :=
    map (fun line =>
           trim (string_of_list_ascii (stripMarkers (list_ascii_of_string line))))
        marked in
  filter (fun query => (0 < String.length query)%nat) queries.

Section ParseExpansionResponse.

(** [JSON.parse]: [None] when it throws. *)
Variable JSON_parse : string -> option json.

(** The [try] block; [inl] is a throw. *)
Definition tryParse (content : string) : Thrown + QueryExpansionResponse :=
  match matchBraces content with
  | Some jsonMatch =>
      match JSON_parse jsonMatch with
      | None => inl SyntaxError
      | Some parsed =>
          match getProperty "expandedQueries" parsed,
                getProperty "confidence" parsed,
                getProperty "reasoning" parsed with
          | inr queries, inr confidence, inr reasoning =>
              inr (mkExpansion (orElse queries (JArray []))
                               (orElse confidence (JNumber (1 # 2)))
                               reasoning)
          | inl e, _, _ | _, inl e, _ | _, _, inl e => inl e
          end
      end
  | None =>
      inr (mkExpansion (JArray (map JString (textQueries content)))
                       (JNumber (6 # 10))
                       (Some (JString "Parsed from text format")))
  end.

Definition parseQueryExpansionResponse (content : string) : QueryExpansionResponse :=
  match tryParse content with
  | inr response => response
  | inl _ =>
      mkExpansion (JArray []) (JNumber 0) (Some (JString "Failed to parse response"))
  end.

End ParseExpansionResponse.

End QueryExpansion.

(** ** The matching of contacts ([ApolloAPIClient]) *)

Module ApolloAPIClient.

Import Text.

Record Organization := mkOrganization {
  organizationName : option string;
  websiteUrl : option string;
  industry : option string;
  size : option string
}.

Record ApolloContact := mkContact {
  id : option string;
  firstName : option string;
  lastName : option string;
  name : option string;
  title : option string;
  company : option string;
  email : option string;
  phone : option string;
  linkedinUrl : option string;
  twitterUrl : option string;
  facebookUrl : option string;
  organization : option Organization
}.

Record ApolloSearchParams := mkParams {
  personTitles : option (list string);
  organizationNames : option (list string);
  personLocations : option (list string);
  organizationLocations : option (list string);
  personSeniorities : option (list string);
  contactEmailStatus : option (list string);
  limit : option Z;
  page : option Z
}.

Record ApolloAPIError := mkError {
  message : string;
  statusCode : option Z
}.

(** [Math.max] and [>] on the numbers of the scoring; a comparison with
    NaN is false. *)
Definition Math_max (x y : Number.t) : Number.t :=
  match x, y with
  | Number.NaN, _ | _, Number.NaN => Number.NaN
  | Number.Infinity, _ | _, Number.Infinity => Number.Infinity
  | Number.Num a, Number.Num b => Number.Num (Qmax a b)
  end.

Definition gt (x y : Number.t) : bool :=
  match x, y with
  | Number.NaN, _ | _, Number.NaN => false
  | _, Number.Infinity => false
  | Number.Infinity, Number.Num _ => true
  | Number.Num a, Number.Num b => negb (Qle_bool a b)
  end.

(** [name.toLowerCase().replace(/[^a-z\s]/g, '').trim()] *)
Definition normalizeName (name : string) : string :=
  trim (keepChars (fun c => isLower c || isWhite c) (Str.toLowerCase name)).

(** [words.some(w => w.includes(word) || word.includes(w))] *)
Definition someIncludes (word : string) (words : list string) : bool :=
  existsb (fun w => Str.includes w word || Str.includes word w) words.

Definition calculateNameSimilarity (name1 name2 : string) : Number.t :=
  let n1 := normalizeName name1 in
  let n2 := normalizeName name2 in
  if decide (n1 = n2) then Number.Num 1
  else
    let words1 := splitWhite n1 in
    let words2 := splitWhite n2 in
    let matches1 := filter (fun word => someIncludes word words2 = true) words1 in
    let matches2 := filter (fun word => someIncludes word words1 = true) words2 in
    let score1 := Number.div_counts (length matches1) (length words1) in
    let score2 := Number.div_counts (length matches2) (length words2) in
    Math_max score1 score2.

(** [str.toLowerCase().replace(/[^a-z0-9\s]/g, '').trim()] *)
Definition normalizeText (str : string) : string :=
  trim (keepChars (fun c => isLower c || isDigit c || isWhite c) (Str.toLowerCase str)).

Definition calculateStringSimilarity (str1 str2 : string) : Number.t :=
  let s1 := normalizeText str1 in
  let s2 := normalizeText str2 in
  if decide (s1 = s2) then Number.Num 1
  else if Str.includes s1 s2 || Str.includes s2 s1 then Number.Num (8 # 10)
  else
    let words1 := splitWhite s1 in
    let words2 := splitWhite s2 in
    let overlap := length (filter (fun word => word ∈ words2) words1) in
    Number.div_counts overlap (Nat.max (length words1) (length words2)).

(** The score that the loop of [findBestMatch] computes for a contact.
    A property or a target counts when it is a string that is not
    empty.  The sum is the exact one; the sum of the code, in doubles,
    can lie a rounding error beside it (0.2 + 0.4 is a double above
    0.6), so a comparison of a score with a number it equals exactly is
    outside the model. *)
Definition scoreOf (targetName : string) (targetCompany targetEmail targetLinkedinUrl : option string)
    (contact : ApolloContact) : Number.t :=
  let score := Number.Num 0 in
  let score :=
    match JS.spread_truthy (name contact) with
    | Some contactName =>
        Number.add score
          (Number.scale (calculateNameSimilarity contactName targetName) (5 # 10))
    | None => score
    end in
  let score :=
    match JS.spread_truthy targetCompany, JS.spread_truthy (company contact) with
    | Some target, Some contactCompany =>
        Number.add score
          (Number.scale (calculateStringSimilarity contactCompany target) (3 # 10))
    | _, _ => score
    end in
  let score :=
    match JS.spread_truthy targetEmail, JS.spread_truthy (email contact) with
    | Some target, Some contactEmail =>
        if decide (Str.toLowerCase contactEmail = Str.toLowerCase target)
        then Number.add score (Number.Num (4 # 10)) else score
    | _, _ => score
    end in
  let score :=
    match JS.spread_truthy targetLinkedinUrl, JS.spread_truthy (linkedinUrl contact) with
    | Some target, Some contactUrl =>
        if decide (contactUrl = target)
        then Number.add score (Number.Num (3 # 10)) else score
    | _, _ => score
    end in
  score.

(** The body of the loop, on the pair of [bestMatch] and [bestScore]. *)
Definition better (score : ApolloContact -> Number.t)
    (best : option ApolloContact * Number.t) (contact : ApolloContact)
    : option ApolloContact * Number.t :=
  if gt (score contact) (snd best) then (Some contact, score contact) else best.

Definition findBestMatch (contacts : list ApolloContact) (targetName : string)
    (targetCompany targetEmail targetLinkedinUrl : option string) : option ApolloContact :=
  match contacts with
  | [] => None
  | _ =>
      let best :=
        fold_left (better (scoreOf targetName targetCompany targetEmail targetLinkedinUrl))
                  contacts (None, Number.Num 0) in
      if gt (snd best) (Number.Num (6 # 10)) then fst best else None
  end.

(** [enrichContact].  [configured] is [isConfigured()]; the two calls of
    the API are answered by the environment, [inl] for a promise that is
    rejected. *)
Definition enrichContact (configured : bool)
    (getPersonByEmail : string -> ApolloAPIError + option ApolloContact)
    (searchPeople : ApolloSearchParams -> ApolloAPIError + list ApolloContact)
    (name : string) (company email linkedinUrl : option string)
    : ApolloAPIError + option ApolloContact :=
  if configured then
    let direct :=
      match JS.spread_truthy email with
      | Some address =>
          match getPersonByEmail address with
          | inr (Some contact) => Some contact
          | inr None | inl _ => None
          end
      | None => None
      end in
    match direct with
    | Some contact => inr (Some contact)
    | None =>
        let nameParts := Str.split " " (trim name) in
        let searchParams :=
          mkParams (if (2 <=? length nameParts)%nat then Some [name] else None)
                   (match JS.spread_truthy company with
                    | Some c => Some [c]
                    | None => None
                    end)
                   None None None None (Some 5%Z) None in
        match searchPeople searchParams with
        | inr contacts =>
            inr (findBestMatch contacts name company email linkedinUrl)
        | inl _ => inr None
        end
    end
  else inl (mkError "Apollo API not configured" None).

End ApolloAPIClient.

(** ** The search engines and their manager ([search/engines.ts]) *)

From Stdlib Require DecimalString.

Module SearchEngine.

(** [SearchEngineError]: the message, the provider and the status code
    ([originalError] is the exception that was caught, of which the
    message has been copied). *)
Record SearchEngineError := mkError {
  message : string;
  provider : string;
  statusCode : option Z
}.

(** How a promise of results settles: [inl] is a rejection. *)
Definition Results : Type := SearchEngineError + list SearchResult.t.

(** The interface [SearchEngine].  A search is answered by the engine
    and its environment for the query it is given. *)
Record t := mk {
  name : string;
  search : SearchQuery.t -> Results;
  isConfigured : bool
}.

End SearchEngine.

Module GoogleSearchEngine.

Import SearchEngine.

Record SearchEngineConfig := mkConfig {
  apiKey : string;
  engineId : option string;
  baseUrl : option string;
  rateLimit : option Z;
  timeout : option Z
}.

Definition name : string := "google".

(** [constructor(config?)]: [config || googleSearchConfig || { ... }]. *)
Definition config_of (config googleSearchConfig : option SearchEngineConfig)
    : SearchEngineConfig :=
  match config, googleSearchConfig with
  | Some c, _ => c
  | None, Some c => c
  | None, None =>
      mkConfig "" (Some EmptyString)
        (Some "https://www.googleapis.com/customsearch/v1") (Some 100%Z) (Some 30000%Z)
  end.

Definition isConfigured (config : SearchEngineConfig) : bool :=
  JS.truthy (apiKey config)
  && match engineId config with Some e => JS.truthy e | None => false end.

(** A text between two double quotes. *)
Definition inQuotes (s : string) : string :=
  String (ascii_of_nat 34) (s ++ String (ascii_of_nat 34) EmptyString)%string.

Definition buildSearchString (query : SearchQuery.t) : string :=
  let searchString := SearchQuery.query query in
  let searchString :=
    if Str.includes searchString "site:" then searchString
    else (searchString ++ " site:linkedin.com/in/")%string in
  match JS.spread_truthy (SearchQuery.location query) with
  | Some location =>
      if Str.includes searchString location then searchString
      else (searchString ++ " " ++ inQuotes location)%string
  | None => searchString
  end.

(** [n.toString()] for a whole number. *)
Definition toString (n : Z) : string :=
  DecimalString.NilZero.string_of_int (Z.to_int n).

(** [buildSearchParams]: the parameters in the order they are set; the
    value of [cx] is [undefined] when the configuration has no engine
    id. *)
Definition buildSearchParams (config : SearchEngineConfig) (query : SearchQuery.t)
    : list (string * option string) :=
  let maxResults :=
    match SearchQuery.maxResults query with
    | Some n => if (n =? 0)%Z then 10%Z else n
    | None => 10%Z
    end in
  [ ("key", Some (apiKey config));
    ("cx", engineId config);
    ("q", Some (buildSearchString query));
    ("num", Some (toString (Z.min maxResults 10)));
    ("safe", Some "off");
    ("fields", Some "items(title,link,snippet,displayLink,pagemap)") ]
  ++ match JS.spread_truthy (SearchQuery.language query) with
     | Some language => [("lr", Some ("lang_" ++ language)%string)]
     | None => []
     end
  ++ match JS.spread_truthy (SearchQuery.dateRestrict query) with
     | Some dateRestrict => [("dateRestrict", Some dateRestrict)]
     | None => []
     end.

(** An item of the answer of the API with the fourth property that
    [parseSearchResults] reads. *)
Record ApiItem := mkApiItem {
  item : Engines.Item;
  displayLink : option string
}.

(** [value || ''] *)
Definition orEmpty (value : option string) : string := default EmptyString value.

(** [parseSearchResults]: [items] is [data.items] when that is an array,
    [now] the time at which the results are made. *)
Definition parseSearchResults (items : option (list ApiItem)) (query : SearchQuery.t)
    (now : Date) : list SearchResult.t :=
  match items with
  | None => []
  | Some items =>
      map (fun i =>
             SearchResult.mk (orEmpty (Engines.title (item i)))
               (orEmpty (Engines.link (item i)))
               (orEmpty (Engines.snippet (item i)))
               (Some (orEmpty (displayLink i)))
               name now
               (Some (Engines.calculateRelevanceScore (item i) query)))
          items
  end.

(** How [axios.get] settles: with the data of the answer, of which
    [items] is read, or with an exception that has a message and, for an
    error of the HTTP exchange, a status. *)
Inductive Response :=
| Responded (items : option (list ApiItem))
| Rejected (message : string) (status : option Z).

(** The environment of one call of [search]: whether the rate limiter
    lets the call pass, what the API answers to a request, and the
    clock. *)
Record Environment := mkEnvironment {
  consume : bool;
  get : option string -> list (string * option string) -> Response;
  now : Date
}.

Definition search (config : SearchEngineConfig) (env : Environment) (query : SearchQuery.t)
    : Results :=
  if negb (isConfigured config) then
    inl (mkError "Google Search API not configured" name None)
  else if negb (consume env) then
    inl (mkError "Google Search API rate limit exceeded" name (Some 429%Z))
  else
    match get env (baseUrl config) (buildSearchParams config query) with
    | Responded items => inr (parseSearchResults items query (now env))
    | Rejected message status =>
        inl (mkError ("Google search failed: " ++ message)%string name status)
    end.

(** The engine as the manager sees it; [env] gives the environment of
    the call for each query. *)
Definition engine (config : SearchEngineConfig) (env : SearchQuery.t -> Environment)
    : SearchEngine.t :=
  SearchEngine.mk name (fun query => search config (env query) query) (isConfigured config).

End GoogleSearchEngine.

Module FallbackSearchEngine.

Definition engine : SearchEngine.t :=
  SearchEngine.mk "fallback" (fun _ => inr []) true.

End FallbackSearchEngine.

Module SearchEngineManager.

Import SearchEngine.

(** The manager: the [Map] of the engines, as the list of its entries
    in the order of their insertion, and the name of the primary
    engine. *)
Record t := mk {
  engines : list (string * SearchEngine.t);
  primaryEngine : string
}.

(** [Map.prototype.get] and [Map.prototype.set] *)
Fixpoint get (key : string) (entries : list (string * SearchEngine.t))
    : option SearchEngine.t :=
  match entries with
  | [] => None
  | (k, v) :: rest => if decide (k = key) then Some v else get key rest
  end.

Fixpoint set (key : string) (value : SearchEngine.t) (entries : list (string * SearchEngine.t))
    : list (string * SearchEngine.t) :=
  match entries with
  | [] => [(key, value)]
  | (k, v) :: rest =>
      if decide (k = key) then (k, value) :: rest else (k, v) :: set key value rest
  end.

(** [constructor] with [initializeEngines]: [googleSearchConfig] is the
    configuration of the server, if it has one. *)
Definition new (googleSearchConfig : option GoogleSearchEngine.SearchEngineConfig)
    (env : SearchQuery.t -> GoogleSearchEngine.Environment) : t :=
  let googleEngine :=
    GoogleSearchEngine.engine (GoogleSearchEngine.config_of None googleSearchConfig) env in
  let engines := set "google" googleEngine [] in
  let engines := set "fallback" FallbackSearchEngine.engine engines in
  mk engines (if isConfigured googleEngine then "google" else "fallback").

(** [getEngine]: [inl] is the exception. *)
Definition getEngine (engineName : option string) (m : t)
    : SearchEngineError + SearchEngine.t :=
  let name := default (primaryEngine m) (JS.spread_truthy engineName) in
  match get name (engines m) with
  | Some engine => inr engine
  | None => inl (mkError ("Search engine not found: " ++ name)%string name None)
  end.

Section Search.

Variable URL_parse : string -> option Engines.URL.

Definition search (m : t) (query : SearchQuery.t) (engineName : option string) : Results :=
  match getEngine engineName m with
  | inl e => inl e
  | inr engine =>
      match SearchEngine.search engine query with
      | inr results => inr (Engines.deduplicateResults URL_parse results)
      | inl error =>
          if decide (SearchEngine.name engine <> "fallback") then
            match get "fallback" (engines m) with
            | Some fallbackEngine => SearchEngine.search fallbackEngine query
            | None => inl error
            end
          else inl error
      end
  end.

End Search.

Definition getAvailableEngines (m : t) : list string := map fst (engines m).

Definition isEngineConfigured (engineName : string) (m : t) : bool :=
  match get engineName (engines m) with
  | Some engine => isConfigured engine
  | None => false
  end.

Definition setPrimaryEngine (engineName : string) (m : t) : SearchEngineError + t :=
  match get engineName (engines m) with
  | Some _ => inr (mk (engines m) engineName)
  | None => inl (mkError ("Search engine not found: " ++ engineName)%string engineName None)
  end.

Definition addEngine (name : string) (engine : SearchEngine.t) (m : t) : t :=
  mk (set name engine (engines m)) (primaryEngine m).

End SearchEngineManager.

(** ** The export of profiles as CSV ([index.ts]) *)

Module ExportResults.

(** The columns of a profile that the export writes ([ProfileRecord]). *)
Record Profile := mkProfile {
  name : string;
  title : option string;
  company : option string;
  location : option string;
  profileUrl : string;
  email : option string;
  phone : option string
}.

(** [parts.join(separator)] *)
Fixpoint join (separator : string) (parts : list string) : string :=
  match parts with
  | [] => EmptyString
  | [part] => part
  | part :: rest => (part ++ separator ++ join separator rest)%string
  end.

Definition csvHeaders : list string :=
  ["name"; "title"; "company"; "location"; "profileUrl"; "email"; "phone"].

(** [(p as any)[h] || ''] for the seven headers, in their order. *)
Definition csvValues (p : Profile) : list string :=
  [ name p; default EmptyString (title p); default EmptyString (company p);
    default EmptyString (location p); profileUrl p; default EmptyString (email p);
    default EmptyString (phone p) ].

Definition csvRow (p : Profile) : string := join "," (csvValues p).

(** The text of the export in the format [csv]. *)
Definition exportCsv (profiles : list Profile) : string :=
  join (String (ascii_of_nat 10) EmptyString)
       (join "," csvHeaders :: map csvRow profiles).

End ExportResults.

(** ** The configuration of the server ([config/index.ts]) *)

Module Config.

Import Text.

(** [process.env] *)
Definition Env : Type := string -> option string.

(** [getEnvVar(name, defaultValue?)]: [inl] is the message of the
    exception. *)
Definition getEnvVar (env : Env) (name : string) (defaultValue : option string)
    : string + string :=
  match JS.spread_truthy (env name), JS.spread_truthy defaultValue with
  | None, None => inl ("Environment variable " ++ name ++ " is required")%string
  | Some value, _ => inr value
  | None, Some value => inr value
  end.

Fixpoint digitsValue (digits : list ascii) (acc : Z) : Z :=
  match digits with
  | [] => acc
  | d :: digits' => digitsValue digits' (10 * acc + Z.of_nat (nat_of_ascii d - 48))%Z
  end.

(** [parseInt(value, 10)]: white space at the head is passed over, then
    a sign is read, then the digits that follow; [None] is NaN, the
    answer when no digit follows.  The answer is the whole number that
    the digits write, which is the number JavaScript holds as long as it
    is below 2^53. *)
Definition parseInt (value : string) : option Z :=
  let s := trimStart (list_ascii_of_string value) in
  let '(negative, s) :=
    match s with
    | "-"%char :: s' => (true, s')
    | "+"%char :: s' => (false, s')
    | _ => (false, s)
    end in
  match takeWhile isDigit s with
  | [] => None
  | digits => Some (if negative : bool then - digitsValue digits 0 else digitsValue digits 0)%Z
  end.

Definition getEnvNumber (env : Env) (name : string) (defaultValue : Z) : string + Z :=
  match JS.spread_truthy (env name) with
  | None => inr defaultValue
  | Some value =>
      match parseInt value with
      | Some parsed => inr parsed
      | None => inl ("Environment variable " ++ name ++ " must be a valid number")%string
      end
  end.

Record AIProvider := mkProvider {
  name : string;
  apiKey : string;
  baseUrl : option string;
  model : option string;
  maxTokens : option Z;
  temperature : option Q
}.

(** [ServerConfig['aiProviders']]: an object with at most these four
    keys. *)
Record AIProviders := mkProviders {
  openai : option AIProvider;
  gemini : option AIProvider;
  openrouter : option AIProvider;
  ollama : option AIProvider
}.

(** The object [aiProviders] that the module builds from the
    environment; the keys are set in this order.  [inl] is an exception
    of [getEnvVar]. *)
Definition aiProviders (env : Env) : string + AIProviders :=
  let openai :=
    match JS.spread_truthy (env "OPENAI_API_KEY") with
    | Some key =>
        Some (mkProvider "openai" key (Some "https://api.openai.com/v1") (Some "gpt-4")
                (Some 2000%Z) (Some (7 # 10)))
    | None => None
    end in
  let gemini :=
    match JS.spread_truthy (env "GOOGLE_GEMINI_API_KEY") with
    | Some key =>
        Some (mkProvider "gemini" key
                (Some "https://generativelanguage.googleapis.com/v1beta") (Some "gemini-pro")
                (Some 2000%Z) (Some (7 # 10)))
    | None => None
    end in
  let openrouter :=
    match JS.spread_truthy (env "OPENROUTER_API_KEY") with
    | Some key =>
        Some (mkProvider "openrouter" key (Some "https://openrouter.ai/api/v1")
                (Some "anthropic/claude-3-sonnet") (Some 2000%Z) (Some (7 # 10)))
    | None => None
    end in
  match JS.spread_truthy (env "OLLAMA_BASE_URL") with
  | Some _ =>
      match getEnvVar env "OLLAMA_BASE_URL" (Some "http://localhost:11434"),
            getEnvVar env "OLLAMA_MODEL" (Some "llama2") with
      | inr url, inr model =>
          inr (mkProviders openai gemini openrouter
                 (Some (mkProvider "ollama" EmptyString (Some url) (Some model) (Some 2000%Z)
                          (Some (7 # 10)))))
      | inl e, _ | _, inl e => inl e
      end
  | None => inr (mkProviders openai gemini openrouter None)
  end.

(** [getAIProvider(name)]: the property of that name of the object.
    The callers give a key of the object; a name that every object
    answers, such as [constructor], is outside the model. *)
Definition getAIProvider (providers : AIProviders) (name : string) : option AIProvider :=
  if decide (name = "openai") then openai providers
  else if decide (name = "gemini") then gemini providers
  else if decide (name = "openrouter") then openrouter providers
  else if decide (name = "ollama") then ollama providers
  else None.

(** [getAvailableAIProviders()]: [Object.keys], in the order in which
    the keys were set. *)
Definition getAvailableAIProviders (providers : AIProviders) : list string :=
  (if openai providers is Some _ then ["openai"] else [])
  ++ (if gemini providers is Some _ then ["gemini"] else [])
  ++ (if openrouter providers is Some _ then ["openrouter"] else [])
  ++ (if ollama providers is Some _ then ["ollama"] else []).

Definition preferenceOrder : list string := ["openai"; "gemini"; "openrouter"; "ollama"].

Definition getDefaultAIProvider (providers : AIProviders) : option string :=
  let available := getAvailableAIProviders providers in
  match available with
  | [] => None
  | first :: _ =>
      match List.find (fun provider => bool_decide (provider ∈ available)) preferenceOrder with
      | Some provider => Some provider
      | None => Some first
      end
  end.

End Config.

(** ** The providers of the AI manager ([AIProviderManager]) *)

Module AIProviderManager.

Import Config.

Record AIProviderError := mkError {
  message : string;
  provider : string
}.

(** The [Map] of the providers that [initializeProviders] fills: the
    entries in the order of their insertion. *)
Definition initializeProviders (configured : AIProviders) : list (string * AIProvider) :=
  omap (fun providerName =>
          match getAIProvider configured providerName with
          | Some provider => Some (providerName, provider)
          | None => None
          end)
       (getAvailableAIProviders configured).

Fixpoint get (key : string) (entries : list (string * AIProvider)) : option AIProvider :=
  match entries with
  | [] => None
  | (k, v) :: rest => if decide (k = key) then Some v else get key rest
  end.

(** [getProvider(providerName?)]; [inl] is the exception. *)
Definition getProvider (configured : AIProviders) (providerName : option string)
    : AIProviderError + AIProvider :=
  let providers := initializeProviders configured in
  let name :=
    match JS.spread_truthy providerName with
    | Some name => Some name
    | None => JS.spread_truthy (getDefaultAIProvider configured)
    end in
  match name with
  | None => inl (mkError "No AI provider available" "none")
  | Some name =>
      match get name providers with
      | Some provider => inr provider
      | None => inl (mkError ("AI provider not found: " ++ name)%string name)
      end
  end.

Definition getAvailableProviders (configured : AIProviders) : list string :=
  map fst (initializeProviders configured).

End AIProviderManager.

(** ** The search of one query ([SearchOrchestrator.searchProfiles]) *)

Module SingleSearch.

Import Orchestrator.

(** What the environment does during one call of [searchProfiles].  The
    call is suspended four times in the model: in the insertion of the
    record (line 376, before the [try] block), in the write of the
    status running, in the expansion of the query, the searches, the
    filter and the storing of the results, and in the last write.  For
    each of the three calls of the store the script tells whether it
    succeeds; for every suspension it tells the calls that run
    meanwhile.  The expansion, the searches and the filter catch their
    own exceptions, so that of them only [finalResults] is kept, the
    array that is stored: the results of the searches, or the answer of
    the filter, whose entries can be [undefined].  [message] is the
    message of the exception that leaves the [try] block, the one of a
    write to the store or the one of the storing loop; [handlerNow],
    [handlerWrite] and [handlerMessage] are the time of
    [handleOperationError], whether its write succeeds, and the message
    of the exception of that write. *)
Record Script := mkScript {
  insertOk : bool;
  atInsert : list External;
  runningWrite : bool;
  runningNow : Date;
  atStart : list External;
  during : list External;
  finalResults : list AI.Entry;
  completedWrite : bool;
  completedNow : Date;
  atEnd : list External;
  message : string;
  handlerNow : Date;
  handlerWrite : bool;
  handlerMessage : string
}.

(** How the promise settles. *)
Inductive Settled :=
| Resolved (operationId : string) (results : list AI.Entry)
| RejectedWith (message : string).

(** An entry of the array that is a result and not [undefined]. *)
Definition defined (entry : AI.Entry) : bool :=
  match entry with Some _ => true | None => false end.

(** The [catch] block of [searchProfiles]: the promise is rejected with
    the exception that was caught when [handleOperationError] returns,
    and with the exception of the handler when that rejects. *)
Definition catchBlock (operationId : string) (script : Script) (s : t) : Settled * t :=
  let '(returned, s) :=
    handleOperationError operationId (message script) (handlerNow script)
      (handlerWrite script) s in
  (RejectedWith (if returned : bool then message script else handlerMessage script), s).

(** [searchProfiles], called at time [now]: [operationId] is the id the
    orchestrator draws, [storeId] the one the store draws.  The loop
    that stores the results catches the exception of
    [storeSearchResult], but its [catch] block reads [result.url]: at an
    entry that is [undefined] the call throws a [TypeError] and the
    [catch] block throws one again, which leaves the loop and the [try]
    block. *)
Definition searchProfiles (operationId storeId : string) (query : string)
    (config : SearchOperationConfig) (now : Date) (script : Script) (s : t)
    : Settled * t :=
  let operation := fresh (dom (heap s)) in
  let object :=
    SearchOperation.mk operationId query pending now None 1 0 0 None 0 None config in
  let s := set_heap (<[ operation := object ]> (heap s)) s in
  let s := set_activeOperations (<[ operationId := operation ]> (activeOperations s)) s in
  if insertOk script then
    let s := set_database (Database.insertSearchOperation storeId object now (database s)) s in
    let s := fold_left external (atInsert script) s in
    let s := mutate operation (SearchOperation.set_status running) s in
    if runningWrite script then
      let s :=
        write operationId (updates (Some running) None None None None None None)
          (runningNow script) s in
      let s := fold_left external (atStart script) s in
      let s := fold_left external (during script) s in
      let found := finalResults script in
      if forallb defined found then
        let s :=
          mutate operation
            (fun o =>
               SearchOperation.set_searchedLocations 1
                 (SearchOperation.set_progress 1
                    (SearchOperation.set_totalResults (Z.of_nat (length found))
                       (SearchOperation.set_endTime (Some (completedNow script))
                          (SearchOperation.set_status completed o))))) s in
        if completedWrite script then
          let s :=
            write operationId
              (updates (Some completed) (Some (completedNow script)) (Some 1%Z)
                 (Some (Z.of_nat (length found))) None (Some 1%Q) None)
              (completedNow script) s in
          let s := fold_left external (atEnd script) s in
          let s := set_activeOperations (delete operationId (activeOperations s)) s in
          (Resolved operationId found, s)
        else
          let s := fold_left external (atEnd script) s in
          catchBlock operationId script s
      else catchBlock operationId script s
    else
      let s := fold_left external (atStart script) s in
      catchBlock operationId script s
  else
    let s := fold_left external (atInsert script) s in
    (RejectedWith (message script), s).

End SingleSearch.

(** ** The shutdown of the server ([SearchMCPServer.cleanup]) *)

Module Server.

Import Orchestrator.

(** [getActiveOperations]: the objects behind the references of the
    map.  The [Map] of the source lists them in the order of their
    insertion, which the finite map of the model does not keep; what is
    proved of [cleanupOver] below is proved for every order. *)
Definition getActiveOperations (s : t) : list SearchOperation.t :=
  omap (fun entry : string * nat => heap s !! entry.2) (map_to_list (activeOperations s)).

(** The loop of [cleanup] over the snapshot of the active operations,
    while no other task runs: [clock i] is the time of the call of
    [cancelSearch] for the operation at position [i] and [writes i]
    tells whether its write to the store succeeds.  The answer [false]
    says that the loop was left by an exception. *)
Fixpoint cancelEach (clock : nat -> Date) (writes : nat -> bool) (i : nat)
    (snapshot : list SearchOperation.t) (s : t) : bool * t :=
  match snapshot with
  | [] => (true, s)
  | operation :: rest =>
      match cancelSearch (SearchOperation.id operation) (clock i) (writes i) s with
      | (Some _, s) => cancelEach clock writes (S i) rest s
      | (None, s) => (false, s)
      end
  end.

(** [cleanup] for a snapshot: the state of the orchestrator at the end
    and whether [database.close()] was called, which the exception of a
    call of [cancelSearch] skips. *)
Definition cleanupOver (snapshot : list SearchOperation.t) (clock : nat -> Date)
    (writes : nat -> bool) (s : t) : t * bool :=
  let '(finished, s) := cancelEach clock writes 0 snapshot s in (s, finished).

Definition cleanup (clock : nat -> Date) (writes : nat -> bool) (s : t) : t * bool :=
  cleanupOver (getActiveOperations s) clock writes s.

End Server.

(* ================================================================== *)
(** * Part II.  Properties *)
(* ================================================================== *)

(** ** The stable sort *)

Section ArraySort.

Context {A : Type} (compareFn : A -> A -> Q).

Definition keeps_order (x y : A) : Prop := Qle_bool (compareFn x y) 0 = true.

Lemma sort_insert_Permutation (x : A) (l : list A) :
  Permutation (JS.sort_insert compareFn x l) (x :: l).
Proof.
  induction l as [|y l IH]; simpl; [reflexivity|].
  destruct (Qle_bool (compareFn x y) 0); [reflexivity|].
  rewrite IH. apply perm_swap.
Qed.

Lemma Array_sort_Permutation (l : list A) :
  Permutation (JS.Array_sort compareFn l) l.
Proof.
  induction l as [|x l IH]; simpl; [reflexivity|].
  rewrite sort_insert_Permutation. by constructor.
Qed.

Lemma Array_sort_length (l : list A) :
  length (JS.Array_sort compareFn l) = length l.
Proof. apply Permutation_length, Array_sort_Permutation. Qed.

Lemma Array_sort_nil_inv (l : list A) :
  JS.Array_sort compareFn l = [] -> l = [].
Proof.
  intros H. apply Permutation_nil. rewrite <- H.
  apply Array_sort_Permutation.
Qed.

Hypothesis compare_total : forall x y, keeps_order x y \/ keeps_order y x.

Lemma sort_insert_HdRel (x a : A) (l : list A) :
  keeps_order a x -> HdRel keeps_order a l ->
  HdRel keeps_order a (JS.sort_insert compareFn x l).
Proof.
  intros Hax Hl. destruct l as [|y l]; simpl.
  - by constructor.
  - destruct (Qle_bool (compareFn x y) 0); constructor; [done|].
    by inversion Hl.
Qed.

Lemma sort_insert_Sorted (x : A) (l : list A) :
  Sorted keeps_order l -> Sorted keeps_order (JS.sort_insert compareFn x l).
Proof.
  induction 1 as [|y l Hl IH Hhd]; simpl.
  - repeat constructor.
  - destruct (Qle_bool (compareFn x y) 0) eqn:Hxy.
    + constructor; [by constructor|by constructor].
    + constructor; [exact IH|].
      apply sort_insert_HdRel; [|exact Hhd].
      destruct (compare_total x y) as [H|H]; [|exact H].
      unfold keeps_order in H. congruence.
Qed.

Lemma Array_sort_Sorted (l : list A) :
  Sorted keeps_order (JS.Array_sort compareFn l).
Proof.
  induction l as [|x l IH]; simpl; [constructor|].
  by apply sort_insert_Sorted.
Qed.

End ArraySort.

(** ** The operation store *)

Section Store.

Import Database.

Lemma updateFields_nil (updates : PartialOperation.t) :
  updateFields updates = [] <->
  PartialOperation.status updates = None /\
  PartialOperation.endTime updates = None /\
  PartialOperation.searchedLocations updates = None /\
  PartialOperation.totalResults updates = None /\
  PartialOperation.currentLocation updates = None /\
  PartialOperation.progress updates = None /\
  PartialOperation.error updates = None.
Proof.
  destruct updates as [? ? s ? e ? sl tr cl p er ?]; unfold updateFields; simpl.
  destruct s, e, sl, tr, cl, p, er; simpl; split;
    try discriminate; try done; intros (?&?&?&?&?&?&?); discriminate.
Qed.

Lemma updateSearchOperation_other (id id' : string) (updates : PartialOperation.t)
    (now : Date) (db : t) :
  id' <> id ->
  search_operations (updateSearchOperation id updates now db) !! id'
  = search_operations db !! id'.
Proof.
  intros Hne. unfold updateSearchOperation.
  destruct (updateFields updates); [done|].
  simpl. by rewrite lookup_alter_ne.
Qed.

Lemma updateSearchOperation_locations (id : string) (updates : PartialOperation.t)
    (now : Date) (db : t) :
  locations (updateSearchOperation id updates now db) = locations db.
Proof. unfold updateSearchOperation. by destruct (updateFields updates). Qed.

Lemma updateSearchOperation_absent (id : string) (updates : PartialOperation.t)
    (now : Date) (db : t) :
  search_operations db !! id = None ->
  updateSearchOperation id updates now db = db.
Proof.
  intros Hnone. unfold updateSearchOperation.
  destruct (updateFields updates); [done|].
  destruct db as [ls ops]; simpl in *. unfold set_search_operations; simpl.
  f_equal. apply map_eq. intros j.
  destruct (decide (j = id)) as [->|Hne].
  - by rewrite lookup_alter_eq, Hnone.
  - by rewrite lookup_alter_ne.
Qed.

(** C9.  The partial update of a stored operation writes each of status,
    endTime, searchedLocations, totalResults, currentLocation, progress
    and error exactly when the update supplies it, each on its own, and
    leaves every column it was not given as it was; the other columns of
    the record (id, query, start time, total locations, configuration,
    creation time) are never written, nor is any other record, and the
    bookkeeping column updated_at is stamped when at least one of the
    seven is supplied. *)
Theorem updateSearchOperation_sets_supplied_fields
    (db : t) (id : string) (updates : PartialOperation.t) (now : Date)
    (row : OperationRow.t) :
  search_operations db !! id = Some row ->
  exists row',
    search_operations (updateSearchOperation id updates now db) !! id = Some row'
    /\ OperationRow.status row'
       = default (OperationRow.status row) (PartialOperation.status updates)
    /\ OperationRow.end_time row'
       = from_option Some (OperationRow.end_time row) (PartialOperation.endTime updates)
    /\ OperationRow.searched_locations row'
       = default (OperationRow.searched_locations row)
                 (PartialOperation.searchedLocations updates)
    /\ OperationRow.total_results row'
       = default (OperationRow.total_results row) (PartialOperation.totalResults updates)
    /\ OperationRow.current_location row'
       = from_option Some (OperationRow.current_location row)
                     (PartialOperation.currentLocation updates)
    /\ OperationRow.progress row'
       = default (OperationRow.progress row) (PartialOperation.progress updates)
    /\ OperationRow.error row'
       = from_option Some (OperationRow.error row) (PartialOperation.error updates)
    /\ OperationRow.id row' = OperationRow.id row
    /\ OperationRow.query row' = OperationRow.query row
    /\ OperationRow.start_time row' = OperationRow.start_time row
    /\ OperationRow.total_locations row' = OperationRow.total_locations row
    /\ OperationRow.config row' = OperationRow.config row
    /\ OperationRow.created_at row' = OperationRow.created_at row
    /\ OperationRow.updated_at row'
       = (if decide (updateFields updates = []) then OperationRow.updated_at row else now)
    /\ (forall id', id' <> id ->
          search_operations (updateSearchOperation id updates now db) !! id'
          = search_operations db !! id')
    /\ locations (updateSearchOperation id updates now db) = locations db.
Proof.
  intros Hrow.
  assert (Hrest :
    (forall id', id' <> id ->
       search_operations (updateSearchOperation id updates now db) !! id'
       = search_operations db !! id')
    /\ locations (updateSearchOperation id updates now db) = locations db).
  { split; [intros; by apply updateSearchOperation_other
           |apply updateSearchOperation_locations]. }
  revert Hrest. unfold updateSearchOperation.
  destruct updates as [? ? s ? e ? sl tr cl p er ?]; unfold updateFields; simpl.
  destruct row as [ri rq rst rs re rtl rsl rtr rcl rp rer rc rca rua].
  destruct s, e, sl, tr, cl, p, er; simpl; intros Hrest;
    rewrite ?lookup_alter_eq, Hrow; simpl;
    (eexists; split; [reflexivity|]); simpl;
    repeat (split; [reflexivity|]); first [exact Hrest | apply Hrest].
Qed.

(** A record and an update that sets two of the seven columns. *)
Definition sampleRow : OperationRow.t :=
  OperationRow.mk "op-1" "data analyst" running 1000%Z None 3%Z 1%Z 4%Z
    (Some "Canada") (1 # 3) None emptyConfig 900%Z 950%Z.

Definition sampleUpdate : PartialOperation.t :=
  PartialOperation.mk None None (Some cancelled) None (Some 2000%Z) None None None
    None None None None.

Lemma updateSearchOperation_sets_supplied_fields_witness :
  exists row',
    search_operations
      (updateSearchOperation "op-1" sampleUpdate 2001%Z
         (mk [] {[ "op-1" := sampleRow ]})) !! "op-1" = Some row'
    /\ OperationRow.status row' = cancelled
    /\ OperationRow.end_time row' = Some 2000%Z
    /\ OperationRow.searched_locations row' = 1%Z
    /\ OperationRow.current_location row' = Some "Canada"
    /\ OperationRow.updated_at row' = 2001%Z.
Proof.
  destruct (updateSearchOperation_sets_supplied_fields
              (mk [] {[ "op-1" := sampleRow ]}) "op-1" sampleUpdate 2001%Z sampleRow)
    as (row' & Hlook & Hst & Hend & Hsl & _ & Hcl & _ & _ & _ & _ & _ & _ & _ & _ & Hua & _).
  - reflexivity.
  - exists row'. repeat split; assumption.
Defined.

End Store.

(** ** Success statistics of a location *)

Section LocationStats.

Import Database.

Lemma updateLocationStats_lookup (db : t) (id : string) (success : bool) (now : Date)
    (i : nat) (r : LocationRow.t) :
  locations db !! i = Some r ->
  locations (updateLocationStats id success now db) !! i
  = Some (if decide (LocationRow.id r = id) then bumpStats success now r else r).
Proof.
  intros Hi. unfold updateLocationStats; simpl.
  change (map ?f ?l) with (f <$> l). by rewrite list_lookup_fmap, Hi.
Qed.

Lemma getLocations_elem (db : t) (row : LocationRow.t) :
  row ∈ locations db -> LocationRow.is_active row = true ->
  rowToLocation row ∈ getLocations true db.
Proof.
  intros Hin Hact. unfold getLocations.
  change (map ?f ?l) with (f <$> l). apply list_elem_of_fmap_2.
  rewrite (Array_sort_Permutation orderBy).
  apply list_elem_of_filter. by split.
Qed.

(** C4.  After [updateLocationStats] on a location the stored success
    rate is the number of successful searches divided by the number of
    searches, both read after the update; the total went up by one and
    the successes by one exactly for a success.  The list the manager
    reloads in [updateLocationSuccess] carries that rate.  From zero
    counters, a success followed by a failure leaves the rate at one half
    and the total at two. *)
Theorem updateLocationStats_success_rate
    (db : t) (id : string) (success : bool) (now now' : Date) (i : nat)
    (r : LocationRow.t) (m : LocationManager.t) :
  locations db !! i = Some r ->
  LocationRow.id r = id ->
  (exists r',
     locations (updateLocationStats id success now db) !! i = Some r'
     /\ LocationRow.total_searches r' = (LocationRow.total_searches r + 1)%nat
     /\ LocationRow.successful_searches r'
        = (LocationRow.successful_searches r + (if success then 1 else 0))%nat
     /\ LocationRow.success_rate r'
        = (inject_Z (Z.of_nat (LocationRow.successful_searches r'))
           / inject_Z (Z.of_nat (LocationRow.total_searches r')))%Q
     /\ LocationRow.last_searched r' = Some now
     /\ snd (LocationManager.updateLocationSuccess id success now (m, db))
        = updateLocationStats id success now db
     /\ (LocationRow.is_active r = true ->
         rowToLocation r' ∈
           LocationManager.locations
             (LocationManager.locationQueue
                (fst (LocationManager.updateLocationSuccess id success now (m, db))))))
  /\ (LocationRow.total_searches r = 0%nat ->
      LocationRow.successful_searches r = 0%nat ->
      exists r2,
        locations (updateLocationStats id false now'
                     (updateLocationStats id true now db)) !! i = Some r2
        /\ LocationRow.success_rate r2 = (1 # 2)%Q
        /\ LocationRow.total_searches r2 = 2%nat
        /\ LocationRow.successful_searches r2 = 1%nat).
Proof.
  intros Hi Hid. split.
  - exists (bumpStats success now r).
    pose proof (updateLocationStats_lookup db id success now i r Hi) as Hl.
    rewrite decide_True in Hl by done.
    split; [exact Hl|]. repeat (split; [reflexivity|]).
    intros Hact. simpl.
    rewrite (Array_sort_Permutation LocationManager.compareFn).
    apply getLocations_elem; [|done].
    apply list_elem_of_lookup. eauto.
  - intros Ht Hs. exists (bumpStats false now' (bumpStats true now r)).
    pose proof (updateLocationStats_lookup db id true now i r Hi) as Hl.
    rewrite decide_True in Hl by done.
    pose proof (updateLocationStats_lookup _ id false now' i _ Hl) as Hl2.
    rewrite decide_True in Hl2 by (destruct r; done).
    split; [exact Hl2|]. destruct r; simpl in *; subst. by repeat split.
Qed.

Definition freshRow : LocationRow.t :=
  LocationRow.mk "loc-7" "Canada" "Canada" "CA" None None "CA" 9%Z true None 0%Q 0%nat 0%nat 10%Z 10%Z.

Lemma updateLocationStats_success_rate_witness :
  exists r2,
    locations (updateLocationStats "loc-7" false 2000%Z
                 (updateLocationStats "loc-7" true 1000%Z (mk [freshRow] ∅))) !! 0%nat
    = Some r2
    /\ LocationRow.success_rate r2 = (1 # 2)%Q
    /\ LocationRow.total_searches r2 = 2%nat.
Proof.
  destruct (updateLocationStats_success_rate (mk [freshRow] ∅) "loc-7" true
              1000%Z 2000%Z 0%nat freshRow LocationManager.new) as [_ Hscenario].
  - reflexivity.
  - reflexivity.
  - destruct Hscenario as (r2 & Hl & Hrate & Htot & _); [reflexivity|reflexivity|].
    exists r2. by repeat split.
Defined.

End LocationStats.

(** ** Rotation over the locations *)

Section Rotation.

Import LocationManager.

(** [before a b]: [a] is searched before [b], by higher priority and,
    at equal priority, by higher success rate. *)
Definition before (a b : Location.t) : Prop :=
  (Location.priority b < Location.priority a)%Z
  \/ (Location.priority a = Location.priority b
      /\ (Location.successRate b <= Location.successRate a)%Q).

Lemma compareFn_before (a b : Location.t) :
  keeps_order compareFn a b <-> before a b.
Proof.
  unfold keeps_order, compareFn, before. rewrite Qle_bool_iff.
  destruct (decide (Location.priority a <> Location.priority b)) as [Hne|Heq].
  - change 0%Q with (inject_Z 0). rewrite <- Zle_Qle. lia.
  - assert (Location.priority a = Location.priority b) as Hp by lia.
    split.
    + intros H. right. split; [done|]. lra.
    + intros [H|[_ H]]; [lia|]. lra.
Qed.

Lemma before_total (a b : Location.t) : before a b \/ before b a.
Proof.
  unfold before.
  destruct (Z.lt_trichotomy (Location.priority a) (Location.priority b))
    as [H|[H|H]]; [right; by left| |left; by left].
  destruct (Qlt_le_dec (Location.successRate a) (Location.successRate b)) as [Hq|Hq].
  - right. right. split; [done|]. by apply Qlt_le_weak.
  - left. right. by split.
Qed.

Lemma before_trans (a b c : Location.t) : before a b -> before b c -> before a c.
Proof.
  unfold before. intros [H1|[H1 Q1]] [H2|[H2 Q2]].
  - left. lia.
  - left. lia.
  - left. lia.
  - right. split; [lia|]. by eapply Qle_trans.
Qed.

Lemma Array_sort_before (l : list Location.t) :
  StronglySorted before (JS.Array_sort compareFn l).
Proof.
  apply Sorted_StronglySorted; [intros a b c; apply before_trans|].
  eapply Sorted_ind with (P := Sorted before); [constructor| |].
  2: { apply (Array_sort_Sorted compareFn).
       intros x y. rewrite !compareFn_before. apply before_total. }
  intros a l' _ IH Hhd. constructor; [exact IH|].
  destruct Hhd; constructor. by apply compareFn_before.
Qed.

(** One call on an initialized manager whose cursor is on a location
    that is not blacklisted. *)
Lemma getNextLocation_ready (uuids : nat -> string) (now : Date)
    (S : list Location.t) (c : nat) (B : gset string) (ts : list (Date * string))
    (db : Database.t) (loc : Location.t) :
  S !! c = Some loc -> Location.id loc ∉ B ->
  getNextLocation uuids now (mk (mkQueue S c B) true ts, db)
  = (Some loc, (mk (mkQueue S ((c + 1) mod length S) B) true ts, db)).
Proof.
  intros Hc Hb. unfold getNextLocation; simpl.
  destruct S as [|x S']; [done|]. simpl length.
  change (length (x :: S') =? 0)%nat with false. cbv iota.
  unfold scan; fold scan. simpl locations. simpl currentIndex.
  rewrite Hc. simpl blacklistedLocations. by rewrite decide_False.
Qed.

Lemma callNext_ready (uuids : nat -> string) (now : Date)
    (S : list Location.t) (B : gset string) (ts : list (Date * string))
    (db : Database.t) :
  S <> [] ->
  (forall l, l ∈ S -> Location.id l ∉ B) ->
  forall k c, (c < length S)%nat ->
    callNext uuids now k (mk (mkQueue S c B) true ts, db)
    = map (fun j => S !! ((c + j) mod length S)) (seq 0 k).
Proof.
  intros Hne HB. induction k as [|k IH]; intros c Hc; [done|].
  destruct (lookup_lt_is_Some_2 S c Hc) as [loc Hloc].
  unfold callNext; fold callNext.
  rewrite (getNextLocation_ready _ _ _ _ _ _ _ loc Hloc)
    by (apply HB; apply list_elem_of_lookup; eauto).
  rewrite IH by (apply Nat.mod_upper_bound; lia).
  simpl seq. simpl map. rewrite Nat.add_0_r, (Nat.mod_small c) by done.
  rewrite Hloc. f_equal.
  rewrite <- seq_shift, map_map. apply map_ext. intros j.
  f_equal. rewrite Nat.Div0.add_mod_idemp_l. f_equal. lia.
Qed.

Lemma initialize_loaded (uuids : nat -> string) (now : Date) (m : t) (db : Database.t) :
  initialized m = false -> Database.getLocations true db <> [] ->
  initialize uuids now (m, db)
  = (mk (mkQueue (JS.Array_sort compareFn (Database.getLocations true db))
                 (currentIndex (locationQueue m))
                 (blacklistedLocations (locationQueue m)))
        true (timers m), db).
Proof.
  intros Hinit Hne. unfold initialize. rewrite Hinit.
  destruct (Database.getLocations true db) as [|x L]; [done|]. done.
Qed.

Lemma getNextLocation_initialize (uuids : nat -> string) (now : Date)
    (s : t * Database.t) :
  initialized (fst (initialize uuids now s)) = true ->
  getNextLocation uuids now s = getNextLocation uuids now (initialize uuids now s).
Proof.
  intros Hinit. unfold getNextLocation at 2.
  destruct (initialize uuids now s) as [m' db'] eqn:Hs. simpl in Hinit.
  unfold initialize at 1. rewrite Hinit.
  unfold getNextLocation. by rewrite Hs.
Qed.

Lemma lookup_all_positions (S : list Location.t) :
  map (fun j => S !! (j mod length S)) (seq 0 (length S)) = map Some S.
Proof.
  transitivity (map (fun j => S !! j) (seq 0 (length S))).
  { apply map_ext_in. intros j Hj. apply in_seq in Hj.
    by rewrite Nat.mod_small by lia. }
  assert (forall pre : list Location.t,
    map (fun j => (pre ++ S) !! j) (seq (length pre) (length S)) = map Some S)
    as Hgen.
  { induction S as [|x S IH]; intros pre; [done|].
    simpl. f_equal; [by rewrite list_lookup_middle|].
    specialize (IH (pre ++ [x])). rewrite <- app_assoc in IH. simpl in IH.
    rewrite <- IH. by rewrite length_app, Nat.add_1_r. }
  apply (Hgen []).
Qed.

(** C3.  With a non-empty list of locations none of which is
    blacklisted, the calls of [getNextLocation] from a fresh manager
    (not initialized, cursor 0) go through the list sorted by descending
    priority and, at equal priority, by descending success rate: the
    first [|L|] calls return each location once, in that order, and the
    [j]-th call (from 0) returns the location at position [j mod |L|],
    so later calls repeat the same cycle. *)
Theorem getNextLocation_round_robin
    (uuids : nat -> string) (now : Date) (db : Database.t) (m : t) :
  let L := Database.getLocations true db in
  let sorted := JS.Array_sort compareFn L in
  L <> [] ->
  initialized m = false ->
  currentIndex (locationQueue m) = 0%nat ->
  (forall l, l ∈ L -> Location.id l ∉ blacklistedLocations (locationQueue m)) ->
  Permutation sorted L
  /\ StronglySorted before sorted
  /\ callNext uuids now (length L) (m, db) = map Some sorted
  /\ forall k,
       callNext uuids now k (m, db)
       = map (fun j => sorted !! (j mod length L)) (seq 0 k).
Proof.
  intros L sorted Hne Hinit Hcur HB.
  assert (Hperm : Permutation sorted L) by apply Array_sort_Permutation.
  assert (Hlen : length sorted = length L) by apply Array_sort_length.
  assert (Hsne : sorted <> []).
  { intros H. apply Hne. by apply (Array_sort_nil_inv compareFn). }
  assert (Hall : forall k,
    callNext uuids now k (m, db)
    = map (fun j => sorted !! (j mod length L)) (seq 0 k)).
  { intros [|k]; [done|].
    unfold callNext; fold callNext.
    rewrite getNextLocation_initialize
      by (rewrite initialize_loaded by done; done).
    rewrite initialize_loaded by done. rewrite Hcur. fold L. fold sorted.
    pose proof (callNext_ready uuids now sorted
                  (blacklistedLocations (locationQueue m)) (timers m) db Hsne) as Hc.
    assert (HB' : forall l, l ∈ sorted ->
              Location.id l ∉ blacklistedLocations (locationQueue m)).
    { intros l Hl. apply HB. by rewrite <- Hperm. }
    specialize (Hc HB').
    specialize (Hc (S k) 0%nat).
    unfold callNext in Hc; fold callNext in Hc.
    rewrite Hlen in Hc. rewrite Hc; [done|].
    destruct L; [done|simpl; lia]. }
  split; [exact Hperm|]. split; [apply Array_sort_before|].
  split; [|exact Hall].
  rewrite Hall, <- Hlen. apply lookup_all_positions.
Qed.

End Rotation.

Definition sampleDb : Database.t :=
  Database.mk
    [ LocationRow.mk "a" "Austria" "Austria" "AT" None None "AT" 5%Z true None 0%Q
        0%nat 0%nat 0%Z 0%Z;
      LocationRow.mk "b" "Belgium" "Belgium" "BE" None None "BE" 9%Z true None (1 # 2)%Q
        2%nat 1%nat 0%Z 0%Z;
      LocationRow.mk "c" "Chile" "Chile" "CL" None None "CL" 9%Z true None (3 # 4)%Q
        4%nat 3%nat 0%Z 0%Z ]
    ∅.

Lemma getNextLocation_round_robin_witness :
  map (option_map Location.id)
      (callNext (fun _ => "") 0%Z 7 (LocationManager.new, sampleDb))
  = [Some "c"; Some "b"; Some "a"; Some "c"; Some "b"; Some "a"; Some "c"].
Proof.
  destruct (getNextLocation_round_robin (fun _ => "") 0%Z sampleDb LocationManager.new)
    as (_ & _ & _ & Hk).
  - discriminate.
  - reflexivity.
  - reflexivity.
  - intros l _. simpl. set_solver.
  - rewrite Hk. reflexivity.
Defined.

(** ** Blacklist expiry *)

Section Blacklist.

Import LocationManager.
Local Open Scope Z_scope.

Lemma elem_of_fold_difference (due : list (Date * string)) (B : gset string) (id : string) :
  id ∈ fold_left (fun s tm => s ∖ {[ snd tm ]}) due B
  <-> id ∈ B /\ forall tm, tm ∈ due -> snd tm <> id.
Proof.
  revert B. induction due as [|tm due IH]; intros B; simpl.
  - split; [intros H; split; [done|]; intros tm Htm; by apply elem_of_nil in Htm|tauto].
  - rewrite IH. split.
    + intros [HB Hdue]. split; [set_solver|].
      intros tm' Htm'. apply elem_of_cons in Htm' as [->|Hin]; [set_solver|by apply Hdue].
    + intros [HB Hall]. split.
      * assert (snd tm <> id) by (apply Hall; left). set_solver.
      * intros tm' Htm'. apply Hall. by right.
Qed.

Lemma setTimeout_after_in_range (d : Z) :
  (1 <= d <= JS.TIMEOUT_MAX)%Z -> JS.setTimeout_after d = d.
Proof.
  intros [Hlo Hhi]. unfold JS.setTimeout_after.
  apply Z.leb_le in Hlo. apply Z.leb_le in Hhi. by rewrite Hlo, Hhi.
Qed.

(** C10 (as the code has it).  [blacklistLocation] cancels nothing: the
    expiry it schedules is added behind the timers that were already
    pending, and every one of them still fires.  For a duration [d]
    that [setTimeout] takes as it is, of 1 to 2^31 - 1 milliseconds:
    within the duration of the new blacklisting, the location is still
    blacklisted at time [t] exactly when no timer that was pending
    before the call, for the same id, is due by [t]. *)
Theorem blacklistLocation_keeps_pending_timers
    (m : t) (id : string) (d : Z) (now t : Date) :
  (1 <= d <= JS.TIMEOUT_MAX)%Z ->
  (t < now + d)%Z ->
  timers (blacklistLocation id (Some d) now m) = timers m ++ [((now + d)%Z, id)]
  /\ isBlacklisted id (blacklistLocation id (Some d) now m) = true
  /\ (isBlacklisted id (fireTimers t (blacklistLocation id (Some d) now m)) = true
      <-> forall due, (due, id) ∈ timers m -> (t < due)%Z).
Proof.
  intros Hd Ht.
  assert (Htimers : timers (blacklistLocation id (Some d) now m)
                    = timers m ++ [((now + d)%Z, id)]).
  { unfold blacklistLocation. simpl. by rewrite (setTimeout_after_in_range d Hd). }
  split; [exact Htimers|]. split.
  { unfold isBlacklisted; simpl. apply bool_decide_eq_true. set_solver. }
  unfold isBlacklisted, fireTimers. rewrite Htimers. simpl.
  rewrite bool_decide_eq_true, elem_of_fold_difference. split.
  - intros [_ Hall] due Hin.
    destruct (Z_lt_le_dec t due) as [Hlt|Hle]; [done|].
    exfalso. apply (Hall (due, id)); [|done].
    apply list_elem_of_filter. split; [done|].
    apply elem_of_app. by left.
  - intros Hall. split; [set_solver|].
    intros [due id'] Hin. simpl. intros ->.
    apply list_elem_of_filter in Hin as [Hdue Hin]. simpl in Hdue.
    apply elem_of_app in Hin as [Hin|Hin].
    + specialize (Hall due Hin). lia.
    + apply list_elem_of_singleton in Hin. inversion Hin; subst. lia.
Qed.

(** "US" is blacklisted at time 0 for an hour and again at 3 000 000 ms
    for another hour: one millisecond before the first expiry is due the
    location is still blacklisted. *)
Lemma blacklistLocation_keeps_pending_timers_witness :
  isBlacklisted "US"
    (fireTimers 3599999
       (blacklistLocation "US" (Some 3600000%Z) 3000000
          (blacklistLocation "US" (Some 3600000%Z) 0 new))) = true.
Proof.
  apply (blacklistLocation_keeps_pending_timers
           (blacklistLocation "US" (Some 3600000%Z) 0 new) "US" 3600000 3000000 3599999).
  - unfold JS.TIMEOUT_MAX. lia.
  - lia.
  - intros due Hin. change (timers (blacklistLocation "US" (Some 3600000) 0 new))
      with [(3600000%Z, "US")] in Hin.
    apply list_elem_of_singleton in Hin. injection Hin as ->. lia.
Defined.

(** A duration above [TIMEOUT_MAX] is no duration for [setTimeout]: the
    expiry is due after one millisecond. *)
Example blacklistLocation_beyond_TIMEOUT_MAX :
  timers (blacklistLocation "US" (Some 2147483648%Z) 0 new) = [(1%Z, "US")]
  /\ isBlacklisted "US"
       (fireTimers 53 (blacklistLocation "US" (Some 2147483648%Z) 0 new)) = false.
Proof. vm_compute. by split. Qed.

Definition onlyUS : Database.t :=
  Database.mk
    [ LocationRow.mk "US" "United States" "United States" "US" None None "US" 10%Z
        true None 0%Q 0%nat 0%nat 0%Z 0%Z ]
    ∅.

(** C10 (as claimed) fails.  "US" is blacklisted at time 0 for an hour
    and again at 3 000 000 ms for another hour.  Both expiries are
    pending after the second call, and when the first one fires at
    3 600 000 ms, 600 000 ms after the second call, the location is off
    the blacklist and is handed out again. *)
Lemma reblacklist_does_not_replace_timer :
  let m1 := blacklistLocation "US" (Some 3600000%Z) 0 new in
  let m2 := blacklistLocation "US" (Some 3600000%Z) 3000000 m1 in
  timers m2 = [(3600000%Z, "US"); (6600000%Z, "US")]
  /\ (3600000 < 3000000 + 3600000)%Z
  /\ isBlacklisted "US" (fireTimers 3599999 m2) = true
  /\ isBlacklisted "US" (fireTimers 3600000 m2) = false
  /\ option_map Location.id
       (fst (getNextLocation (fun _ => "") 3600000 (fireTimers 3600000 m2, onlyUS)))
     = Some "US".
Proof. vm_compute. repeat split; reflexivity. Qed.

End Blacklist.

(** ** The relevance score *)

Section Relevance.

Import Engines.
Local Open Scope Q_scope.

(** A score so far: a real that is at least one half. *)
Definition atLeastHalf (x : Number.t) : Prop :=
  match x with
  | Number.Num q => 1 # 2 <= q
  | _ => False
  end.

(** A bonus: a real that is not negative. *)
Definition bonus (x : Number.t) : Prop :=
  match x with
  | Number.Num q => 0 <= q
  | _ => False
  end.

Lemma add_NaN_r (x : Number.t) : Number.add x Number.NaN = Number.NaN.
Proof. by destruct x. Qed.

Lemma add_bonus (x y : Number.t) :
  atLeastHalf x -> bonus y -> atLeastHalf (Number.add x y).
Proof. destruct x, y; simpl; try tauto. intros. lra. Qed.

Lemma div_counts_bonus (a b : nat) (c : Q) :
  b <> 0%nat -> 0 <= c -> bonus (Number.scale (Number.div_counts a b) c).
Proof.
  intros Hb Hc. destruct b as [|b]; [done|]. simpl.
  apply Qmult_le_0_compat; [|done].
  apply Qle_shift_div_l.
  - change 0 with (inject_Z 0). rewrite <- Zlt_Qlt. lia.
  - rewrite Qmult_0_l. change 0 with (inject_Z 0). rewrite <- Zle_Qle. lia.
Qed.

Lemma min_bonus (a b : Q) :
  0 <= a -> 0 <= b -> bonus (Number.Math_min (Number.Num a) (Number.Num b)).
Proof. intros Ha Hb. simpl. by apply Q.min_glb. Qed.

Lemma calculateRelevanceScore_no_terms (item : Item) (query : SearchQuery.t) :
  queryTerms query = [] ->
  calculateRelevanceScore item query = Number.NaN.
Proof.
  intros Hterms. unfold calculateRelevanceScore. rewrite Hterms. simpl.
  rewrite !add_NaN_r. simpl.
  destruct (SearchQuery.location query) as [l|]; [|done].
  destruct (JS.truthy l); [|done].
  by destruct (_ || _).
Qed.

(** Away from the defect: a query with a term of more than two
    characters gets a score between one half and one. *)
Lemma calculateRelevanceScore_with_terms (item : Item) (query : SearchQuery.t) :
  queryTerms query <> [] ->
  exists q, calculateRelevanceScore item query = Number.Num q /\ 1 # 2 <= q /\ q <= 1.
Proof.
  intros Hterms. unfold calculateRelevanceScore.
  assert (Hlen : length (queryTerms query) <> 0%nat).
  { intros H. apply Hterms. by apply length_zero_iff_nil. }
  set (s1 := match link item with Some _ => _ | None => _ end).
  assert (H1 : atLeastHalf s1).
  { subst s1. destruct (link item) as [l|]; [|simpl; lra].
    destruct (_ && _); simpl; lra. }
  set (s2 := Number.add s1 _).
  assert (H2 : atLeastHalf s2).
  { apply add_bonus; [done|]. apply div_counts_bonus; [done|lra]. }
  set (s3 := Number.add s2 _).
  assert (H3 : atLeastHalf s3).
  { apply add_bonus; [done|]. apply div_counts_bonus; [done|lra]. }
  set (s4 := Number.add s3 _).
  assert (H4 : atLeastHalf s4).
  { apply add_bonus; [done|]. apply min_bonus; [|lra].
    apply Qmult_le_0_compat; [|lra].
    change 0 with (inject_Z 0). rewrite <- Zle_Qle. lia. }
  set (s5 := match SearchQuery.location query with Some _ => _ | None => _ end).
  assert (H5 : atLeastHalf s5).
  { subst s5. destruct (SearchQuery.location query) as [l|]; [|done].
    destruct (JS.truthy l); [|done].
    destruct (_ || _); [|done]. apply add_bonus; [done|simpl; lra]. }
  destruct s5 as [q| |]; simpl in H5; try done.
  exists (Qmin q 1). split; [done|]. split.
  - apply Q.min_glb; [done|lra].
  - apply Q.le_min_r.
Qed.

(** C5 (the code against the claim).  When no word of the query has
    more than two characters, and so also for the empty query, both
    ratios of matches are 0/0 and the score is NaN for every item: it is
    not a real number of the interval from 0 to 1. *)
Theorem calculateRelevanceScore_short_query_NaN (item : Item) (query : SearchQuery.t) :
  Forall (fun term => (String.length term <= 2)%nat)
         (Str.split " " (Str.toLowerCase (SearchQuery.query query))) ->
  calculateRelevanceScore item query = Number.NaN
  /\ ~ Number.in_unit_interval (calculateRelevanceScore item query).
Proof.
  intros Hshort.
  assert (Hterms : queryTerms query = []).
  { unfold queryTerms.
    induction Hshort as [|term terms Hterm _ IH]; [done|].
    rewrite filter_cons, decide_False by lia. exact IH. }
  rewrite calculateRelevanceScore_no_terms by done.
  split; [reflexivity|]. simpl. tauto.
Qed.

Definition vpItem : Item :=
  mkItem (Some "Jane Doe - VP of Engineering - Acme | LinkedIn")
         (Some "Jane Doe is VP of Engineering at Acme.")
         (Some "https://www.linkedin.com/in/jane-doe").

Definition vpQuery : SearchQuery.t :=
  SearchQuery.mk "VP" None (Some 10%Z) None None.

Lemma calculateRelevanceScore_short_query_NaN_witness :
  calculateRelevanceScore vpItem vpQuery = Number.NaN
  /\ calculateRelevanceScore (mkItem None None None)
       (SearchQuery.mk "" None None None None) = Number.NaN.
Proof.
  split.
  - apply (calculateRelevanceScore_short_query_NaN vpItem vpQuery).
    repeat constructor.
  - apply (calculateRelevanceScore_short_query_NaN (mkItem None None None)
             (SearchQuery.mk "" None None None None)).
    repeat constructor.
Defined.

End Relevance.

(** ** Deduplication *)

Section Dedup.

Import Engines.

Variable URL_parse : string -> option URL.

Notation key := (fun r => normalizeUrl URL_parse (SearchResult.url r)).
Notation dedup := (deduplicateResults URL_parse).
Notation step := (dedupStep URL_parse).

Lemma dedup_seen (results : list SearchResult.t) (acc : gset string * list SearchResult.t) :
  fst (fold_left step results acc) = fst acc ∪ list_to_set (map key results).
Proof.
  revert acc. induction results as [|r rs IH]; intros acc; simpl.
  - set_solver.
  - rewrite IH. unfold dedupStep. case_decide; simpl; set_solver.
Qed.

Lemma dedup_snoc (results : list SearchResult.t) (r : SearchResult.t) :
  dedup (results ++ [r])
  = if decide (key r ∈ map key results) then dedup results else dedup results ++ [r].
Proof.
  unfold deduplicateResults. rewrite fold_left_app. simpl.
  unfold dedupStep at 1. rewrite dedup_seen. simpl.
  destruct (decide (key r ∈ map key results)) as [Hin|Hnin].
  - rewrite decide_True; [done|]. set_solver.
  - rewrite decide_False; [done|]. set_solver.
Qed.

Lemma dedup_elem (results : list SearchResult.t) (x : SearchResult.t) :
  x ∈ dedup results -> x ∈ results.
Proof.
  induction results as [|r rs IH] using rev_ind; [done|].
  rewrite dedup_snoc. case_decide; set_solver.
Qed.

Lemma dedup_NoDup (results : list SearchResult.t) :
  NoDup (map key (dedup results)).
Proof.
  induction results as [|r rs IH] using rev_ind; [constructor|].
  rewrite dedup_snoc. case_decide as Hin; [done|].
  rewrite map_app. apply NoDup_app. split; [done|]. split.
  - intros k Hk Hk'. apply list_elem_of_singleton in Hk'. subst k.
    apply Hin. apply list_elem_of_fmap in Hk as (x & -> & Hx).
    apply list_elem_of_fmap. exists x. split; [done|]. by apply dedup_elem.
  - apply NoDup_singleton.
Qed.

Lemma dedup_fixed (results : list SearchResult.t) :
  NoDup (map key results) -> dedup results = results.
Proof.
  induction results as [|r rs IH] using rev_ind; [done|].
  rewrite map_app. intros Hnd. apply NoDup_app in Hnd as (Hrs & Hr & _).
  rewrite dedup_snoc, decide_False.
  - by rewrite IH.
  - intros Hin. apply (Hr _ Hin). simpl. left.
Qed.

(** C8.  The key of a result is what [normalizeUrl] makes of its URL:
    protocol, host and path of the parsed URL, without the query string
    and the fragment (and the URL as it is written when it cannot be
    parsed).  A result is kept exactly when no earlier result of the
    batch has its key, the kept results stay in their order, no two of
    them share a key, and deduplicating the output again changes nothing. *)
Theorem deduplicateResults_first_occurrence_idempotent :
  (forall url,
     normalizeUrl URL_parse url
     = match URL_parse url with
       | Some parsed => (protocol parsed ++ "//" ++ host parsed ++ pathname parsed)%string
       | None => url
       end)
  /\ (forall u u' p p',
        URL_parse u = Some p -> URL_parse u' = Some p' ->
        protocol p = protocol p' -> host p = host p' -> pathname p = pathname p' ->
        normalizeUrl URL_parse u = normalizeUrl URL_parse u')
  /\ dedup [] = []
  /\ (forall results r,
        dedup (results ++ [r])
        = if decide (key r ∈ map key results) then dedup results
          else dedup results ++ [r])
  /\ (forall results, NoDup (map key (dedup results)))
  /\ (forall results, dedup (dedup results) = dedup results).
Proof.
  split; [done|]. split.
  { intros u u' p p' Hu Hu' Hp Hh Hpath. unfold normalizeUrl.
    rewrite Hu, Hu'. congruence. }
  split; [done|]. split; [apply dedup_snoc|]. split; [apply dedup_NoDup|].
  intros results. apply dedup_fixed, dedup_NoDup.
Qed.

End Dedup.

Definition resultAt (url : string) : SearchResult.t :=
  SearchResult.mk "Jane Doe | LinkedIn" url "" None "google" 0%Z None.

(** Three results for one profile and one for another, in one batch. *)
Example deduplicateResults_batch :
  map SearchResult.url
    (Engines.deduplicateResults Engines.simpleURL
       [ resultAt "https://www.linkedin.com/in/jane?trk=search";
         resultAt "https://www.linkedin.com/in/bob";
         resultAt "https://www.linkedin.com/in/jane#experience";
         resultAt "https://www.linkedin.com/in/jane" ])
  = [ "https://www.linkedin.com/in/jane?trk=search";
      "https://www.linkedin.com/in/bob" ].
Proof. vm_compute. reflexivity. Qed.

(** ** The answer of the AI filter *)

Section FilterResponse.

Import AI.

(** C7.  When no JSON object can be cut out of the answer, or
    [JSON.parse] throws on what was cut out, the filter returns the
    original results, all of them and in their order, and reports that
    nothing was removed; so the list it returns is empty only if the
    original list was. *)
Theorem parseResultFilterResponse_fails_open
    (JSON_parse : string -> option json) (content : string)
    (originalResults : list SearchResult.t) :
  (matchBraces content = None
   \/ exists jsonMatch,
        matchBraces content = Some jsonMatch /\ JSON_parse jsonMatch = None) ->
  filteredResults (parseResultFilterResponse JSON_parse content originalResults)
  = Some <$> originalResults
  /\ removedCount (parseResultFilterResponse JSON_parse content originalResults) = 0%Z
  /\ (originalResults <> [] ->
      filteredResults (parseResultFilterResponse JSON_parse content originalResults) <> []).
Proof.
  intros Hfail.
  assert (Hresp :
    filteredResults (parseResultFilterResponse JSON_parse content originalResults)
    = Some <$> originalResults
    /\ removedCount (parseResultFilterResponse JSON_parse content originalResults) = 0%Z).
  { unfold parseResultFilterResponse, tryParse.
    destruct Hfail as [Hnone|(jsonMatch & Hmatch & Hthrow)].
    - by rewrite Hnone.
    - by rewrite Hmatch, Hthrow. }
  destruct Hresp as [Hres Hcount]. split; [done|]. split; [done|].
  rewrite Hres. intros Hne Hnil. apply Hne.
  by apply fmap_nil_inv in Hnil.
Qed.

Lemma parseResultFilterResponse_fails_open_witness :
  filteredResults
    (parseResultFilterResponse JSONText.parse "Sorry, I cannot rank these results."
       [resultAt "https://www.linkedin.com/in/jane"; resultAt "https://www.linkedin.com/in/bob"])
  = [Some (resultAt "https://www.linkedin.com/in/jane");
     Some (resultAt "https://www.linkedin.com/in/bob")]
  /\ filteredResults
       (parseResultFilterResponse JSONText.parse "Relevant: {0, 1} (both profiles)"
          [resultAt "https://www.linkedin.com/in/jane"])
     = [Some (resultAt "https://www.linkedin.com/in/jane")].
Proof.
  split.
  - apply (parseResultFilterResponse_fails_open JSONText.parse
             "Sorry, I cannot rank these results."
             [resultAt "https://www.linkedin.com/in/jane";
              resultAt "https://www.linkedin.com/in/bob"]).
    left. reflexivity.
  - apply (parseResultFilterResponse_fails_open JSONText.parse
             "Relevant: {0, 1} (both profiles)"
             [resultAt "https://www.linkedin.com/in/jane"]).
    right. exists "{0, 1}". split; reflexivity.
Defined.

Definition quoted (s : string) : string :=
  String (ascii_of_nat 34) (s ++ String (ascii_of_nat 34) EmptyString).

(** An answer that parses but has no [relevantIndices] is not a failure
    of parsing: every result is dropped. *)
Example parseResultFilterResponse_no_indices :
  filteredResults
    (parseResultFilterResponse JSONText.parse
       ("{" ++ quoted "reasoning" ++ ": " ++ quoted "none of these fit" ++ "}")
       [resultAt "https://www.linkedin.com/in/jane"])
  = [].
Proof. vm_compute. reflexivity. Qed.

End FilterResponse.

(** ** Progress and the estimate of the remaining time *)

Section Progress.

Import Orchestrator.
Local Open Scope Z_scope.

Lemma Math_round_nearest (x : Q) :
  (inject_Z (JS.Math_round x) - (1 # 2) <= x
   /\ x < inject_Z (JS.Math_round x) + (1 # 2))%Q.
Proof.
  unfold JS.Math_round.
  pose proof (Qfloor_le (x + (1 # 2))) as Hle.
  pose proof (Qlt_floor (x + (1 # 2))) as Hlt.
  rewrite inject_Z_plus in Hlt. change (inject_Z 1) with 1%Q in Hlt.
  split; lra.
Qed.

(** C6 (as the code has it).  For a stored operation that is completed
    or failed the estimate is 0, also when no location was searched; for
    one that is pending or running it is left out when no location was
    searched and is otherwise the elapsed time divided by the searched
    locations, times the locations that remain, the quotient and the
    product being those of doubles, rounded by [Math.round] to the
    nearest integer.  [getSearchProgress] reports exactly this estimate
    for the record it reads.  (What is computed for a cancelled
    operation is not part of this statement.) *)
Theorem calculateEstimatedTime_by_status
    (operation : SearchOperation.t) (now : Date) (s : t) (operationId : string) :
  match SearchOperation.status operation with
  | completed | failed => calculateEstimatedTime operation now = Some (Double.Whole 0)
  | pending | running =>
      if SearchOperation.searchedLocations operation =? 0
      then calculateEstimatedTime operation now = None
      else calculateEstimatedTime operation now
           = Some (Double.Math_round
                     (Double.mul
                        (Double.div
                           (Double.of_Z (now - SearchOperation.startTime operation))
                           (Double.of_Z (SearchOperation.searchedLocations operation)))
                        (Double.of_Z (SearchOperation.totalLocations operation
                                      - SearchOperation.searchedLocations operation))))
  | cancelled => True
  end
  /\ (SearchProgress.estimatedTimeRemaining <$> getSearchProgress operationId now s)
     = ((fun row => calculateEstimatedTime (Database.rowToOperation row) now)
          <$> Database.search_operations (database s) !! operationId).
Proof.
  split.
  - unfold calculateEstimatedTime.
    destruct (SearchOperation.status operation) eqn:Hst; [| | | |done].
    + rewrite bool_decide_eq_false_2 by (intros [?|?]; done).
      by destruct (SearchOperation.searchedLocations operation =? 0).
    + rewrite bool_decide_eq_false_2 by (intros [?|?]; done).
      by destruct (SearchOperation.searchedLocations operation =? 0).
    + by rewrite bool_decide_eq_true_2 by (by left).
    + by rewrite bool_decide_eq_true_2 by (by right).
  - unfold getSearchProgress, Database.getSearchOperation.
    by destruct (Database.search_operations (database s) !! operationId).
Qed.

Definition emptyRun : SearchOperation.t :=
  SearchOperation.mk "op-0" "data analyst" completed 1000 (Some 1005) 0 0 0 None 1
    None emptyConfig.

(** C6 (as claimed) fails.  A run over an empty queue completes with no
    location searched; its estimate is 0, not left out. *)
Lemma estimate_of_completed_empty_run_is_zero :
  SearchOperation.searchedLocations emptyRun = 0
  /\ calculateEstimatedTime emptyRun 2000 = Some (Double.Whole 0)
  /\ calculateEstimatedTime emptyRun 2000 <> None
  /\ (SearchProgress.estimatedTimeRemaining
        <$> getSearchProgress "op-0" 2000
              (set_database
                 (Database.insertSearchOperation "op-0" emptyRun 1000 (database new)) new))
     = Some (Some (Double.Whole 0)).
Proof. vm_compute. repeat split; congruence. Qed.

(** The third of a second that the rounding drops: the estimate is the
    integer next to the quotient, not the quotient. *)
Example estimate_is_rounded :
  calculateEstimatedTime
    (SearchOperation.mk "op-1" "q" running 0 None 4 3 0 None (1 # 2) None emptyConfig)
    1000
  = Some (Double.Whole 333).
Proof. vm_compute. reflexivity. Qed.

(** The arithmetic is the one of doubles.  After 49 ms with 6 of 21
    locations searched the exact product is 122.5, which rounds to 123;
    the quotient of the doubles, times 15, is a double below 122.5, and
    the estimate is 122. *)
Example estimate_is_computed_in_doubles :
  calculateEstimatedTime
    (SearchOperation.mk "op-1" "q" running 0 None 21 6 0 None (2 # 7) None emptyConfig)
    49
  = Some (Double.Whole 122)
  /\ JS.Math_round (inject_Z 49 / inject_Z 6 * inject_Z (21 - 6))%Q = 123.
Proof. vm_compute. by split. Qed.

(** The test for a finished operation names [completed] and [failed]
    only: a cancelled operation still gets an estimate from the clock. *)
Example estimate_of_cancelled_operation :
  calculateEstimatedTime
    (SearchOperation.mk "op-2" "q" cancelled 0 (Some 1000) 5 2 7 (Some "Canada") (2 # 5)
       None emptyConfig)
    1000
  = Some (Double.Whole 1500).
Proof. vm_compute. reflexivity. Qed.

End Progress.

(** ** Cancellation *)

Section Cancel.

Import Orchestrator.

Lemma updateSearchOperation_is_Some (id j : string) (u : PartialOperation.t) (now : Date)
    (db : Database.t) :
  is_Some (Database.search_operations db !! j) ->
  is_Some (Database.search_operations (Database.updateSearchOperation id u now db) !! j).
Proof.
  unfold Database.updateSearchOperation.
  destruct (Database.updateFields u); [done|]. simpl.
  by rewrite lookup_alter_is_Some.
Qed.

Lemma updateSearchOperation_status (id : string) (st : Status) (e : option Date)
    (sl tr : option Z) (cl : option string) (p : option Q) (er : option string)
    (now : Date) (db : Database.t) (row : OperationRow.t) :
  Database.search_operations db !! id = Some row ->
  exists row',
    Database.search_operations
      (Database.updateSearchOperation id (updates (Some st) e sl tr cl p er) now db) !! id
    = Some row'
    /\ OperationRow.status row' = st
    /\ OperationRow.end_time row' = from_option Some (OperationRow.end_time row) e
    /\ OperationRow.progress row' = default (OperationRow.progress row) p.
Proof.
  intros Hrow. unfold Database.updateSearchOperation, updates, Database.updateFields.
  simpl. rewrite lookup_alter_eq, Hrow. simpl.
  destruct row. destruct e, sl, tr, cl, p, er; simpl; eexists; repeat split.
Qed.

(** The two counters of a record under an update: the total is never
    written, the searched locations take the supplied value. *)
Lemma updateSearchOperation_counters (id : string) (u : PartialOperation.t) (now : Date)
    (db : Database.t) (row : OperationRow.t) :
  Database.search_operations db !! id = Some row ->
  exists row',
    Database.search_operations (Database.updateSearchOperation id u now db) !! id
    = Some row'
    /\ OperationRow.total_locations row' = OperationRow.total_locations row
    /\ OperationRow.searched_locations row'
       = default (OperationRow.searched_locations row)
                 (PartialOperation.searchedLocations u).
Proof.
  intros Hrow. unfold Database.updateSearchOperation.
  destruct u as [? ? st ? e ? sl tr cl p er ?]; unfold Database.updateFields; simpl.
  destruct row.
  destruct st, e, sl, tr, cl, p, er; simpl;
    rewrite ?lookup_alter_eq, Hrow; simpl; eexists; by repeat split.
Qed.

Definition notCancelOf (operationId : string) (e : External) : Prop :=
  match e with
  | CancelSearch id _ _ => id <> operationId
  | TimersFire _ => True
  end.

(** No call from outside puts an operation into the active map. *)
Lemma external_absent (operationId : string) (e : External) (s : t) :
  activeOperations s !! operationId = None ->
  activeOperations (external s e) !! operationId = None.
Proof.
  intros Hnone. destruct e as [id now ok|now]; simpl; [|done].
  unfold cancelSearch. destruct (activeOperations s !! id) as [r|]; [|done].
  destruct ok; simpl; [|done].
  assert (delete id (activeOperations s) !! operationId = None) as Hdel.
  { destruct (decide (id = operationId)) as [->|Hne];
      [apply lookup_delete_eq|by rewrite lookup_delete_ne]. }
  by destruct (operationTimers s !! id).
Qed.

Lemma externals_absent (operationId : string) (es : list External) (s : t) :
  activeOperations s !! operationId = None ->
  activeOperations (fold_left external es s) !! operationId = None.
Proof.
  revert s. induction es as [|e es IH]; intros s Hnone; [done|].
  simpl. apply IH. by apply external_absent.
Qed.

(** C2 (the part of the claim that holds).  [cancelSearch] answers
    false and changes nothing when the id is not in the map of active
    operations.  When it is, the answer is true: the operation object
    has status cancelled and the time of the call as its end time, an
    update with both is issued to the store under the id of the
    operation, and the id has left the map.  From then on the
    membership test at the head of an iteration fails: the loop over the
    locations, wherever it is resumed, returns without touching a
    location. *)
Theorem cancelSearch_result (s : t) (operationId : string) (now : Date) :
  (activeOperations s !! operationId = None ->
   forall writeOk, cancelSearch operationId now writeOk s = (Some false, s))
  /\ (forall operation o,
        activeOperations s !! operationId = Some operation ->
        heap s !! operation = Some o ->
        exists s',
          cancelSearch operationId now true s = (Some true, s')
          /\ heap s' !! operation
             = Some (SearchOperation.set_endTime (Some now)
                       (SearchOperation.set_status cancelled o))
          /\ database s'
             = Database.updateSearchOperation operationId
                 (updates (Some cancelled) (Some now) None None None None None) now
                 (database s)
          /\ activeOperations s' = delete operationId (activeOperations s)
          /\ activeOperations s' !! operationId = None
          /\ (forall total i location e consecutiveFailures,
                iteration operationId operation total i location e consecutiveFailures s'
                = (s', Return))
          /\ (forall total i location rest slots consecutiveFailures,
                locationLoop operationId operation total i (location :: rest) slots
                  consecutiveFailures s'
                = (fold_left external (before (slots i)) s', Return))).
Proof.
  split.
  - intros Hnone writeOk. unfold cancelSearch. by rewrite Hnone.
  - intros operation o Hact Hobj. unfold cancelSearch. rewrite Hact. simpl.
    assert (Hgone : forall m : gmap string nat, delete operationId m !! operationId = None)
      by (intros; apply lookup_delete_eq).
    destruct (operationTimers s !! operationId) eqn:Htimer.
    all: eexists; split; [reflexivity|]; simpl.
    all: split; [by rewrite lookup_alter_eq, Hobj|].
    all: split; [reflexivity|].
    all: split; [reflexivity|].
    all: split; [apply Hgone|].
    all: split;
      [intros; unfold iteration; simpl; by rewrite Hgone
      |intros; simpl; unfold iteration;
       rewrite externals_absent by (simpl; apply Hgone); done].
Qed.

End Cancel.

(** ** The loop over the locations *)

Section Run.

Import Orchestrator.

(** The task of one operation: its id, the reference it holds, its
    queue, and the state it starts from. *)
Variables (operationId : string) (operation : nat) (all : list Location.t) (s0 : t).

(** No other id of the active map leads to the object of the task. *)
Definition unshared (s : t) : Prop :=
  forall id', activeOperations s !! id' = Some operation -> id' = operationId.

(** The object is there, with the length of the queue as its total and
    with at most [bound] locations counted as searched. *)
Definition counted (bound : Z) (s : t) : Prop :=
  exists o,
    heap s !! operation = Some o
    /\ SearchOperation.totalLocations o = Z.of_nat (length all)
    /\ (0 <= SearchOperation.searchedLocations o <= bound)%Z.

(** The statistics of every location that is not among the first
    [visited] of the queue are as they were at the start. *)
Definition untouched (visited : nat) (s : t) : Prop :=
  forall idx row,
    Database.locations (database s0) !! idx = Some row ->
    LocationRow.id row ∉ map Location.id (take visited all) ->
    Database.locations (database s) !! idx = Some row.

Definition stored (s : t) : Prop :=
  is_Some (Database.search_operations (database s0) !! operationId) ->
  is_Some (Database.search_operations (database s) !! operationId).

Definition kept (bound : Z) (visited : nat) (s : t) : Prop :=
  unshared s /\ counted bound s /\ untouched visited s /\ stored s.

Definition active (s : t) : Prop :=
  activeOperations s !! operationId = Some operation.

(** If a record was filed under the id of the operation at the start,
    with the length of the queue as its total and no location searched,
    then the store still has it, with the same total and with at most
    [bound] locations searched. *)
Definition filed (bound : Z) (db : Database.t) : Prop :=
  forall row0,
    Database.search_operations (database s0) !! operationId = Some row0 ->
    OperationRow.total_locations row0 = Z.of_nat (length all) ->
    OperationRow.searched_locations row0 = 0%Z ->
    exists row,
      Database.search_operations db !! operationId = Some row
      /\ OperationRow.total_locations row = Z.of_nat (length all)
      /\ (0 <= OperationRow.searched_locations row <= bound)%Z.

Lemma filed_update (bound bound' : Z) (id : string) (u : PartialOperation.t)
    (now : Date) (db : Database.t) :
  (bound <= bound')%Z ->
  (forall v, PartialOperation.searchedLocations u = Some v -> (0 <= v <= bound')%Z) ->
  filed bound db -> filed bound' (Database.updateSearchOperation id u now db).
Proof.
  intros Hb Hv Hf row0 H0 Ht Hs.
  destruct (Hf row0 H0 Ht Hs) as (row & Hrow & Htot & Hsr).
  destruct (decide (id = operationId)) as [->|Hne].
  - destruct (updateSearchOperation_counters operationId u now db row Hrow)
      as (row' & Hrow' & Htl & Hsl).
    exists row'. split; [done|]. rewrite Htl, Hsl. split; [done|].
    destruct (PartialOperation.searchedLocations u) as [v|]; simpl; [by apply Hv|lia].
  - exists row. rewrite updateSearchOperation_other by done.
    split; [done|]. split; [done|]. lia.
Qed.

Lemma filed_same_operations (bound : Z) (db db' : Database.t) :
  Database.search_operations db' = Database.search_operations db ->
  filed bound db -> filed bound db'.
Proof.
  intros Heq Hf row0 H0 Ht Hs. rewrite Heq. exact (Hf row0 H0 Ht Hs).
Qed.

Lemma filed_external (bound : Z) (e : External) (s : t) :
  filed bound (database s) -> filed bound (database (external s e)).
Proof.
  intros Hf. destruct e as [id now ok|now]; simpl; [|exact Hf].
  unfold cancelSearch. destruct (activeOperations s !! id) as [r|]; [|exact Hf].
  destruct ok; simpl; [|exact Hf].
  assert (filed bound
            (Database.updateSearchOperation id
               (updates (Some cancelled) (Some now) None None None None None) now
               (database s))) as Hf'.
  { apply (filed_update bound); [lia| |done]. intros v Hv. discriminate Hv. }
  by destruct (operationTimers s !! id).
Qed.

Lemma filed_externals (bound : Z) (es : list External) (s : t) :
  filed bound (database s) -> filed bound (database (fold_left external es s)).
Proof.
  revert s. induction es as [|e es IH]; intros s Hf; [done|].
  simpl. apply IH. by apply filed_external.
Qed.

Lemma kept_weaken (bound bound' : Z) (visited visited' : nat) (s : t) :
  (bound <= bound')%Z -> (visited <= visited')%nat ->
  kept bound visited s -> kept bound' visited' s.
Proof.
  intros Hb Hv (Hu & (o & Ho & Ht & Hs) & Hrows & Hst).
  split; [done|]. split; [exists o; repeat split; [done|done|lia|lia]|].
  split; [|done]. intros idx row Hrow Hnot. apply Hrows; [done|].
  intros Hin. apply Hnot.
  rewrite <- (take_drop visited (take visited' all)), take_take, Nat.min_l by lia.
  rewrite map_app. apply elem_of_app. by left.
Qed.

(** Assignments that leave the two counters of the object alone. *)
Definition keepsCounters (f : SearchOperation.t -> SearchOperation.t) : Prop :=
  forall o,
    SearchOperation.totalLocations (f o) = SearchOperation.totalLocations o
    /\ SearchOperation.searchedLocations (f o) = SearchOperation.searchedLocations o.

Lemma kept_mutate (bound : Z) (visited : nat) (r : nat)
    (f : SearchOperation.t -> SearchOperation.t) (s : t) :
  (r = operation -> keepsCounters f) ->
  kept bound visited s -> kept bound visited (mutate r f s).
Proof.
  intros Hf (Hu & (o & Ho & Ht & Hs) & Hrows & Hst).
  split; [done|]. split; [|by split].
  destruct (decide (r = operation)) as [->|Hne].
  - exists (f o). simpl. rewrite lookup_alter_eq, Ho. simpl.
    destruct (Hf eq_refl o) as [-> ->]. split; [done|]. by split.
  - exists o. simpl. rewrite lookup_alter_ne by done. split; [done|]. by split.
Qed.

Lemma kept_write (bound : Z) (visited : nat) (id : string) (u : PartialOperation.t)
    (now : Date) (s : t) :
  kept bound visited s -> kept bound visited (write id u now s).
Proof.
  intros (Hu & Hc & Hrows & Hst).
  split; [done|]. split; [done|]. split.
  - intros idx row Hrow Hnot. simpl.
    rewrite updateSearchOperation_locations. by apply Hrows.
  - intros H0. simpl. apply updateSearchOperation_is_Some. by apply Hst.
Qed.

Lemma visited_id (i : nat) (location : Location.t) :
  all !! i = Some location ->
  Location.id location ∈ map Location.id (take (S i) all).
Proof.
  intros Hi. rewrite (take_S_r _ _ _ Hi), map_app.
  apply elem_of_app. right. simpl. left.
Qed.

Lemma visited_mono (v v' : nat) (id : string) :
  (v <= v')%nat ->
  id ∈ map Location.id (take v all) -> id ∈ map Location.id (take v' all).
Proof.
  intros Hv Hin.
  rewrite <- (take_drop v (take v' all)), take_take, Nat.min_l by lia.
  rewrite map_app. apply elem_of_app. by left.
Qed.

(** The statistics of a visited location are written: a location
    further down the queue keeps its own. *)
Lemma kept_updateLocationSuccess (bound : Z) (v v' : nat) (location : Location.t)
    (success : bool) (now : Date) (s : t) :
  (v <= v')%nat ->
  Location.id location ∈ map Location.id (take v' all) ->
  kept bound v s ->
  kept bound v'
    (set_locationManager
       (fst (LocationManager.updateLocationSuccess (Location.id location) success now
               (locationManager s, database s)))
       (set_database
          (snd (LocationManager.updateLocationSuccess (Location.id location) success now
                  (locationManager s, database s))) s)).
Proof.
  intros Hv Hloc (Hu & Hc & Hrows & Hst).
  split; [done|]. split; [done|]. split; [|done].
  intros idx row Hrow Hnot.
  cbn [database set_locationManager set_database].
  change (snd (LocationManager.updateLocationSuccess ?i ?b ?n (?lm, ?db)))
    with (Database.updateLocationStats i b n db).
  erewrite updateLocationStats_lookup.
  2: { apply Hrows; [done|]. intros Hin. apply Hnot. by eapply visited_mono. }
  rewrite decide_False; [done|].
  intros Heq. apply Hnot. by rewrite Heq.
Qed.

Lemma active_mutate (r : nat) (f : SearchOperation.t -> SearchOperation.t) (s : t) :
  active s -> active (mutate r f s).
Proof. done. Qed.

Lemma active_write (id : string) (u : PartialOperation.t) (now : Date) (s : t) :
  active s -> active (write id u now s).
Proof. done. Qed.

(** A call from outside leaves the counters of the task, the
    statistics and the record as they are; the task stays in the active
    map unless the call cancels it. *)
Lemma kept_external (bound : Z) (visited : nat) (e : External) (s : t) :
  kept bound visited s -> kept bound visited (external s e).
Proof.
  intros Hk. destruct e as [id now ok|now]; simpl; [|exact Hk].
  unfold cancelSearch. destruct (activeOperations s !! id) as [r|] eqn:Hr; [|exact Hk].
  assert (Hm : kept bound visited
                 (mutate r (fun o => SearchOperation.set_endTime (Some now)
                                       (SearchOperation.set_status cancelled o)) s)).
  { apply kept_mutate; [|done]. by intros _ o. }
  destruct ok; simpl; [|exact Hm].
  apply (kept_write _ _ id (updates (Some cancelled) (Some now) None None None None None) now)
    in Hm.
  destruct Hm as (Hu & Hc & Hrows & Hst).
  assert (Hu' : forall id', delete id (activeOperations s) !! id' = Some operation ->
                            id' = operationId).
  { intros id' Hid'. apply Hu. simpl.
    apply lookup_delete_Some in Hid' as [_ Hid']. exact Hid'. }
  by destruct (operationTimers s !! id).
Qed.

Lemma active_external (e : External) (s : t) :
  notCancelOf operationId e -> active s -> active (external s e).
Proof.
  intros Hne Hact. destruct e as [id now ok|now]; simpl; [|exact Hact].
  simpl in Hne. unfold cancelSearch.
  destruct (activeOperations s !! id) as [r|]; [|exact Hact].
  destruct ok; simpl; [|exact Hact].
  assert (delete id (activeOperations s) !! operationId = Some operation) as Hdel
    by (by rewrite lookup_delete_ne).
  by destruct (operationTimers s !! id).
Qed.

Lemma kept_externals (bound : Z) (visited : nat) (es : list External) (s : t) :
  kept bound visited s -> kept bound visited (fold_left external es s).
Proof.
  revert s. induction es as [|e es IH]; intros s Hk; [done|].
  simpl. apply IH. by apply kept_external.
Qed.

Lemma active_externals (es : list External) (s : t) :
  Forall (notCancelOf operationId) es -> active s -> active (fold_left external es s).
Proof.
  intros Hes. revert s. induction Hes as [|e es He _ IH]; intros s Hact; [done|].
  simpl. apply IH. by apply active_external.
Qed.

(** The counters are advanced for the location at index [i]. *)
Lemma kept_countLocation (i : nat) (location : Location.t) (found : nat) (e : Slot)
    (s : t) :
  all !! i = Some location ->
  kept (Z.of_nat i) i s ->
  kept (Z.of_nat (i + 1)) (S i) (countLocation operation i location found e s).
Proof.
  intros Hi Hk. unfold countLocation.
  pose proof (kept_updateLocationSuccess _ i (S i) location (0 <? found)%nat (now e) s
                (Nat.le_succ_diag_r i) (visited_id i location Hi) Hk)
    as (Hu & (o & Ho & Ht & Hs) & Hrows & Hst).
  destruct (LocationManager.updateLocationSuccess _ _ _ _) as [lm db].
  split; [done|]. split; [|by split].
  eexists. simpl in *. rewrite lookup_alter_eq, Ho. simpl.
  split; [reflexivity|]. simpl. split; [done|]. lia.
Qed.

Lemma active_countLocation (i : nat) (location : Location.t) (found : nat) (e : Slot)
    (s : t) :
  active s -> active (countLocation operation i location found e s).
Proof.
  intros Hact. unfold countLocation.
  by destruct (LocationManager.updateLocationSuccess _ _ _ _).
Qed.

(** The [catch] block, when its call of the location manager succeeds. *)
Lemma catchLocation_kept (bound : Z) (v i : nat) (location : Location.t) (e : Slot)
    (consecutiveFailures : nat) (s : t) :
  all !! i = Some location -> (v <= S i)%nat ->
  handlerOk e = true ->
  kept bound v s -> active s ->
  exists s',
    catchLocation location e consecutiveFailures s
    = (s', if (3 <=? S consecutiveFailures)%nat then Break
           else Continue (S consecutiveFailures))
    /\ kept bound (S i) s' /\ active s'.
Proof.
  intros Hi Hv Hok Hk Hact. unfold catchLocation. rewrite Hok.
  pose proof (kept_updateLocationSuccess _ v (S i) location false (now e) s
                Hv (visited_id i location Hi) Hk) as Hk'.
  destruct (LocationManager.updateLocationSuccess _ _ _ _) as [lm db].
  simpl in Hk'. unfold maxConsecutiveFailures.
  eexists. split; [by destruct (3 <=? S consecutiveFailures)%nat|].
  split; [|done].
  destruct Hk' as (Hu & Hc & Hrows & Hst). by repeat split.
Qed.

(** One iteration in which the writes of the progress and of the
    [catch] block succeed. *)
Lemma iteration_kept (i : nat) (location : Location.t) (e : Slot)
    (consecutiveFailures : nat) (s : t) :
  all !! i = Some location ->
  progressWrite e = true -> handlerOk e = true ->
  kept (Z.of_nat i) i s -> active s ->
  exists s',
    iteration operationId operation (length all) i location e consecutiveFailures s
    = (s', match attempt e with
           | Searched _ => Continue 0
           | _ => if (3 <=? S consecutiveFailures)%nat then Break
                  else Continue (S consecutiveFailures)
           end)
    /\ kept (Z.of_nat (i + 1)) (S i) s'
    /\ (attempt e = ThrewBeforeCount -> kept (Z.of_nat i) (S i) s')
    /\ active s'.
Proof.
  intros Hi Hpw Hok Hk Hact. unfold iteration.
  rewrite Hact, Hpw.
  set (s1 := mutate operation _ s).
  assert (Hk1 : kept (Z.of_nat i) i s1).
  { apply kept_mutate; [|done]. by intros _ o. }
  set (s2 := write operationId _ (now e) s1).
  assert (Hk2 : kept (Z.of_nat i) i s2) by by apply kept_write.
  assert (Hact2 : active s2) by done.
  clearbody s2. clear s1 Hk1.
  destruct (attempt e) as [found| |found].
  - eexists. split; [reflexivity|].
    pose proof (kept_countLocation i location found e s2 Hi Hk2) as Hk3.
    pose proof (active_countLocation i location found e s2 Hact2) as Hact3.
    split; [by apply kept_write|]. split; [done|]. done.
  - destruct (catchLocation_kept _ i i location e consecutiveFailures s2 Hi
                (Nat.le_succ_diag_r i) Hok Hk2 Hact2)
      as (s' & Heq & Hk' & Hact').
    exists s'. split; [done|]. split; [|by split].
    eapply kept_weaken; [| |exact Hk']; lia.
  - pose proof (kept_countLocation i location found e s2 Hi Hk2) as Hk3.
    pose proof (active_countLocation i location found e s2 Hact2) as Hact3.
    destruct (catchLocation_kept _ (S i) i location e consecutiveFailures _ Hi
                (Nat.le_refl (S i)) Hok Hk3 Hact3)
      as (s' & Heq & Hk' & Hact').
    exists s'. split; [done|]. split; [done|]. by split.
Qed.

Lemma countLocation_operations (i : nat) (location : Location.t) (found : nat) (e : Slot)
    (s : t) :
  Database.search_operations (database (countLocation operation i location found e s))
  = Database.search_operations (database s).
Proof. reflexivity. Qed.

Lemma catchLocation_operations (location : Location.t) (e : Slot)
    (consecutiveFailures : nat) (s : t) :
  Database.search_operations
    (database (fst (catchLocation location e consecutiveFailures s)))
  = Database.search_operations (database s).
Proof.
  unfold catchLocation. destruct (handlerOk e); [|done].
  by destruct (maxConsecutiveFailures <=? S consecutiveFailures)%nat.
Qed.

(** The record in the store through one iteration: its searched
    locations are written at the end of an attempt that ran through, and
    by nothing else. *)
Lemma iteration_filed (i : nat) (location : Location.t) (e : Slot)
    (consecutiveFailures : nat) (s : t) :
  all !! i = Some location ->
  progressWrite e = true ->
  kept (Z.of_nat i) i s -> active s ->
  filed (Z.of_nat i) (database s) ->
  filed (match attempt e with
         | Searched _ => Z.of_nat (i + 1)
         | _ => Z.of_nat i
         end)
        (database (fst (iteration operationId operation (length all) i location e
                          consecutiveFailures s))).
Proof.
  intros Hi Hpw Hk Hact Hf. unfold iteration. rewrite Hact, Hpw.
  set (s1 := mutate operation _ s).
  assert (Hk1 : kept (Z.of_nat i) i s1).
  { apply kept_mutate; [|done]. by intros _ o. }
  set (s2 := write operationId _ (now e) s1).
  assert (Hk2 : kept (Z.of_nat i) i s2) by by apply kept_write.
  assert (Hf2 : filed (Z.of_nat i) (database s2)).
  { subst s2. apply (filed_update (Z.of_nat i)); [lia| |done].
    intros v Hv. discriminate Hv. }
  clearbody s2. clear s1 Hk1.
  destruct (attempt e) as [found| |found].
  - pose proof (kept_countLocation i location found e s2 Hi Hk2)
      as (_ & (o & Ho & _ & Hs) & _).
    cbn [fst]. apply (filed_update (Z.of_nat i)); [lia| |].
    + intros v Hv. cbn [updates PartialOperation.searchedLocations] in Hv.
      rewrite Ho in Hv. injection Hv as <-. exact Hs.
    + eapply filed_same_operations; [apply countLocation_operations|done].
  - eapply filed_same_operations; [apply catchLocation_operations|done].
  - eapply filed_same_operations; [apply catchLocation_operations|].
    eapply filed_same_operations; [apply countLocation_operations|done].
Qed.

Lemma filed_weaken (bound bound' : Z) (db : Database.t) :
  (bound <= bound')%Z -> filed bound db -> filed bound' db.
Proof.
  intros Hb Hf row0 H0 Ht Hs.
  destruct (Hf row0 H0 Ht Hs) as (row & Hrow & Htot & Hsr).
  exists row. split; [done|]. split; [done|]. lia.
Qed.

(** What the script is asked for up to the third failure in a row: the
    writes of the progress and of the [catch] block succeed and nobody
    cancels the operation (so no exception leaves the loop and the loop
    is not left by the membership test), and the attempts at the indices
    [k], [k + 1] and [k + 2] end with an exception. *)
Variables (script : Script) (k : nat).

Definition quiet : Prop :=
  forall j, (j <= k + 2)%nat ->
    progressWrite (slots script j) = true
    /\ handlerOk (slots script j) = true
    /\ Forall (notCancelOf operationId) (before (slots script j)).

Definition failing : Prop :=
  forall j, (k <= j <= k + 2)%nat ->
    forall found, attempt (slots script j) <> Searched found.

Lemma locationLoop_breaks (rest : list Location.t) :
  quiet -> failing ->
  (k + 2 < length all)%nat ->
  forall i consecutiveFailures s,
    drop i all = rest ->
    (i <= k + 2)%nat ->
    (i - k <= consecutiveFailures)%nat -> (consecutiveFailures <= 2)%nat ->
    kept (Z.of_nat i) i s -> active s -> filed (Z.of_nat i) (database s) ->
    exists s' b,
      locationLoop operationId operation (length all) i rest (slots script)
        consecutiveFailures s = (s', Break)
      /\ (b <= k + 2)%nat
      /\ kept (Z.of_nat (b + 1)) (S b) s'
      /\ (attempt (slots script b) = ThrewBeforeCount -> kept (Z.of_nat b) (S b) s')
      /\ active s'
      /\ filed (Z.of_nat b) (database s').
Proof.
  intros Hquiet Hfail Hlong.
  induction rest as [|location rest IH]; intros i cf s Hdrop Hi Hcf Hcf2 Hk Hact Hf.
  - exfalso. apply (f_equal length) in Hdrop. rewrite length_drop in Hdrop.
    simpl in Hdrop. lia.
  - assert (Hloc : all !! i = Some location).
    { rewrite <- (Nat.add_0_r i), <- lookup_drop, Hdrop. done. }
    assert (Hrest : drop (S i) all = rest).
    { rewrite (drop_S _ _ _ Hloc) in Hdrop. by injection Hdrop. }
    destruct (Hquiet i Hi) as (Hpw & Hok & Hbefore).
    simpl locationLoop.
    set (s1 := fold_left external (before (slots script i)) s).
    assert (Hk1 : kept (Z.of_nat i) i s1) by by apply kept_externals.
    assert (Hact1 : active s1) by by apply active_externals.
    assert (Hf1 : filed (Z.of_nat i) (database s1)) by by apply filed_externals.
    pose proof (iteration_filed i location (slots script i) cf s1 Hloc Hpw Hk1 Hact1 Hf1)
      as Hf'.
    destruct (iteration_kept i location (slots script i) cf s1 Hloc Hpw Hok Hk1 Hact1)
      as (s' & Heq & Hk' & Hkb & Hact').
    rewrite Heq in Hf'. rewrite Heq. clear Heq. cbn [fst] in Hf'.
    destruct (attempt (slots script i)) as [found| |found] eqn:Hat.
    + assert (i < k)%nat as Hik.
      { destruct (Nat.lt_ge_cases i k) as [H|H]; [done|].
        exfalso. apply (Hfail i (conj H Hi) found Hat). }
      rewrite Nat.add_1_r in Hk', Hf'.
      apply IH; try done; lia.
    + destruct (3 <=? S cf)%nat eqn:Hthree.
      * exists s', i. rewrite Hat. repeat (split; [done|]). done.
      * apply Nat.leb_gt in Hthree. rewrite Nat.add_1_r in Hk'.
        apply IH; try done; try lia.
        eapply filed_weaken; [|exact Hf']. lia.
    + destruct (3 <=? S cf)%nat eqn:Hthree.
      * exists s', i. rewrite Hat. repeat (split; [done|]). done.
      * apply Nat.leb_gt in Hthree. rewrite Nat.add_1_r in Hk'.
        apply IH; try done; try lia.
        eapply filed_weaken; [|exact Hf']. lia.
Qed.

(** Three failures in a row end the run, which completes.  In a run of
    [processGlobalSearch] in which the attempts at three locations in a
    row end with an exception, the loop is left at the third one at the
    latest: no location behind it has its statistics written.  The run
    finishes with the status completed, in the object and in the record
    written to the store, not with failed, and the operation has left
    the active map.  In the record of the store the searched locations
    are fewer than the total.  In the operation object they are at most
    the total, and fewer than the total unless the third failure is the
    last location of the queue and its exception came from the write of
    the counters, after the counters were advanced.  An attempt that
    runs to its end sets the count of consecutive failures to zero. *)
Theorem three_failures_end_the_run_completed (o0 : SearchOperation.t) :
  quiet -> failing ->
  (k + 2 < length all)%nat ->
  startWrite script = true -> finalWrite script = true ->
  activeOperations s0 !! operationId = Some operation ->
  (forall id', activeOperations s0 !! id' = Some operation -> id' = operationId) ->
  heap s0 !! operation = Some o0 ->
  SearchOperation.totalLocations o0 = Z.of_nat (length all) ->
  SearchOperation.searchedLocations o0 = 0%Z ->
  (exists s' o',
     processGlobalSearch operationId all script s0 = (s', Finished)
     /\ heap s' !! operation = Some o'
     /\ SearchOperation.status o' = completed
     /\ SearchOperation.status o' <> failed
     /\ SearchOperation.totalLocations o' = Z.of_nat (length all)
     /\ (SearchOperation.searchedLocations o' <= SearchOperation.totalLocations o')%Z
     /\ (attempt (slots script (k + 2)) = ThrewBeforeCount \/ (k + 3 < length all)%nat ->
         (SearchOperation.searchedLocations o' < SearchOperation.totalLocations o')%Z)
     /\ activeOperations s' !! operationId = None
     /\ (forall row,
           Database.search_operations (database s0) !! operationId = Some row ->
           exists row',
             Database.search_operations (database s') !! operationId = Some row'
             /\ OperationRow.status row' = completed
             /\ (OperationRow.total_locations row = Z.of_nat (length all) ->
                 OperationRow.searched_locations row = 0%Z ->
                 (OperationRow.searched_locations row'
                  < OperationRow.total_locations row')%Z))
     /\ (forall idx row,
           Database.locations (database s0) !! idx = Some row ->
           LocationRow.id row ∉ map Location.id (take (k + 3) all) ->
           Database.locations (database s') !! idx = Some row))
  /\ (forall s i location e consecutiveFailures found,
        is_Some (activeOperations s !! operationId) ->
        progressWrite e = true -> attempt e = Searched found ->
        snd (iteration operationId operation (length all) i location e
               consecutiveFailures s) = Continue 0).
Proof.
  intros Hquiet Hfail Hlong Hstart Hfinal Hact0 Hun0 Hobj0 Htot0 Hsearched0.
  split.
  2: { intros s i location e cf found [r Hr] Hpw Hat. unfold iteration.
       by rewrite Hr, Hpw, Hat. }
  unfold processGlobalSearch. rewrite Hact0, Hstart.
  set (s1 := write operationId _ (startNow script) _).
  assert (Hk1 : kept (Z.of_nat 0) 0 s1).
  { apply kept_write, kept_mutate; [by intros _ o|].
    split; [exact Hun0|]. split.
    - exists o0. repeat split; [done|done|lia|lia].
    - split; [by intros idx row Hrow _|by intros H]. }
  assert (Hact1 : active s1) by exact Hact0.
  assert (Hf1 : filed (Z.of_nat 0) (database s1)).
  { apply (filed_update (Z.of_nat 0)); [lia|intros v Hv; discriminate Hv|].
    intros row0 Hrow0 Ht0 Hs0. exists row0. split; [done|]. split; [done|]. simpl. lia. }
  destruct (locationLoop_breaks all Hquiet Hfail Hlong 0 0 s1 eq_refl
              ltac:(lia) ltac:(lia) ltac:(lia) Hk1 Hact1 Hf1)
    as (s2 & b & Hloop & Hb & Hk2 & Hk2b & Hact2 & Hf2).
  rewrite Hloop, Hfinal. clear Hloop.
  set (s3 := fold_left external (lastly script) s2).
  assert (Hk3 : kept (Z.of_nat (b + 1)) (S b) s3) by by apply kept_externals.
  assert (Hk3b : attempt (slots script b) = ThrewBeforeCount -> kept (Z.of_nat b) (S b) s3)
    by (intros H; by apply kept_externals, Hk2b).
  assert (Hf3 : filed (Z.of_nat b) (database s3)) by by apply filed_externals.
  clearbody s3. clear s1 Hk1 Hact1 Hf1 s2 Hk2 Hk2b Hact2 Hf2.
  destruct Hk3 as (Hun & (o & Ho & Htot & Hsearched) & Hrows & Hstored).
  eexists. eexists. split; [reflexivity|]. simpl.
  rewrite lookup_alter_eq, Ho. simpl.
  split; [reflexivity|]. simpl.
  split; [reflexivity|]. split; [discriminate|]. split; [exact Htot|].
  split; [lia|]. split.
  { intros Hstrict. destruct (decide (b = k + 2)%nat) as [->|Hne]; [|lia].
    destruct Hstrict as [Hat|Hmore]; [|lia].
    destruct (Hk3b Hat) as (_ & (o' & Ho' & _ & Hsearched') & _).
    rewrite Ho in Ho'. injection Ho' as <-. lia. }
  split; [apply lookup_delete_eq|]. split.
  { intros row Hrow.
    destruct (Hstored (mk_is_Some _ _ Hrow)) as [row3 Hrow3].
    destruct (updateSearchOperation_status operationId completed
                (Some (finalNow script)) None None None (Some 1%Q) None (finalNow script)
                (database s3) row3 Hrow3) as (row' & Hrow' & Hst & _).
    exists row'. split; [done|]. split; [done|]. intros Ht Hs.
    destruct (Hf3 row Hrow Ht Hs) as (row3' & Hrow3' & Htot3 & Hs3).
    rewrite Hrow3 in Hrow3'. injection Hrow3' as <-.
    destruct (updateSearchOperation_counters operationId
                (updates (Some completed) (Some (finalNow script)) None None None
                   (Some 1%Q) None)
                (finalNow script) (database s3) row3 Hrow3)
      as (row'' & Hrow'' & Htl & Hsl).
    rewrite Hrow' in Hrow''. injection Hrow'' as <-.
    rewrite Htl, Hsl. simpl. lia. }
  intros idx row Hrow Hnot. rewrite ?updateSearchOperation_locations.
  apply Hrows; [done|]. intros Hin. apply Hnot.
  eapply visited_mono; [|exact Hin]. lia.
Qed.

End Run.

(** ** Runs of the orchestrator on a small catalogue *)

Section Runs.

Import Orchestrator.
Local Open Scope Z_scope.

Definition catalogueRow (id name : string) (priority : Z) : LocationRow.t :=
  LocationRow.mk id name name id None None id priority true None 0%Q 0%nat 0%nat 0 0.

Definition catalogue : Database.t :=
  Database.mk
    [ catalogueRow "US" "United States" 10; catalogueRow "GB" "United Kingdom" 9;
      catalogueRow "AU" "Australia" 8; catalogueRow "FR" "France" 7 ]
    ∅.

(** The state after [globalSearchProfiles] on a new orchestrator: the
    operation is drawn the id [op-1], its record the id [row-1]. *)
Definition submitted (maxLocations : Z) : list Location.t * t :=
  globalSearchProfiles "op-1" "row-1" "data analyst"
    {| maxLocations := Some maxLocations; delayBetweenSearches := None;
       enableQueryExpansion := Some false; enableResultFiltering := Some false;
       enableContactEnrichment := Some false; aiProvider := None;
       relevanceThreshold := None |}
    (fun _ => EmptyString) 1000 (set_database catalogue new).

(** A script in which every write succeeds and nobody interferes; the
    attempts are given one by one, and any further one finds nothing. *)
Definition scriptOf (attempts : list Attempt) : Script :=
  mkScript true 1001
    (fun j => mkSlot [] (2000 + Z.of_nat j) true (nth j attempts (Searched 0)) true)
    [] true 9000 "unused" true.

Definition runOf (maxLocations : Z) (attempts : list Attempt) : t * Outcome :=
  processGlobalSearch "op-1" (fst (submitted maxLocations)) (scriptOf attempts)
    (snd (submitted maxLocations)).

(** [globalSearchProfiles] hands the task what the run theorem asks of
    its start: the object is in the map under the id of the operation
    and under no other id, its total is the length of the queue, and no
    location is counted yet. *)
Lemma globalSearchProfiles_starts (operationId storeId query : string)
    (config : SearchOperationConfig) (uuids : nat -> string) (now : Date) (s : t) :
  (forall id r, activeOperations s !! id = Some r -> is_Some (heap s !! r)) ->
  let locations := fst (globalSearchProfiles operationId storeId query config uuids now s) in
  let s' := snd (globalSearchProfiles operationId storeId query config uuids now s) in
  let operation := fresh (dom (heap s)) in
  activeOperations s' !! operationId = Some operation
  /\ (forall id', activeOperations s' !! id' = Some operation -> id' = operationId)
  /\ exists o,
       heap s' !! operation = Some o
       /\ SearchOperation.status o = pending
       /\ SearchOperation.totalLocations o = Z.of_nat (length locations)
       /\ SearchOperation.searchedLocations o = 0.
Proof.
  intros Hwf. unfold globalSearchProfiles.
  destruct (LocationManager.getLocations _ _ _ _) as [locations [lm db]].
  simpl. split; [apply lookup_insert_eq|]. split.
  - intros id' Hid'. destruct (decide (id' = operationId)) as [|Hne]; [done|].
    rewrite lookup_insert_ne in Hid' by done.
    apply Hwf in Hid'. apply elem_of_dom in Hid'.
    by apply is_fresh in Hid'.
  - eexists. split; [apply lookup_insert_eq|]. done.
Qed.

(** The store files the record under the id it draws itself. *)
Lemma insertSearchOperation_lookup (uuid id : string) (operation : SearchOperation.t)
    (now : Date) (db : Database.t) :
  id <> uuid ->
  Database.search_operations (Database.insertSearchOperation uuid operation now db) !! id
  = Database.search_operations db !! id.
Proof. intros Hne. simpl. by rewrite lookup_insert_ne. Qed.

(** Four locations: the first is searched, the attempts at the other
    three end with an exception before the counters are advanced. *)
Lemma three_failures_end_the_run_completed_witness :
  exists s' o',
    runOf 4 [Searched 2; ThrewBeforeCount; ThrewBeforeCount; ThrewBeforeCount]
    = (s', Finished)
    /\ heap s' !! 0%nat = Some o'
    /\ SearchOperation.status o' = completed
    /\ (SearchOperation.searchedLocations o' < SearchOperation.totalLocations o')
    /\ activeOperations s' !! "op-1" = None.
Proof.
  destruct (three_failures_end_the_run_completed "op-1" 0%nat (fst (submitted 4))
              (snd (submitted 4))
              (scriptOf [Searched 2; ThrewBeforeCount; ThrewBeforeCount; ThrewBeforeCount])
              1%nat
              (SearchOperation.mk "op-1" "data analyst" pending 1000 None 4 0 0 None 0
                 None
                 {| maxLocations := Some 4; delayBetweenSearches := None;
                    enableQueryExpansion := Some false;
                    enableResultFiltering := Some false;
                    enableContactEnrichment := Some false; aiProvider := None;
                    relevanceThreshold := None |}))
    as [(s' & o' & Hrun & Hobj & Hst & _ & _ & _ & Hlt & Hgone & _) _].
  - intros j _. repeat split. constructor.
  - intros j Hj found. destruct j as [|[|[|[|j]]]]; try lia; simpl; discriminate.
  - vm_compute. lia.
  - reflexivity.
  - reflexivity.
  - reflexivity.
  - intros id' Hid'. change (activeOperations (snd (submitted 4)))
      with (<[ "op-1" := 0%nat ]> (∅ : gmap string nat)) in Hid'.
    destruct (decide (id' = "op-1")) as [|Hne]; [done|].
    by rewrite lookup_insert_ne in Hid'.
  - reflexivity.
  - reflexivity.
  - reflexivity.
  - exists s', o'. repeat split; try assumption.
    apply Hlt. by left.
Defined.

(** C1 (the code against the claim).  A queue of three locations: the
    first two attempts end with an exception before the counters are
    advanced; the third finds two results, assigns
    [operation.searchedLocations = 3] and ends with an exception of the
    write that follows.  These are three failures in a row: the loop is
    left and the run completes, but with all three locations counted as
    searched, so the searched locations are not fewer than the total. *)
Lemma third_failure_at_the_write_counts_every_location :
  exists s' o',
    runOf 3 [ThrewBeforeCount; ThrewBeforeCount; ThrewAtWrite 2] = (s', Finished)
    /\ length (fst (submitted 3)) = 3%nat
    /\ heap s' !! 0%nat = Some o'
    /\ SearchOperation.status o' = completed
    /\ SearchOperation.totalLocations o' = 3
    /\ SearchOperation.searchedLocations o' = 3
    /\ ~ (SearchOperation.searchedLocations o' < SearchOperation.totalLocations o').
Proof.
  eexists. eexists. split; [vm_compute; reflexivity|].
  vm_compute. repeat split; try reflexivity. intros H. discriminate H.
Qed.

(** A success between failures starts the count again: two failures,
    a success and two more failures do not stop the run, and the fourth
    location is searched. *)
Example success_resets_the_count :
  exists s' o',
    runOf 4 [ThrewBeforeCount; ThrewBeforeCount; Searched 1; ThrewBeforeCount] = (s', Finished)
    /\ heap s' !! 0%nat = Some o'
    /\ SearchOperation.status o' = completed
    /\ map LocationRow.total_searches (Database.locations (database s')) = [1; 1; 1; 1]%nat.
Proof.
  eexists. eexists. split; [vm_compute; reflexivity|].
  vm_compute. repeat split; reflexivity.
Qed.

(** The record of the operation is stored under [row-1], the id the
    store drew, while every later write and read names [op-1]: after a
    completed run the store still shows the record as pending, and there
    is no progress to read under the id of the operation. *)
Example record_is_filed_under_the_id_of_the_store :
  let s' := fst (runOf 4 [Searched 2; Searched 0; Searched 1; Searched 3]) in
  getSearchProgress "op-1" 9500 s' = None
  /\ (OperationRow.status <$> Database.search_operations (database s') !! "row-1")
     = Some pending
  /\ (SearchOperation.status <$> heap s' !! 0%nat) = Some completed.
Proof. vm_compute. repeat split; reflexivity. Qed.

(** [initialize] writes to the table of the locations only. *)
Lemma initialize_operations (uuids : nat -> string) (now : Date)
    (m : LocationManager.t) (db : Database.t) :
  Database.search_operations (snd (LocationManager.initialize uuids now (m, db)))
  = Database.search_operations db.
Proof.
  unfold LocationManager.initialize.
  destruct (LocationManager.initialized m); [done|].
  destruct (length (Database.getLocations true db) =? 0)%nat; [|done].
  cbn [snd]. unfold LocationManager.initializeDefaultLocations.
  generalize (combine (seq 0 (length LocationManager.defaultLocations))
                      LocationManager.defaultLocations).
  intros l. revert db. induction l as [|kl l IH]; intros db; [done|].
  cbn [fold_left]. by rewrite IH.
Qed.

(** C2 (the code against the claim).  The cancellation of a search that
    [globalSearchProfiles] has submitted is not written to the store.
    The record of the search is filed under the id that the store drew,
    and [cancelSearch] names the id of the operation in its update, under
    which there is no record: the answer is true, the operation object
    is cancelled with the time of the call as its end time and the id
    has left the map, but the store is what it was, and the record of
    the search still says pending, with no end time. *)
Theorem cancelSearch_does_not_reach_the_record (operationId storeId query : string)
    (config : SearchOperationConfig) (uuids : nat -> string) (submittedAt now : Date)
    (s : t) :
  operationId <> storeId ->
  Database.search_operations (database s) !! operationId = None ->
  let started := snd (globalSearchProfiles operationId storeId query config uuids
                        submittedAt s) in
  let operation := fresh (dom (heap s)) in
  exists s' row,
    cancelSearch operationId now true started = (Some true, s')
    /\ (SearchOperation.status <$> heap s' !! operation) = Some cancelled
    /\ (SearchOperation.endTime <$> heap s' !! operation) = Some (Some now)
    /\ activeOperations s' !! operationId = None
    /\ database s' = database started
    /\ Database.search_operations (database s') !! storeId = Some row
    /\ OperationRow.status row = pending
    /\ OperationRow.end_time row = None
    /\ Database.getSearchOperation operationId (database s') = None
    /\ (forall at_, getSearchProgress operationId at_ s' = None).
Proof.
  intros Hne Hnone started operation.
  assert (Hstarted : activeOperations started !! operationId = Some operation
                     /\ (exists o, heap started !! operation = Some o)
                     /\ Database.search_operations (database started) !! operationId = None
                     /\ exists row,
                          Database.search_operations (database started) !! storeId = Some row
                          /\ OperationRow.status row = pending
                          /\ OperationRow.end_time row = None).
  { subst started operation. unfold globalSearchProfiles.
    pose proof (initialize_operations uuids submittedAt (locationManager s) (database s))
      as Hinit.
    unfold LocationManager.getLocations.
    destruct (LocationManager.initialize uuids submittedAt (locationManager s, database s))
      as [lm db]. simpl in Hinit. simpl.
    split; [apply lookup_insert_eq|]. split; [eexists; apply lookup_insert_eq|].
    split; [by rewrite lookup_insert_ne, Hinit|].
    eexists. split; [apply lookup_insert_eq|]. by split. }
  destruct Hstarted as (Hact & (o & Hobj) & Habsent & row & Hrow & Hst & Hend).
  assert (Hdb : Database.updateSearchOperation operationId
                  (updates (Some cancelled) (Some now) None None None None None) now
                  (database started)
                = database started).
  { by apply updateSearchOperation_absent. }
  assert (Hgone : forall m : gmap string nat, delete operationId m !! operationId = None)
    by (intros; apply lookup_delete_eq).
  unfold cancelSearch. rewrite Hact. cbv zeta.
  destruct (operationTimers _ !! operationId) eqn:Htimer.
  all: eexists; exists row; split; [reflexivity|].
  all: cbn [heap activeOperations database write mutate set_heap set_database
            set_activeOperations set_operationTimers].
  all: rewrite Hdb, lookup_alter_eq, Hobj; simpl.
  all: split; [reflexivity|]; split; [reflexivity|]; split; [apply Hgone|].
  all: split; [reflexivity|]; split; [exact Hrow|].
  all: split; [exact Hst|]; split; [exact Hend|].
  all: unfold getSearchProgress, Database.getSearchOperation.
  all: cbn [heap activeOperations database write mutate set_heap set_database
            set_activeOperations set_operationTimers].
  all: rewrite ?Hdb, Habsent; by split.
Qed.

(** The search that [submitted] files as [row-1] under the id [op-1], of
    two locations, is cancelled at 5000 ms. *)
Lemma cancelSearch_does_not_reach_the_record_witness :
  exists s',
    cancelSearch "op-1" 5000 true (snd (submitted 2)) = (Some true, s')
    /\ activeOperations s' !! "op-1" = None
    /\ database s' = database (snd (submitted 2))
    /\ (OperationRow.status <$> Database.search_operations (database s') !! "row-1")
       = Some pending
    /\ getSearchProgress "op-1" 6000 s' = None.
Proof.
  destruct (cancelSearch_does_not_reach_the_record "op-1" "row-1" "data analyst"
              {| maxLocations := Some 2; delayBetweenSearches := None;
                 enableQueryExpansion := Some false; enableResultFiltering := Some false;
                 enableContactEnrichment := Some false; aiProvider := None;
                 relevanceThreshold := None |}
              (fun _ => EmptyString) 1000 5000 (set_database catalogue new))
    as (s' & row & Hcancel & _ & _ & Hgone & Hdb & Hrow & Hst & _ & _ & Hnull).
  - discriminate.
  - reflexivity.
  - exists s'. split; [exact Hcancel|]. split; [exact Hgone|]. split; [exact Hdb|].
    split; [|apply Hnull]. rewrite Hrow. simpl. by f_equal.
Defined.

End Runs.

(* ================================================================== *)
(** * Part III.  Further properties of the code *)
(* ================================================================== *)

(** ** The rotation with a blacklist *)

Section Skipping.

Import LocationManager.

Variables (S : list Location.t) (B : gset string).

(** The entry at position [i] of the list is on the blacklist. *)
Definition blacklistedAt (i : nat) : Prop :=
  exists l, S !! i = Some l /\ Location.id l ∈ B.

Lemma scan_spec (fuel c : nat) :
  (c < length S)%nat ->
  match scan fuel (mkQueue S c B) with
  | (Some loc, q') =>
      exists j, (j < fuel)%nat
        /\ S !! ((c + j) mod length S) = Some loc
        /\ (Location.id loc ∉ B)
        /\ (forall j', (j' < j)%nat -> blacklistedAt ((c + j') mod length S))
        /\ q' = mkQueue S ((c + j + 1) mod length S) B
  | (None, q') =>
      (forall j', (j' < fuel)%nat -> blacklistedAt ((c + j') mod length S))
      /\ q' = mkQueue S ((c + fuel) mod length S) B
  end.
Proof.
  revert c. induction fuel as [|fuel IH]; intros c Hc.
  - simpl. split; [lia|]. by rewrite Nat.add_0_r, Nat.mod_small.
  - destruct (lookup_lt_is_Some_2 S c Hc) as [loc Hloc].
    assert (Hshift : forall j, ((c + 1) mod length S + j) mod length S
                               = (c + Datatypes.S j) mod length S).
    { intros j. rewrite Nat.Div0.add_mod_idemp_l. f_equal. lia. }
    unfold scan; fold scan. simpl locations. simpl currentIndex.
    simpl blacklistedLocations. rewrite Hloc.
    destruct (decide (Location.id loc ∈ B)) as [Hin|Hnot].
    + unfold set_currentIndex. simpl.
      assert (Hc' : ((c + 1) mod length S < length S)%nat)
        by (apply Nat.mod_upper_bound; lia).
      specialize (IH _ Hc').
      destruct (scan fuel (mkQueue S ((c + 1) mod length S) B)) as [[found|] q'].
      * destruct IH as (j & Hj & Hat & Hfree & Hskipped & ->).
        exists (Datatypes.S j). split; [lia|]. rewrite <- Hshift. split; [done|].
        split; [done|]. split.
        -- intros [|j'] Hj'.
           ++ rewrite Nat.add_0_r, Nat.mod_small by done. by exists loc.
           ++ rewrite <- Hshift. apply Hskipped. lia.
        -- f_equal. rewrite <- Nat.add_assoc, Nat.Div0.add_mod_idemp_l. f_equal. lia.
      * destruct IH as (Hskipped & ->). split.
        -- intros [|j'] Hj'.
           ++ rewrite Nat.add_0_r, Nat.mod_small by done. by exists loc.
           ++ rewrite <- Hshift. apply Hskipped. lia.
        -- f_equal. apply Hshift.
    + exists 0%nat. split; [lia|]. rewrite Nat.add_0_r, Nat.mod_small by done.
      split; [done|]. split; [done|]. split; [intros j' Hj'; lia|done].
Qed.

(** Every position of the list is met within [length S] steps of the
    cursor. *)
Lemma position_reached (c i : nat) :
  (c < length S)%nat -> (i < length S)%nat ->
  exists j, (j < length S)%nat /\ (c + j) mod length S = i.
Proof.
  intros Hc Hi. destruct (le_lt_dec c i) as [Hle|Hlt].
  - exists (i - c)%nat. split; [lia|].
    replace (c + (i - c))%nat with i by lia. by apply Nat.mod_small.
  - exists (i + length S - c)%nat. split; [lia|].
    replace (c + (i + length S - c))%nat with (i + 1 * length S)%nat by lia.
    rewrite Nat.Div0.mod_add. by apply Nat.mod_small.
Qed.

(** X1.  [getNextLocation] on an initialized manager hands out the first
    location, from the cursor on and around the end of the list, that is
    not blacklisted, and leaves the cursor just behind it; every entry
    it passed over is blacklisted.  It answers null exactly when every
    entry of the list is blacklisted, and then the cursor is where it
    was. *)
Theorem getNextLocation_skips_blacklisted (uuids : nat -> string) (now : Date)
    (c : nat) (ts : list (Date * string)) (db : Database.t) :
  (c < length S)%nat ->
  let r := getNextLocation uuids now (mk (mkQueue S c B) true ts, db) in
  match fst r with
  | Some loc =>
      exists j, (j < length S)%nat
        /\ S !! ((c + j) mod length S) = Some loc
        /\ (Location.id loc ∉ B)
        /\ (forall j', (j' < j)%nat -> blacklistedAt ((c + j') mod length S))
        /\ snd r = (mk (mkQueue S ((c + j + 1) mod length S) B) true ts, db)
  | None =>
      (forall l, l ∈ S -> Location.id l ∈ B)
      /\ snd r = (mk (mkQueue S c B) true ts, db)
  end.
Proof.
  intros Hc. unfold getNextLocation. simpl.
  destruct (length S =? 0)%nat eqn:Hz; [apply Nat.eqb_eq in Hz; lia|].
  pose proof (scan_spec (length S) c Hc) as Hscan.
  destruct (scan (length S) (mkQueue S c B)) as [[loc|] q']; simpl.
  - destruct Hscan as (j & Hj & Hat & Hfree & Hskipped & ->).
    exists j. by repeat split.
  - destruct Hscan as (Hskipped & ->). split.
    + intros l Hl. apply list_elem_of_lookup in Hl as [i Hi].
      destruct (position_reached c i Hc (lookup_lt_Some _ _ _ Hi)) as (j & Hj & Hji).
      destruct (Hskipped j Hj) as (l' & Hl' & Hb).
      rewrite Hji, Hi in Hl'. by injection Hl' as <-.
    + do 3 f_equal. replace (c + length S)%nat with (c + 1 * length S)%nat by lia.
      rewrite Nat.Div0.mod_add. by apply Nat.mod_small.
Qed.

End Skipping.

Definition threeLocations : list Location.t :=
  [ Location.mk "US" "United States" "United States" "US" None None "US" 10%Z true None 0%Q;
    Location.mk "GB" "United Kingdom" "United Kingdom" "GB" None None "GB" 9%Z true None 0%Q;
    Location.mk "AU" "Australia" "Australia" "AU" None None "AU" 8%Z true None 0%Q ].

(** The cursor is on the last of three locations, and it and the first
    one are blacklisted: the second one is handed out. *)
Lemma getNextLocation_skips_blacklisted_witness :
  let S := threeLocations in
  let B : gset string := {[ "AU"; "US" ]} in
  let r :=
    LocationManager.getNextLocation (fun _ => "") 0%Z
      (LocationManager.mk (LocationManager.mkQueue S 2 B) true [], Database.mk [] ∅) in
  match fst r with
  | Some loc =>
      exists j, (j < length S)%nat
        /\ S !! ((2 + j) mod length S) = Some loc
        /\ (Location.id loc ∉ B)
        /\ (forall j', (j' < j)%nat -> blacklistedAt S B ((2 + j') mod length S))
        /\ snd r = (LocationManager.mk
                      (LocationManager.mkQueue S ((2 + j + 1) mod length S) B) true [],
                    Database.mk [] ∅)
  | None =>
      (forall l, l ∈ S -> Location.id l ∈ B)
      /\ snd r = (LocationManager.mk (LocationManager.mkQueue S 2 B) true [],
                  Database.mk [] ∅)
  end.
Proof.
  apply (getNextLocation_skips_blacklisted threeLocations {[ "AU"; "US" ]}
           (fun _ => "") 0%Z 2 [] (Database.mk [] ∅)).
  simpl. lia.
Defined.

(** The second of the three is handed out, and the cursor has gone
    round to the third again. *)
Example getNextLocation_goes_round :
  let r :=
    LocationManager.getNextLocation (fun _ => "") 0%Z
      (LocationManager.mk (LocationManager.mkQueue threeLocations 2 {[ "AU"; "US" ]}) true [],
       Database.mk [] ∅) in
  option_map Location.id (fst r) = Some "GB"
  /\ LocationManager.currentIndex (LocationManager.locationQueue (fst (snd r))) = 2%nat.
Proof. vm_compute. split; reflexivity. Qed.

(** ** The methods that hand out and maintain the list *)

Section Maintenance.

Import LocationManager LocationAdmin.
Local Open Scope Z_scope.

(** X2.  [getLocations(maxCount)] on an initialized manager answers the
    locations of the list that are not blacklisted, in the order of the
    list, cut to the first [maxCount] of them when [maxCount] is a
    positive number; a missing, zero or negative [maxCount] cuts
    nothing.  The manager and the store are left as they were. *)
Theorem getLocations_prefix_of_available (uuids : nat -> string) (now : Date)
    (maxCount : option Z) (m : t) (db : Database.t) :
  initialized m = true ->
  let available :=
    filter (fun loc => Location.id loc ∉ blacklistedLocations (locationQueue m))
           (locations (locationQueue m)) in
  let r := getLocations uuids now maxCount (m, db) in
  fst r `prefix_of` available
  /\ (forall l, l ∈ fst r ->
        l ∈ locations (locationQueue m)
        /\ Location.id l ∉ blacklistedLocations (locationQueue m))
  /\ (forall n, maxCount = Some n -> (0 < n)%Z ->
        length (fst r) = Nat.min (Z.to_nat n) (length available))
  /\ ((maxCount = None \/ exists n, maxCount = Some n /\ (n <= 0)%Z) ->
      fst r = available)
  /\ snd r = (m, db).
Proof.
  intros Hinit available r.
  assert (Hr : r = (match maxCount with
                    | Some n => if (0 <? n)%Z then take (Z.to_nat n) available
                                else available
                    | None => available
                    end, (m, db))).
  { unfold r, getLocations, initialize. by rewrite Hinit. }
  rewrite Hr. simpl.
  assert (Hprefix :
            match maxCount with
            | Some n => if (0 <? n)%Z then take (Z.to_nat n) available else available
            | None => available
            end `prefix_of` available).
  { destruct maxCount as [n|]; [|done].
    destruct (0 <? n)%Z; [|done]. apply prefix_take. }
  split; [exact Hprefix|]. split.
  { intros l Hl. apply (elem_of_prefix _ _ _ Hl) in Hprefix.
    unfold available in Hprefix. by apply list_elem_of_filter in Hprefix as [? ?]. }
  split.
  { intros n -> Hn. apply Z.ltb_lt in Hn. rewrite Hn. apply length_take. }
  split; [|done].
  intros [->|(n & -> & Hn)]; [done|].
  assert ((0 <? n)%Z = false) as -> by (apply Z.ltb_ge; lia). done.
Qed.

Definition twoBlacklisted : t :=
  mk (mkQueue threeLocations 0 {[ "GB" ]}) true [].

Lemma getLocations_prefix_of_available_witness :
  fst (getLocations (fun _ => "") 0 (Some 1%Z) (twoBlacklisted, Database.mk [] ∅))
    `prefix_of` filter (fun loc => Location.id loc ∉ ({[ "GB" ]} : gset string))
                       threeLocations
  /\ map Location.id
       (fst (getLocations (fun _ => "") 0 (Some 5%Z) (twoBlacklisted, Database.mk [] ∅)))
     = ["US"; "AU"].
Proof.
  split.
  - apply (getLocations_prefix_of_available (fun _ => "") 0 (Some 1%Z) twoBlacklisted
             (Database.mk [] ∅)). reflexivity.
  - vm_compute. reflexivity.
Defined.

(** X3.  [removeLocation] does not take the location out of the rotation:
    the list of the manager keeps an entry for it at the same place,
    only flagged inactive, and since the id also leaves the blacklist
    [getLocations] hands that entry out, also when the location was
    blacklisted before the call.  No timer is touched. *)
Theorem removeLocation_keeps_location_in_rotation (uuids : nat -> string)
    (now : Date) (m : t) (db : Database.t) (loc : Location.t) :
  initialized m = true ->
  loc ∈ locations (locationQueue m) ->
  let m' := removeLocation (Location.id loc) m in
  deactivated loc ∈ fst (getLocations uuids now None (m', db))
  /\ isBlacklisted (Location.id loc) m' = false
  /\ map Location.id (locations (locationQueue m'))
     = map Location.id (locations (locationQueue m))
  /\ timers m' = timers m.
Proof.
  intros Hinit Hin m'. split; [|split; [|split; [|done]]].
  - unfold getLocations, initialize. simpl. rewrite Hinit. simpl.
    apply list_elem_of_filter. split; [simpl; set_solver|].
    change (map ?f ?l) with (f <$> l).
    apply list_elem_of_fmap. exists loc. split; [|done].
    by rewrite decide_True.
  - unfold isBlacklisted. simpl. apply bool_decide_eq_false. set_solver.
  - simpl. rewrite map_map. apply map_ext. intros l.
    by destruct (decide (Location.id l = Location.id loc)).
Qed.

Definition unitedKingdom : Location.t :=
  Location.mk "GB" "United Kingdom" "United Kingdom" "GB" None None "GB" 9 true None 0.

Lemma removeLocation_keeps_location_in_rotation_witness :
  deactivated unitedKingdom
    ∈ fst (getLocations (fun _ => "") 0 None
             (removeLocation "GB" twoBlacklisted, Database.mk [] ∅))
  /\ isBlacklisted "GB" twoBlacklisted = true
  /\ isBlacklisted "GB" (removeLocation "GB" twoBlacklisted) = false.
Proof.
  destruct (removeLocation_keeps_location_in_rotation (fun _ => "") 0 twoBlacklisted
              (Database.mk [] ∅) unitedKingdom eq_refl)
    as (Hin & Hoff & _).
  - apply list_elem_of_lookup. by exists 1%nat.
  - split; [exact Hin|]. split; [reflexivity|exact Hoff].
Defined.

(** X4.  [addCustomLocation] on a manager that is already initialized stores
    the location and returns its id, but does not reload: the list of
    the manager is exactly what it was, so the new location is not
    handed out.  It enters the list, if it is active, with the next
    [updateLocationSuccess], which does reload. *)
Theorem addCustomLocation_does_not_reload (uuid : string) (location : Location.t)
    (uuids : nat -> string) (now : Date) (m : t) (db : Database.t) :
  initialized m = true ->
  let r := addCustomLocation uuid location uuids now (m, db) in
  fst r = uuid
  /\ fst (snd r) = m
  /\ (exists row,
        Database.locations (snd (snd r)) = Database.locations db ++ [row]
        /\ LocationRow.id row = uuid)
  /\ (Location.isActive location = true ->
      forall id success now',
        exists l,
          l ∈ locations (locationQueue
                           (fst (updateLocationSuccess id success now' (snd r))))
          /\ Location.id l = uuid).
Proof.
  intros Hinit r.
  assert (Hr : r = (uuid, (m, insertLocation uuid location now db))).
  { unfold r, addCustomLocation, initialize. by rewrite Hinit. }
  rewrite Hr. simpl. split; [done|]. split; [done|]. split.
  { eexists. split; [reflexivity|done]. }
  intros Hact id success now'.
  set (row := LocationRow.mk uuid (Location.name location) (Location.country location)
                (Location.countryCode location) (Location.region location)
                (Location.city location) (Location.searchCode location)
                (Location.priority location) (Location.isActive location)
                (Location.lastSearched location) (Location.successRate location)
                0%nat 0%nat now now).
  set (row' := if decide (LocationRow.id row = id)
               then Database.bumpStats success now' row else row).
  exists (Database.rowToLocation row'). split.
  - rewrite (Array_sort_Permutation compareFn).
    apply getLocations_elem.
    + unfold Database.updateLocationStats. simpl.
      change (map ?f ?l) with (f <$> l).
      apply list_elem_of_fmap. exists row. split; [done|].
      apply elem_of_app. right. by apply list_elem_of_singleton.
    + unfold row'. by destruct (decide (LocationRow.id row = id)).
  - unfold row'. by destruct (decide (LocationRow.id row = id)).
Qed.

Definition loadedManager : t :=
  mk (mkQueue threeLocations 0 ∅) true [].

Definition lisbon : Location.t :=
  Location.mk "" "Lisbon" "Portugal" "PT" None (Some "Lisbon") "Lisbon, PT" 7 true None 0.

Lemma addCustomLocation_does_not_reload_witness :
  let r := addCustomLocation "loc-9" lisbon (fun _ => "") 50 (loadedManager, Database.mk [] ∅) in
  fst (snd r) = loadedManager
  /\ exists l,
       l ∈ locations (locationQueue (fst (updateLocationSuccess "US" true 60 (snd r))))
       /\ Location.id l = "loc-9".
Proof.
  destruct (addCustomLocation_does_not_reload "loc-9" lisbon (fun _ => "") 50
              loadedManager (Database.mk [] ∅) eq_refl) as (_ & Hsame & _ & Hnext).
  split; [exact Hsame|]. exact (Hnext eq_refl "US" true 60).
Defined.

Lemma sum_of_rates (l : list Location.t) (acc : Q) :
  (forall loc, loc ∈ l -> (0 <= Location.successRate loc <= 1)%Q) ->
  (acc <= fold_left (fun sum loc => sum + Location.successRate loc) l acc
   <= acc + inject_Z (Z.of_nat (length l)))%Q.
Proof.
  revert acc. induction l as [|x l IH]; intros acc Hall.
  - cbn [fold_left length]. change (inject_Z (Z.of_nat 0)) with 0%Q. lra.
  - simpl fold_left.
    assert (0 <= Location.successRate x <= 1)%Q as Hx by (apply Hall; left).
    assert (forall loc, loc ∈ l -> (0 <= Location.successRate loc <= 1)%Q) as Hl
      by (intros loc Hloc; apply Hall; by right).
    specialize (IH (acc + Location.successRate x)%Q Hl).
    replace (Z.of_nat (length (x :: l))) with (1 + Z.of_nat (length l))%Z
      by (simpl length; lia).
    rewrite inject_Z_plus. change (inject_Z 1) with 1%Q. lra.
Qed.

(** X5.  [getLocationStats] never reports NaN as the average success rate:
    on an empty list, where the quotient is 0/0, it reports 0.  When
    every rate of the list is between 0 and 1, so is the average.  The
    number of active entries is at most the total. *)
Theorem getLocationStats_average (m : t) :
  exists q,
    avgSuccessRate (getLocationStats m) = Number.Num q
    /\ (locations (locationQueue m) = [] -> q = 0%Q)
    /\ ((forall loc, loc ∈ locations (locationQueue m) ->
           (0 <= Location.successRate loc <= 1)%Q) ->
        (0 <= q <= 1)%Q)
    /\ (active (getLocationStats m) <= total (getLocationStats m))%nat.
Proof.
  unfold getLocationStats. simpl.
  destruct (locations (locationQueue m)) as [|x l] eqn:Hl.
  - simpl. exists 0%Q. split; [done|]. split; [done|]. split; [intros _; lra|lia].
  - set (n := length (x :: l)).
    assert (Hn : n = Datatypes.S (length l)) by done.
    rewrite Hn. unfold div_length, isNaN.
    eexists. split; [reflexivity|]. split; [discriminate|]. split.
    + intros Hall. pose proof (sum_of_rates (x :: l) 0 Hall) as [Hlo Hhi].
      rewrite <- Hn.
      assert (0 < inject_Z (Z.of_nat n))%Q as Hpos.
      { change 0%Q with (inject_Z 0). rewrite <- Zlt_Qlt. lia. }
      split.
      * apply Qle_shift_div_l; [done|]. lra.
      * apply Qle_shift_div_r; [done|]. fold n in Hhi. lra.
    + rewrite <- Hn. unfold n. apply length_filter.
Qed.

End Maintenance.

(** ** The list of the manager and the answer of the store *)

Section Reload.

Import LocationManager.

Lemma Array_sort_of_sorted {A : Type} (compareFn : A -> A -> Q) (l : list A) :
  Sorted (keeps_order compareFn) l -> JS.Array_sort compareFn l = l.
Proof.
  induction 1 as [|x l Hl IH Hhd]; [done|].
  simpl. rewrite IH. destruct Hhd as [|y l' Hxy]; [done|].
  simpl. unfold keeps_order in Hxy. by rewrite Hxy.
Qed.

Lemma orderBy_compareFn (a b : LocationRow.t) :
  Database.orderBy a b = compareFn (Database.rowToLocation a) (Database.rowToLocation b).
Proof.
  unfold Database.orderBy, compareFn. simpl.
  destruct (decide (LocationRow.priority a = LocationRow.priority b)) as [Heq|Hne].
  - by rewrite decide_False by (intros H; by apply H).
  - by rewrite decide_True.
Qed.

Lemma getLocations_Sorted (activeOnly : bool) (db : Database.t) :
  Sorted (keeps_order compareFn) (Database.getLocations activeOnly db).
Proof.
  unfold Database.getLocations.
  set (rows := if activeOnly then _ else _). clearbody rows.
  assert (Hs : Sorted (keeps_order Database.orderBy) (JS.Array_sort Database.orderBy rows)).
  { apply Array_sort_Sorted. intros x y. unfold keeps_order.
    rewrite !orderBy_compareFn.
    destruct (before_total (Database.rowToLocation x) (Database.rowToLocation y)) as [H|H];
      [left|right]; by apply compareFn_before. }
  induction Hs as [|r l Hl IH Hhd]; simpl; [constructor|].
  constructor; [exact IH|].
  destruct Hhd as [|r' l' Hrr']; simpl; constructor.
  unfold keeps_order in *. by rewrite <- orderBy_compareFn.
Qed.

(** X6.  The sort of the manager never moves an entry: the store answers
    [getLocations] in the order of priority and success rate already,
    and the sort is stable.  So after [updateLocationSuccess], and after
    an [initialize] that found locations in the store, the list of the
    manager is the answer of the store, entry by entry. *)
Theorem manager_list_is_the_answer_of_the_store (uuids : nat -> string)
    (id : string) (success : bool) (now : Date) (m : t) (db : Database.t) :
  (let r := updateLocationSuccess id success now (m, db) in
   locations (locationQueue (fst r)) = Database.getLocations true (snd r))
  /\ (initialized m = false -> Database.getLocations true db <> [] ->
      locations (locationQueue (fst (initialize uuids now (m, db))))
      = Database.getLocations true db).
Proof.
  split.
  - simpl. apply Array_sort_of_sorted, getLocations_Sorted.
  - intros Hinit Hne. rewrite initialize_loaded by done. simpl.
    apply Array_sort_of_sorted, getLocations_Sorted.
Qed.

End Reload.

(** ** The statistics of the locations in the store *)

Section Counters.

Import Database.

(** A write to the table [locations]: the store has these two and no
    other. *)
Inductive LocationWrite :=
| InsertLocation (uuid : string) (location : Location.t) (now : Date)
| UpdateLocationStats (id : string) (success : bool) (now : Date).

Definition locationWrite (db : t) (w : LocationWrite) : t :=
  match w with
  | InsertLocation uuid location now => LocationManager.insertLocation uuid location now db
  | UpdateLocationStats id success now => updateLocationStats id success now db
  end.

(** The successes of a row are among its searches, and once the row has
    been searched its rate is their quotient, between 0 and 1. *)
Definition consistent (row : LocationRow.t) : Prop :=
  (LocationRow.successful_searches row <= LocationRow.total_searches row)%nat
  /\ ((0 < LocationRow.total_searches row)%nat ->
      LocationRow.success_rate row
      = (inject_Z (Z.of_nat (LocationRow.successful_searches row))
         / inject_Z (Z.of_nat (LocationRow.total_searches row)))%Q
      /\ (0 <= LocationRow.success_rate row <= 1)%Q).

Lemma bumpStats_consistent (success : bool) (now : Date) (row : LocationRow.t) :
  (LocationRow.successful_searches row <= LocationRow.total_searches row)%nat ->
  consistent (bumpStats success now row).
Proof.
  intros Hle. unfold consistent, bumpStats. simpl.
  set (s := (LocationRow.successful_searches row + (if success then 1 else 0))%nat).
  set (n := (LocationRow.total_searches row + 1)%nat).
  assert (Hs : (s <= n)%nat) by (unfold s, n; destruct success; lia).
  split; [exact Hs|]. intros _. split; [reflexivity|].
  assert (0 < inject_Z (Z.of_nat n))%Q as Hpos.
  { change 0%Q with (inject_Z 0). rewrite <- Zlt_Qlt. unfold n. lia. }
  split.
  - apply Qle_shift_div_l; [done|]. rewrite Qmult_0_l.
    change 0%Q with (inject_Z 0). rewrite <- Zle_Qle. lia.
  - apply Qle_shift_div_r; [done|]. rewrite Qmult_1_l.
    rewrite <- Zle_Qle. lia.
Qed.

Lemma locationWrite_consistent (w : LocationWrite) (db : t) :
  Forall consistent (locations db) -> Forall consistent (locations (locationWrite db w)).
Proof.
  intros Hall. destruct w as [uuid location now|id success now]; simpl.
  - apply Forall_app. split; [exact Hall|].
    apply Forall_singleton. split; simpl; [lia|lia].
  - change (map ?f ?l) with (f <$> l). apply Forall_fmap.
    eapply Forall_impl; [exact Hall|].
    intros row Hrow. simpl.
    destruct (decide (LocationRow.id row = id)); [|exact Hrow].
    apply bumpStats_consistent, Hrow.
Qed.

(** X7.  Whatever locations are inserted and whatever outcomes are recorded,
    in whatever order, from an empty table on: in every row the
    successful searches are at most the searches, and a row that has
    been searched at least once carries their quotient as its success
    rate, a number between 0 and 1. *)
Theorem location_counters_stay_consistent (writes : list LocationWrite)
    (operations : gmap string OperationRow.t) :
  Forall consistent (locations (fold_left locationWrite writes (mk [] operations))).
Proof.
  assert (forall db, Forall consistent (locations db) ->
                     Forall consistent (locations (fold_left locationWrite writes db)))
    as Hgen.
  { induction writes as [|w ws IH]; intros db Hdb; [exact Hdb|].
    simpl. apply IH. by apply locationWrite_consistent. }
  apply Hgen. constructor.
Qed.

(** What [getLocations] answers for the row that [insertLocation]
    writes for a location: the location, under the id of the store. *)
Definition withId (uuid : string) (location : Location.t) : Location.t :=
  Location.mk uuid (Location.name location) (Location.country location)
    (Location.countryCode location) (Location.region location) (Location.city location)
    (Location.searchCode location) (Location.priority location)
    (Location.isActive location) (Location.lastSearched location)
    (Location.successRate location).

Lemma getLocations_active (db : t) (l : Location.t) :
  l ∈ getLocations true db -> Location.isActive l = true.
Proof.
  unfold getLocations. change (map ?f ?l) with (f <$> l).
  intros Hin. apply list_elem_of_fmap in Hin as (row & -> & Hrow).
  rewrite (Array_sort_Permutation orderBy) in Hrow.
  by apply list_elem_of_filter in Hrow as [? _].
Qed.

(** X8.  A location that is inserted is read back as it was given, under the
    id the store drew: by [getLocations(false)] always, by
    [getLocations(true)] exactly when it is active.  The answer has one
    entry more than before, and no answer of [getLocations(true)] holds
    an inactive location. *)
Theorem insertLocation_then_getLocations (uuid : string) (location : Location.t)
    (now : Date) (db : t) :
  let db' := LocationManager.insertLocation uuid location now db in
  withId uuid location ∈ getLocations false db'
  /\ (withId uuid location ∈ getLocations true db' <-> Location.isActive location = true)
  /\ length (getLocations false db') = Datatypes.S (length (getLocations false db))
  /\ (forall l, l ∈ getLocations true db' -> Location.isActive l = true).
Proof.
  intros db'.
  set (row := LocationRow.mk uuid (Location.name location) (Location.country location)
                (Location.countryCode location) (Location.region location)
                (Location.city location) (Location.searchCode location)
                (Location.priority location) (Location.isActive location)
                (Location.lastSearched location) (Location.successRate location)
                0%nat 0%nat now now).
  assert (Hrow : row ∈ locations db').
  { simpl. apply elem_of_app. right. by apply list_elem_of_singleton. }
  assert (Hto : rowToLocation row = withId uuid location) by done.
  split; [|split; [|split]].
  - rewrite <- Hto. unfold getLocations.
    change (map ?f ?l) with (f <$> l). apply list_elem_of_fmap_2.
    by rewrite (Array_sort_Permutation orderBy).
  - split.
    + intros Hin. by apply getLocations_active in Hin.
    + intros Hact. rewrite <- Hto. by apply getLocations_elem.
  - unfold getLocations. rewrite !length_map, !Array_sort_length.
    simpl. rewrite length_app. simpl. lia.
  - intros l. apply getLocations_active.
Qed.

(** X9.  [insertSearchOperation] files the record under the id that the
    store draws, and reads it back there with every property that was
    given except the id; the id that the operation carried is not used,
    so what [getSearchOperation] answers for any other id, the one of
    the operation included, is what it answered before. *)
Theorem insertSearchOperation_then_getSearchOperation (uuid : string)
    (operation : SearchOperation.t) (now : Date) (db : t) :
  getSearchOperation uuid (insertSearchOperation uuid operation now db)
  = Some (SearchOperation.mk uuid (SearchOperation.query operation)
            (SearchOperation.status operation) (SearchOperation.startTime operation)
            (SearchOperation.endTime operation) (SearchOperation.totalLocations operation)
            (SearchOperation.searchedLocations operation)
            (SearchOperation.totalResults operation)
            (SearchOperation.currentLocation operation)
            (SearchOperation.progress operation) (SearchOperation.error operation)
            (SearchOperation.config operation))
  /\ (forall id, id <> uuid ->
        getSearchOperation id (insertSearchOperation uuid operation now db)
        = getSearchOperation id db)
  /\ locations (insertSearchOperation uuid operation now db) = locations db.
Proof.
  unfold getSearchOperation, insertSearchOperation. simpl.
  split; [by rewrite lookup_insert_eq|]. split; [|done].
  intros id Hne. by rewrite lookup_insert_ne.
Qed.

End Counters.

(** ** The records that a global search writes *)

Section Frame.

Import Orchestrator.

(** [A] are the ids of the operations that are active at the start and
    [ops0] is the table of the operations at the start. *)
Variables (A : gset string) (ops0 : gmap string OperationRow.t).

(** No id has become active, no record has been made or deleted, and
    the record of every id outside [A] is as it was. *)
Definition framed (s : t) : Prop :=
  dom (activeOperations s) ⊆ A
  /\ dom (Database.search_operations (database s)) = dom ops0
  /\ forall id, id ∉ A -> Database.search_operations (database s) !! id = ops0 !! id.

Lemma framed_same (s s' : t) :
  dom (activeOperations s') ⊆ dom (activeOperations s) ->
  Database.search_operations (database s') = Database.search_operations (database s) ->
  framed s -> framed s'.
Proof.
  intros Hact Hops (HA & Hdom & Hrest). unfold framed. rewrite Hops.
  split; [set_solver|]. by split.
Qed.

Lemma updateSearchOperation_dom (id : string) (u : PartialOperation.t) (now : Date)
    (db : Database.t) :
  dom (Database.search_operations (Database.updateSearchOperation id u now db))
  = dom (Database.search_operations db).
Proof.
  unfold Database.updateSearchOperation.
  destruct (Database.updateFields u); [done|]. simpl. apply dom_alter_L.
Qed.

Lemma framed_write (id : string) (u : PartialOperation.t) (now : Date) (s : t) :
  id ∈ A -> framed s -> framed (write id u now s).
Proof.
  intros Hid (HA & Hdom & Hrest). unfold framed, write. simpl.
  split; [exact HA|]. split; [by rewrite updateSearchOperation_dom|].
  intros id' Hid'. rewrite updateSearchOperation_other; [by apply Hrest|].
  intros ->. by apply Hid'.
Qed.

Lemma framed_mutate (r : nat) (f : SearchOperation.t -> SearchOperation.t) (s : t) :
  framed s -> framed (mutate r f s).
Proof. by apply framed_same. Qed.

Lemma framed_delete (id : string) (s : t) :
  framed s -> framed (set_activeOperations (delete id (activeOperations s)) s).
Proof.
  apply framed_same; [|done]. simpl. rewrite dom_delete_L. set_solver.
Qed.

Lemma framed_active (id : string) (r : nat) (s : t) :
  framed s -> activeOperations s !! id = Some r -> id ∈ A.
Proof.
  intros (HA & _) Hr. apply HA. apply elem_of_dom. by exists r.
Qed.

Lemma framed_cancelSearch (id : string) (now : Date) (ok : bool) (s : t) :
  framed s -> framed (snd (cancelSearch id now ok s)).
Proof.
  intros Hf. unfold cancelSearch.
  destruct (activeOperations s !! id) as [r|] eqn:Hr; [|exact Hf].
  pose proof (framed_active id r s Hf Hr) as Hid.
  destruct ok; cbv zeta; cbn [snd]; [|by apply framed_mutate].
  match goal with
  | |- framed (match operationTimers ?s2 !! _ with Some _ => _ | None => _ end) =>
      assert (Hf2 : framed s2) by (by apply framed_delete, framed_write, framed_mutate);
      destruct (operationTimers s2 !! id); [|exact Hf2];
      revert Hf2; by apply framed_same
  end.
Qed.

Lemma framed_external (e : External) (s : t) : framed s -> framed (external s e).
Proof.
  intros Hf. destruct e as [id now ok|now]; simpl.
  - by apply framed_cancelSearch.
  - revert Hf. by apply framed_same.
Qed.

Lemma framed_externals (es : list External) (s : t) :
  framed s -> framed (fold_left external es s).
Proof.
  revert s. induction es as [|e es IH]; intros s Hf; [exact Hf|].
  simpl. by apply IH, framed_external.
Qed.

Lemma framed_handleOperationError (id message : string) (now : Date) (ok : bool)
    (s : t) :
  framed s -> framed (snd (handleOperationError id message now ok s)).
Proof.
  intros Hf. unfold handleOperationError.
  destruct (activeOperations s !! id) as [r|] eqn:Hr; [|exact Hf].
  pose proof (framed_active id r s Hf Hr) as Hid.
  destruct ok; cbn [snd].
  - by apply framed_delete, framed_write, framed_mutate.
  - by apply framed_mutate.
Qed.

Lemma framed_countLocation (r i : nat) (location : Location.t) (found : nat) (e : Slot)
    (s : t) :
  framed s -> framed (countLocation r i location found e s).
Proof. by apply framed_same. Qed.

Lemma framed_catchLocation (location : Location.t) (e : Slot) (cf : nat) (s : t) :
  framed s -> framed (fst (catchLocation location e cf s)).
Proof.
  intros Hf. unfold catchLocation. destruct (handlerOk e); [|exact Hf].
  destruct (maxConsecutiveFailures <=? Datatypes.S cf)%nat; simpl;
    revert Hf; by apply framed_same.
Qed.

Lemma framed_iteration (id : string) (r total i : nat) (location : Location.t)
    (e : Slot) (cf : nat) (s : t) :
  framed s -> framed (fst (iteration id r total i location e cf s)).
Proof.
  intros Hf. unfold iteration.
  destruct (activeOperations s !! id) as [r'|] eqn:Hr; [|exact Hf].
  pose proof (framed_active id r' s Hf Hr) as Hid.
  destruct (progressWrite e); [|by apply framed_mutate].
  set (s1 := write id _ (now e) (mutate r _ s)).
  assert (Hf1 : framed s1) by (by apply framed_write, framed_mutate).
  clearbody s1.
  destruct (attempt e) as [found| |found].
  - simpl. by apply framed_write, framed_countLocation.
  - by apply framed_catchLocation.
  - by apply framed_catchLocation, framed_countLocation.
Qed.

Lemma framed_locationLoop (id : string) (r total : nat) (locations : list Location.t)
    (slots : nat -> Slot) :
  forall i cf s,
    framed s -> framed (fst (locationLoop id r total i locations slots cf s)).
Proof.
  induction locations as [|location rest IH]; intros i cf s Hf; [exact Hf|].
  simpl.
  pose proof (framed_iteration id r total i location (slots i) cf _
                (framed_externals (before (slots i)) s Hf)) as Hit.
  destruct (iteration id r total i location (slots i) cf
              (fold_left external (before (slots i)) s)) as [s1 [cf'| | |]];
    simpl in Hit; [by apply IH|exact Hit|exact Hit|exact Hit].
Qed.

Lemma framed_processGlobalSearch (id : string) (locations : list Location.t)
    (script : Script) (s : t) :
  framed s -> framed (fst (processGlobalSearch id locations script s)).
Proof.
  intros Hf. unfold processGlobalSearch.
  destruct (activeOperations s !! id) as [r|] eqn:Hr; [|exact Hf].
  pose proof (framed_active id r s Hf Hr) as Hid.
  destruct (startWrite script);
    [|by apply framed_handleOperationError, framed_mutate].
  set (s1 := write id _ (startNow script) (mutate r _ s)).
  assert (Hf1 : framed s1) by (by apply framed_write, framed_mutate).
  clearbody s1.
  pose proof (framed_locationLoop id r (length locations) locations (slots script)
                0 0 s1 Hf1) as Hloop.
  destruct (locationLoop id r (length locations) 0 locations (slots script) 0 s1)
    as [s2 control]. simpl in Hloop.
  destruct control as [cf| | |]; cbv zeta;
    try (destruct (finalWrite script); cbn [fst];
         [by apply framed_delete, framed_write, framed_mutate, framed_externals
         |by apply framed_handleOperationError, framed_mutate, framed_externals]).
  - exact Hloop.
  - cbn [fst]. by apply framed_handleOperationError, framed_externals.
Qed.

End Frame.

Section Unobserved.

Import Orchestrator.

Lemma globalSearchProfiles_state (operationId storeId query : string)
    (config : SearchOperationConfig) (uuids : nat -> string) (now : Date) (s : t) :
  let started := globalSearchProfiles operationId storeId query config uuids now s in
  dom (activeOperations (snd started)) = {[ operationId ]} ∪ dom (activeOperations s)
  /\ exists row,
       Database.search_operations (database (snd started))
       = <[ storeId := row ]> (Database.search_operations (database s))
       /\ OperationRow.status row = pending
       /\ OperationRow.searched_locations row = 0%Z
       /\ OperationRow.total_locations row = Z.of_nat (length (fst started)).
Proof.
  unfold globalSearchProfiles.
  set (maxCount := match maxLocations config with
                   | Some n => if (n =? 0)%Z then 10%Z else n
                   | None => 10%Z
                   end).
  pose proof (initialize_operations uuids now (locationManager s) (database s)) as Hinit.
  unfold LocationManager.getLocations.
  destruct (LocationManager.initialize uuids now (locationManager s, database s))
    as [lm db]. simpl in Hinit. simpl.
  split; [by rewrite dom_insert_L|].
  eexists. split; [by rewrite Hinit|]. by repeat split.
Qed.

(** X10.  The progress of a global search cannot be read from the store.  The
    record of the operation is filed under the id that the store drew,
    and every write of the run names the id that the orchestrator drew:
    whatever the run meets (results, exceptions, failing writes,
    cancellations, timers), it makes no record and deletes none, the
    record that was filed is exactly as it was inserted, still pending
    with no location searched, and under the id that
    [globalSearchProfiles] returned [getSearchProgress] answers null at
    any time. *)
Theorem global_search_record_is_never_updated (operationId storeId query : string)
    (config : SearchOperationConfig) (uuids : nat -> string) (now : Date)
    (script : Script) (s : t) :
  operationId <> storeId ->
  storeId ∉ dom (activeOperations s) ->
  Database.search_operations (database s) !! operationId = None ->
  let started := globalSearchProfiles operationId storeId query config uuids now s in
  let s' := fst (processGlobalSearch operationId (fst started) script (snd started)) in
  (forall now', getSearchProgress operationId now' s' = None)
  /\ dom (Database.search_operations (database s'))
     = {[ storeId ]} ∪ dom (Database.search_operations (database s))
  /\ Database.search_operations (database s') !! storeId
     = Database.search_operations (database (snd started)) !! storeId
  /\ exists row,
       Database.search_operations (database s') !! storeId = Some row
       /\ OperationRow.status row = pending
       /\ OperationRow.searched_locations row = 0%Z
       /\ forall now',
            (SearchProgress.status <$> getSearchProgress storeId now' s') = Some pending.
Proof.
  intros Hne Hstore Hnone started s'.
  destruct (globalSearchProfiles_state operationId storeId query config uuids now s)
    as (Hact & row & Hops & Hst & Hsl & _).
  fold started in Hact, Hops.
  assert (Hf : framed (dom (activeOperations (snd started)))
                 (Database.search_operations (database (snd started))) (snd started)).
  { split; [done|]. by split. }
  apply (framed_processGlobalSearch _ _ operationId (fst started) script) in Hf.
  fold s' in Hf. destruct Hf as (_ & Hdom & Hrest).
  assert (Hout : storeId ∉ dom (activeOperations (snd started))).
  { rewrite Hact. set_solver. }
  assert (Hrow : Database.search_operations (database s') !! storeId = Some row).
  { rewrite (Hrest storeId Hout), Hops. apply lookup_insert_eq. }
  assert (Habsent : Database.search_operations (database s') !! operationId = None).
  { apply not_elem_of_dom. rewrite Hdom, Hops, dom_insert_L.
    apply not_elem_of_dom in Hnone. set_solver. }
  split.
  { intros now'. unfold getSearchProgress, Database.getSearchOperation.
    by rewrite Habsent. }
  split; [by rewrite Hdom, Hops, dom_insert_L|].
  split; [by apply Hrest|].
  exists row. split; [exact Hrow|]. split; [exact Hst|]. split; [exact Hsl|].
  intros now'. unfold getSearchProgress, Database.getSearchOperation.
  rewrite Hrow. simpl. f_equal. exact Hst.
Qed.

(** A run over four locations in which every search finds results and
    every write succeeds. *)
Lemma global_search_record_is_never_updated_witness :
  let s' := fst (runOf 4 [Searched 2; Searched 1; Searched 3; Searched 1]) in
  (forall now', getSearchProgress "op-1" now' s' = None)
  /\ (SearchOperation.status <$> heap s' !! 0%nat) = Some completed
  /\ (OperationRow.status <$> Database.search_operations (database s') !! "row-1")
     = Some pending.
Proof.
  destruct (global_search_record_is_never_updated "op-1" "row-1" "data analyst"
              {| maxLocations := Some 4%Z; delayBetweenSearches := None;
                 enableQueryExpansion := Some false; enableResultFiltering := Some false;
                 enableContactEnrichment := Some false; aiProvider := None;
                 relevanceThreshold := None |}
              (fun _ => EmptyString) 1000%Z
              (scriptOf [Searched 2; Searched 1; Searched 3; Searched 1])
              (set_database catalogue new))
    as (Hnull & _ & _ & row & Hrow & Hst & _).
  - discriminate.
  - simpl. set_solver.
  - reflexivity.
  - split; [exact Hnull|]. split; [reflexivity|].
    change (fst (runOf 4 [Searched 2; Searched 1; Searched 3; Searched 1]))
      with (fst (processGlobalSearch "op-1"
                   (fst (globalSearchProfiles "op-1" "row-1" "data analyst"
                           {| maxLocations := Some 4%Z; delayBetweenSearches := None;
                              enableQueryExpansion := Some false;
                              enableResultFiltering := Some false;
                              enableContactEnrichment := Some false; aiProvider := None;
                              relevanceThreshold := None |}
                           (fun _ => EmptyString) 1000%Z (set_database catalogue new)))
                   (scriptOf [Searched 2; Searched 1; Searched 3; Searched 1])
                   (snd (globalSearchProfiles "op-1" "row-1" "data analyst"
                           {| maxLocations := Some 4%Z; delayBetweenSearches := None;
                              enableQueryExpansion := Some false;
                              enableResultFiltering := Some false;
                              enableContactEnrichment := Some false; aiProvider := None;
                              relevanceThreshold := None |}
                           (fun _ => EmptyString) 1000%Z (set_database catalogue new))))).
    rewrite Hrow. simpl. f_equal. exact Hst.
Defined.

End Unobserved.

(** ** Text *)

Section TextFacts.

Import Text.

Variable p : ascii -> bool.

Lemma takeWhile_dropWhile (l : list ascii) : takeWhile p l ++ dropWhile p l = l.
Proof.
  induction l as [|c l IH]; [done|]. simpl.
  destruct (p c); [|done]. simpl. by rewrite IH.
Qed.

Lemma takeWhile_Forall (l : list ascii) : Forall (fun c => p c = true) (takeWhile p l).
Proof.
  induction l as [|c l IH]; simpl; [constructor|].
  destruct (p c) eqn:Hc; by constructor.
Qed.

Lemma dropWhile_length (l : list ascii) : (length (dropWhile p l) <= length l)%nat.
Proof.
  induction l as [|c l IH]; simpl; [lia|]. destruct (p c); simpl; lia.
Qed.

Lemma dropWhile_head (l l' : list ascii) (c : ascii) :
  dropWhile p l = c :: l' -> p c = false.
Proof.
  induction l as [|d l IH]; simpl; [discriminate|].
  destruct (p d) eqn:Hd; [exact IH|]. intros H. by injection H as <- _.
Qed.

Lemma dropWhile_idem (l : list ascii) : dropWhile p (dropWhile p l) = dropWhile p l.
Proof.
  destruct (dropWhile p l) as [|c l'] eqn:H; [done|].
  apply dropWhile_head in H. simpl. by rewrite H.
Qed.

Lemma dropWhile_fixed (l : list ascii) :
  dropWhile p l = l <-> match l with c :: _ => p c = false | [] => True end.
Proof.
  destruct l as [|c l]; [done|]. simpl. destruct (p c) eqn:Hc; [|done].
  split; [|discriminate]. intros H.
  pose proof (dropWhile_length l) as Hlen. rewrite H in Hlen. simpl in Hlen. lia.
Qed.

Lemma dropWhile_fixed_prefix (l1 l2 : list ascii) :
  dropWhile p (l1 ++ l2) = l1 ++ l2 -> l1 = [] \/ dropWhile p l1 = l1 /\ l1 <> [].
Proof.
  destruct l1 as [|c l1]; [by left|]. intros H. right.
  apply dropWhile_fixed in H. simpl in H. split; [|done].
  by apply dropWhile_fixed.
Qed.

Lemma dropWhile_suffix (l : list ascii) : exists pre, l = pre ++ dropWhile p l.
Proof. exists (takeWhile p l). by rewrite takeWhile_dropWhile. Qed.

End TextFacts.

Section TrimFacts.

Import Text.

Lemma trimEnd_prefix (l : list ascii) : exists post, l = trimEnd l ++ post.
Proof.
  unfold trimEnd. destruct (dropWhile_suffix isWhite (rev l)) as [pre Hpre].
  exists (rev pre). rewrite <- rev_app_distr, <- Hpre. by rewrite rev_involutive.
Qed.

(** A text without white space at either end. *)
Definition trimmed (l : list ascii) : Prop :=
  trimStart l = l /\ trimEnd l = l.

Lemma trimEnd_fixed (l : list ascii) :
  trimEnd l = l <-> dropWhile isWhite (rev l) = rev l.
Proof.
  unfold trimEnd. split; intros H.
  - rewrite <- H at 2. by rewrite rev_involutive.
  - by rewrite H, rev_involutive.
Qed.

Lemma trimStart_prefix (l post : list ascii) :
  trimStart (l ++ post) = l ++ post -> trimStart l = l.
Proof.
  unfold trimStart. intros H.
  by destruct (dropWhile_fixed_prefix isWhite l post H) as [->|[? _]].
Qed.

Lemma trim_trimmed (l : list ascii) : trimmed (trimEnd (trimStart l)).
Proof.
  split.
  - destruct (trimEnd_prefix (trimStart l)) as [post Hpost].
    apply (trimStart_prefix _ post). rewrite <- Hpost.
    unfold trimStart. apply dropWhile_idem.
  - apply trimEnd_fixed. unfold trimEnd. rewrite rev_involutive.
    apply dropWhile_idem.
Qed.

Lemma trim_of_trimmed (l : list ascii) :
  trimmed l -> trim (string_of_list_ascii l) = string_of_list_ascii l.
Proof.
  intros [Hs He]. unfold trim.
  by rewrite list_ascii_of_string_of_list_ascii, Hs, He.
Qed.

End TrimFacts.

(** ** The extraction of a profile from a result *)

Section Extraction.

Import Text ProfileExtraction.

Lemma stripLinkedIn_prefix (s : list ascii) : exists post, s = stripLinkedIn s ++ post.
Proof.
  unfold stripLinkedIn.
  set (word := rev (list_ascii_of_string "LinkedIn")).
  destruct (decide (take (length word) (rev s) = word)) as [Hw|_];
    [|exists []; by rewrite app_nil_r].
  destruct (dropWhile isWhite (drop (length word) (rev s))) as [|c r'] eqn:Hd;
    [exists []; by rewrite app_nil_r|].
  destruct (ascii_dec c "-") as [->|Hne].
  2: { exists []. rewrite app_nil_r.
       destruct c as [[] [] [] [] [] [] [] []]; try done. }
  destruct (dropWhile_suffix isWhite (drop (length word) (rev s))) as [pre1 H1].
  rewrite Hd in H1.
  destruct (dropWhile_suffix isWhite r') as [pre2 H2].
  exists (rev (take (length word) (rev s) ++ pre1 ++ "-"%char :: pre2)).
  rewrite <- rev_app_distr, <- app_assoc. simpl.
  rewrite <- (app_assoc pre1). simpl. rewrite <- H2, <- H1, take_drop.
  by rewrite rev_involutive.
Qed.

Lemma stripLinkedIn_trimmed (s : list ascii) : trimmed s -> trimmed (stripLinkedIn s).
Proof.
  intros [Hs He]. split.
  - destruct (stripLinkedIn_prefix s) as [post Hpost].
    apply (trimStart_prefix _ post). by rewrite <- Hpost.
  - unfold stripLinkedIn.
    set (word := rev (list_ascii_of_string "LinkedIn")).
    destruct (decide (take (length word) (rev s) = word)) as [Hw|_]; [|exact He].
    destruct (dropWhile isWhite (drop (length word) (rev s))) as [|c r'] eqn:Hd;
      [exact He|].
    destruct (ascii_dec c "-") as [->|Hne].
    2: { destruct c as [[] [] [] [] [] [] [] []]; try done. }
    apply trimEnd_fixed. rewrite rev_involutive. apply dropWhile_idem.
Qed.

(** X11.  [extractNameFromTitle] finds no name exactly when the title is
    empty or begins with a vertical bar.  A name that it finds is taken
    from the text before the first vertical bar: it holds no vertical
    bar and has no white space at either end (it can be empty). *)
Theorem extractNameFromTitle_reads_before_the_bar (title : string) :
  (extractNameFromTitle title = None
   <-> title = EmptyString \/ exists rest, title = String "|" rest)
  /\ forall name,
       extractNameFromTitle title = Some name ->
       ("|"%char ∉ list_ascii_of_string name) /\ trim name = name.
Proof.
  unfold extractNameFromTitle.
  set (notBar := fun c => negb (isChar "|" c)).
  split.
  - destruct title as [|c rest]; simpl.
    + split; [by left|done].
    + unfold notBar at 1, isChar. destruct (ascii_dec c "|") as [->|Hne]; simpl.
      * split; [intros _; right; by exists rest|done].
      * split; [discriminate|].
        intros [H|[rest' H]]; [discriminate|]. injection H as -> _. done.
  - intros name.
    pose proof (takeWhile_Forall notBar (list_ascii_of_string title)) as Hall.
    destruct (takeWhile notBar (list_ascii_of_string title)) as [|c group] eqn:Hg;
      [discriminate|].
    intros H. injection H as <-.
    pose proof (stripLinkedIn_trimmed _ (trim_trimmed (c :: group))) as Htr.
    split; [|by apply trim_of_trimmed].
    rewrite list_ascii_of_string_of_list_ascii.
    destruct (stripLinkedIn_prefix (trimEnd (trimStart (c :: group)))) as [post1 H1].
    destruct (trimEnd_prefix (trimStart (c :: group))) as [post2 H2].
    destruct (dropWhile_suffix isWhite (c :: group)) as [pre3 H3].
    intros Hin.
    assert ("|"%char ∈ c :: group) as Hbar.
    { rewrite H3. apply elem_of_app. right. fold (trimStart (c :: group)).
      rewrite H2. apply elem_of_app. left.
      rewrite H1. apply elem_of_app. by left. }
    rewrite Forall_forall in Hall. specialize (Hall _ Hbar).
    unfold notBar, isChar in Hall. by destruct (ascii_dec "|" "|").
Qed.

Lemma whiteThenText_truthy (s : list ascii) (g : string) :
  whiteThenText s = Some g -> JS.truthy g = true.
Proof.
  unfold whiteThenText.
  destruct (takeWhile isWhite s) as [|w1 [|w2 white]];
    destruct (takeWhile (fun c => negb (isChar "." c)) (dropWhile isWhite s)) as [|t text];
    try discriminate; intros H; by injection H as <-.
Qed.

Lemma atPattern_truthy (s : list ascii) (g : string) :
  atPattern s = Some g -> JS.truthy g = true.
Proof.
  unfold atPattern. destruct (ignoreCase _ s); [apply whiteThenText_truthy|discriminate].
Qed.

Lemma firstMatch_truthy (s : list ascii) (g : string) :
  firstMatch atPattern s = Some g -> JS.truthy g = true.
Proof.
  induction s as [|c s IH]; cbn [firstMatch].
  - destruct (atPattern []) eqn:H; [|discriminate].
    intros H'. injection H' as <-. by apply atPattern_truthy in H.
  - destruct (atPattern (c :: s)) eqn:H; [|exact IH].
    intros H'. injection H' as <-. by apply atPattern_truthy in H.
Qed.

Lemma firstMatch_None {A} (f : list ascii -> option A) (s : list ascii) :
  firstMatch f s = None <-> forall k, f (drop k s) = None.
Proof.
  induction s as [|c s IH]; simpl.
  - destruct (f []) eqn:H.
    + split; [discriminate|]. intros Hall. specialize (Hall 0%nat). simpl in Hall.
      congruence.
    + split; [|done]. intros _ k. by destruct k.
  - destruct (f (c :: s)) eqn:H.
    + split; [discriminate|]. intros Hall. specialize (Hall 0%nat). simpl in Hall.
      congruence.
    + rewrite IH. split.
      * intros Hall [|k]; [done|]. apply Hall.
      * intros Hall k. apply (Hall (Datatypes.S k)).
Qed.

Lemma ignoreCase_drop (word s s' : list ascii) :
  ignoreCase word s = Some s' -> s' = drop (length word) s.
Proof.
  revert s. induction word as [|w word IH]; intros s; simpl.
  - intros H. by injection H as <-.
  - destruct s as [|c s]; [discriminate|].
    destruct (ascii_dec (Str.lower c) w); [apply IH|discriminate].
Qed.

Lemma dropWhile_drop (q : ascii -> bool) (s : list ascii) :
  exists k, dropWhile q s = drop k s.
Proof.
  exists (length (takeWhile q s)).
  transitivity (drop (length (takeWhile q s)) (takeWhile q s ++ dropWhile q s)).
  - by rewrite drop_app_length.
  - by rewrite takeWhile_dropWhile.
Qed.

Lemma whiteThenAt_at (s : list ascii) (g : string) :
  whiteThenAt s = Some g -> exists k, atPattern (drop k s) = Some g.
Proof.
  unfold whiteThenAt. destruct (takeWhile isWhite s); [discriminate|].
  destruct (dropWhile_drop isWhite s) as [k ->]. intros H. by exists k.
Qed.

Lemma worksAtPattern_at (s : list ascii) (g : string) :
  worksAtPattern s = Some g -> exists k, atPattern (drop k s) = Some g.
Proof.
  unfold worksAtPattern.
  destruct (ignoreCase (list_ascii_of_string "work") s) as [s'|] eqn:H1; [|discriminate].
  apply ignoreCase_drop in H1 as ->.
  destruct (ignoreCase (list_ascii_of_string "s") _) as [s''|] eqn:H2.
  - apply ignoreCase_drop in H2 as ->. intros H.
    apply whiteThenAt_at in H as [k Hk]. rewrite !drop_drop in Hk. eauto.
  - intros H. apply whiteThenAt_at in H as [k Hk]. rewrite drop_drop in Hk. eauto.
Qed.

Lemma employedAtPattern_at (s : list ascii) (g : string) :
  employedAtPattern s = Some g -> exists k, atPattern (drop k s) = Some g.
Proof.
  unfold employedAtPattern.
  destruct (ignoreCase (list_ascii_of_string "employed") s) as [s'|] eqn:H1;
    [|discriminate].
  apply ignoreCase_drop in H1 as ->. intros H.
  apply whiteThenAt_at in H as [k Hk]. rewrite drop_drop in Hk. eauto.
Qed.

Lemma later_pattern_needs_at (f : list ascii -> option string) (s : list ascii) :
  (forall x g, f x = Some g -> exists k, atPattern (drop k x) = Some g) ->
  firstMatch atPattern s = None -> firstMatch f s = None.
Proof.
  intros Hf Hat. rewrite firstMatch_None in Hat. apply firstMatch_None. intros i.
  destruct (f (drop i s)) as [g|] eqn:Hg; [|done].
  apply Hf in Hg as [k Hk]. rewrite drop_drop in Hk. by rewrite Hat in Hk.
Qed.

(** X12.  Of the three patterns of [extractCompanyFromSnippet] only the first
    ever answers.  Whatever the second or the third pattern matches
    holds [at], white space and a text, which the first pattern, tried
    before them, matches too; so the company is what the first pattern
    captures at the leftmost [at] that is followed by white space, also
    when that [at] is the end of another word. *)
Theorem extractCompanyFromSnippet_first_pattern_decides (snippet : string) :
  extractCompanyFromSnippet snippet
  = trim <$> firstMatch atPattern (list_ascii_of_string snippet).
Proof.
  unfold extractCompanyFromSnippet, patterns. simpl.
  destruct (firstMatch atPattern (list_ascii_of_string snippet)) as [g|] eqn:Hat.
  - by rewrite (firstMatch_truthy _ _ Hat).
  - rewrite (later_pattern_needs_at worksAtPattern _ worksAtPattern_at Hat).
    by rewrite (later_pattern_needs_at employedAtPattern _ employedAtPattern_at Hat).
Qed.

(** The company of a snippet that says where somebody works, and of one
    in which [at] ends another word. *)
Example extractCompanyFromSnippet_samples :
  extractCompanyFromSnippet "Jane works at Acme Corp. She leads the data team"
  = Some "Acme Corp"
  /\ extractCompanyFromSnippet "What we do for clients. Employed at Acme" = Some "we do for clients"
  /\ extractCompanyFromSnippet "Ten years of consulting" = None.
Proof. vm_compute. repeat split; reflexivity. Qed.

End Extraction.

(** ** The answer of the AI query expansion *)

Section Expansion.

Import AI Text QueryExpansion.

(** A character that the replacement of the text fallback removes
    wherever it stands. *)
Definition isMarker (c : ascii) : bool :=
  isChar "-" c || isChar "*" c || isChar (ascii_of_nat 34) c.

Lemma stripFrom_clean (skipping : bool) (line : list ascii) :
  Forall (fun c => isMarker c = false) (stripFrom skipping line).
Proof.
  revert skipping. induction line as [|c line IH]; intros skipping; simpl;
    [constructor|].
  destruct (skipping && isWhite c); [apply IH|].
  unfold isMarker.
  destruct (isChar "-" c || isChar "*" c) eqn:H1; [apply IH|].
  destruct (isChar (ascii_of_nat 34) c) eqn:H2; [apply IH|].
  constructor; [by rewrite H1, H2|apply IH].
Qed.

Lemma stripMarkers_clean (line : list ascii) :
  Forall (fun c => isMarker c = false) (stripMarkers line).
Proof.
  unfold stripMarkers.
  destruct (takeWhile isDigit line) as [|d ds];
    [apply stripFrom_clean|].
  destruct (dropWhile isDigit line) as [|c rest]; [apply stripFrom_clean|].
  destruct (ascii_dec c ".") as [->|Hne]; [apply stripFrom_clean|].
  destruct c as [[] [] [] [] [] [] [] []]; try done; apply stripFrom_clean.
Qed.

Lemma trim_elem (s : string) (c : ascii) :
  c ∈ list_ascii_of_string (trim s) -> c ∈ list_ascii_of_string s.
Proof.
  unfold trim. rewrite list_ascii_of_string_of_list_ascii.
  destruct (trimEnd_prefix (trimStart (list_ascii_of_string s))) as [post Hpost].
  destruct (dropWhile_suffix isWhite (list_ascii_of_string s)) as [pre Hpre].
  intros Hin. rewrite Hpre. apply elem_of_app. right.
  fold (trimStart (list_ascii_of_string s)). rewrite Hpost.
  apply elem_of_app. by left.
Qed.

(** X13.  How [parseQueryExpansionResponse] answers when the content is not
    the JSON object it asked for.  With a pair of braces in the content
    but a [JSON.parse] that throws, it answers no query at all, with
    confidence 0: it fails closed, where the parser of the filter answer
    fails open.  With no pair of braces it reads the queries from the
    lines of the text, with confidence 0.6, and every query it answers
    is a text that is not empty and holds no hyphen, no asterisk and no
    double quote: these characters are removed wherever they stand, also
    inside a word. *)
Theorem parseQueryExpansionResponse_without_json (JSON_parse : string -> option json)
    (content : string) :
  (forall jsonMatch,
     matchBraces content = Some jsonMatch -> JSON_parse jsonMatch = None ->
     parseQueryExpansionResponse JSON_parse content
     = mkExpansion (JArray []) (JNumber 0) (Some (JString "Failed to parse response")))
  /\ (matchBraces content = None ->
      parseQueryExpansionResponse JSON_parse content
      = mkExpansion (JArray (map JString (textQueries content))) (JNumber (6 # 10))
                    (Some (JString "Parsed from text format"))
      /\ Forall (fun query =>
                   query <> EmptyString
                   /\ Forall (fun c => isMarker c = false) (list_ascii_of_string query))
                (textQueries content)).
Proof.
  unfold parseQueryExpansionResponse, tryParse. split.
  - intros jsonMatch -> Hparse. by rewrite Hparse.
  - intros ->. split; [done|].
    unfold textQueries. apply Forall_forall. intros query Hq.
    apply list_elem_of_filter in Hq as [Hlen Hq]. split.
    { intros ->. simpl in Hlen. lia. }
    change (map ?f ?l) with (f <$> l) in Hq.
    apply list_elem_of_fmap in Hq as (line & -> & _).
    apply Forall_forall. intros c Hc. apply trim_elem in Hc.
    rewrite list_ascii_of_string_of_list_ascii in Hc.
    pose proof (stripMarkers_clean (list_ascii_of_string line)) as Hclean.
    rewrite Forall_forall in Hclean. by apply Hclean.
Qed.

(** A numbered list, a bullet with a hyphenated word, a line without a
    marker and a line that multiplies. *)
Example textQueries_sample :
  textQueries
    (String.append "1. senior data engineer"
       (String (ascii_of_nat 10)
          (String.append "- full-stack developer"
             (String (ascii_of_nat 10)
                (String.append "some remarks"
                   (String (ascii_of_nat 10) "C* or C-- programmer"))))))
  = ["senior data engineer"; "fullstack developer"; "Cor Cprogrammer"].
Proof. vm_compute. reflexivity. Qed.

End Expansion.

(** ** The answer of the AI filter, read as indices *)

Section FilterSelection.

Import AI.

Variable JSON_parse : string -> option json.

(** The results that a list of whole numbers selects: each index that
    is a position of the array, in the order of the list and as often as
    it stands there. *)
Definition selected (indices : list Z) (originalResults : list SearchResult.t)
    : list SearchResult.t :=
  omap (fun i => if decide (0 <= i < Z.of_nat (length originalResults))%Z
                 then originalResults !! Z.to_nat i else None)
       indices.

Lemma selectEntries_whole (indices : list Z) (originalResults : list SearchResult.t) :
  selectEntries (map (fun i => JNumber (inject_Z i)) indices) originalResults
  = map Some (selected indices originalResults).
Proof.
  unfold selectEntries, selected.
  induction indices as [|i indices IH]; [done|].
  cbn [map omap list_omap asIndex]. rewrite IH. clear IH.
  rewrite Qfloor_Z.
  assert (Qeq_bool (inject_Z i) (inject_Z i) = true) as -> by (by apply Qeq_bool_iff).
  destruct (decide (0 <= i < Z.of_nat (length originalResults))%Z) as [[Hlo Hhi]|Hout].
  - assert (Qle_bool 0 (inject_Z i) = true) as ->.
    { apply Qle_bool_iff. change 0%Q with (inject_Z 0). by rewrite <- Zle_Qle. }
    assert (Qle_bool (inject_Z (Z.of_nat (length originalResults))) (inject_Z i) = false)
      as ->.
    { apply not_true_is_false. rewrite Qle_bool_iff, <- Zle_Qle. lia. }
    simpl.
    destruct (lookup_lt_is_Some_2 originalResults (Z.to_nat i) ltac:(lia)) as [x Hx].
    by rewrite Hx.
  - destruct (Qle_bool 0 (inject_Z i)) eqn:H0; [|done].
    apply Qle_bool_iff in H0. change 0%Q with (inject_Z 0) in H0.
    rewrite <- Zle_Qle in H0.
    assert (Qle_bool (inject_Z (Z.of_nat (length originalResults))) (inject_Z i) = true)
      as ->.
    { apply Qle_bool_iff. rewrite <- Zle_Qle. lia. }
    done.
Qed.

(** X14.  When the answer of the filter is a JSON object whose
    [relevantIndices] is a list of whole numbers that is not empty,
    [parseResultFilterResponse] answers the results at those indices, in
    the order of the answer and as often as an index is repeated; an
    index that is negative or not below the number of results is dropped
    without a word.  The count of removed results is the difference of
    the two lengths, which repetitions can make negative. *)
Theorem parseResultFilterResponse_selects_by_index (content jsonMatch : string)
    (members : list (string * json)) (i : Z) (indices : list Z)
    (originalResults : list SearchResult.t) :
  matchBraces content = Some jsonMatch ->
  JSON_parse jsonMatch = Some (JObject members) ->
  lastMember "relevantIndices" members
  = Some (JArray (map (fun i => JNumber (inject_Z i)) (i :: indices))) ->
  let response := parseResultFilterResponse JSON_parse content originalResults in
  filteredResults response = map Some (selected (i :: indices) originalResults)
  /\ removedCount response
     = (Z.of_nat (length originalResults)
        - Z.of_nat (length (selected (i :: indices) originalResults)))%Z
  /\ reasoning response = lastMember "reasoning" members.
Proof.
  intros Hmatch Hparse Hidx.
  unfold parseResultFilterResponse, tryParse.
  rewrite Hmatch, Hparse. simpl getProperty. rewrite Hidx.
  cbn [truthy]. rewrite selectEntries_whole. simpl.
  by rewrite length_map.
Qed.

End FilterSelection.

Section FilterSelectionSample.

Import AI.

(** An answer that names the second result twice, the first once, and
    two indices that are no positions of the two results: three results
    are answered, and the count of removed results is -1. *)
Definition repeatingAnswer : string :=
  "Here you go: {" ++ quoted "relevantIndices" ++ ": [1, 0, 1, 5, -2]}".

Lemma parseResultFilterResponse_selects_by_index_witness :
  let jane := resultAt "https://www.linkedin.com/in/jane" in
  let bob := resultAt "https://www.linkedin.com/in/bob" in
  let response := parseResultFilterResponse JSONText.parse repeatingAnswer [jane; bob] in
  filteredResults response = [Some bob; Some jane; Some bob]
  /\ removedCount response = (-1)%Z.
Proof.
  destruct (parseResultFilterResponse_selects_by_index JSONText.parse repeatingAnswer
              ("{" ++ quoted "relevantIndices" ++ ": [1, 0, 1, 5, -2]}")
              [("relevantIndices",
                JArray [JNumber 1; JNumber 0; JNumber 1; JNumber 5; JNumber (-2 # 1)])]
              1%Z [0; 1; 5; -2]%Z
              [resultAt "https://www.linkedin.com/in/jane";
               resultAt "https://www.linkedin.com/in/bob"])
    as (Hres & Hcount & _).
  - reflexivity.
  - reflexivity.
  - reflexivity.
  - cbv zeta. split; [exact Hres|exact Hcount].
Defined.

End FilterSelectionSample.

(** ** The matching of contacts *)

Section Similarity.

Import Text ApolloAPIClient.
Local Open Scope Q_scope.

Lemma splitWhiteFrom_length (inSeparator : bool) (s : list ascii) :
  (1 <= length (splitWhiteFrom inSeparator s))%nat.
Proof.
  revert inSeparator. induction s as [|c s IH]; intros inSeparator; simpl; [lia|].
  destruct (isWhite c).
  - destruct inSeparator; [apply IH|simpl; lia].
  - specialize (IH false). destruct (splitWhiteFrom false s); simpl in *; lia.
Qed.

Lemma splitWhite_length (s : string) : (1 <= length (splitWhite s))%nat.
Proof. apply splitWhiteFrom_length. Qed.

Lemma count_positive (b : nat) : (1 <= b)%nat -> 0 < inject_Z (Z.of_nat b).
Proof. intros Hb. change 0 with (inject_Z 0). rewrite <- Zlt_Qlt. lia. Qed.

Lemma div_counts_unit (a b : nat) :
  (a <= b)%nat -> (1 <= b)%nat ->
  exists q, Number.div_counts a b = Number.Num q /\ 0 <= q <= 1.
Proof.
  intros Hab Hb. pose proof (count_positive b Hb) as Hpos.
  destruct b as [|b]; [lia|]. simpl Number.div_counts.
  eexists. split; [reflexivity|]. split.
  - apply Qle_shift_div_l; [done|]. rewrite Qmult_0_l.
    change 0 with (inject_Z 0). rewrite <- Zle_Qle. lia.
  - apply Qle_shift_div_r; [done|]. rewrite Qmult_1_l. rewrite <- Zle_Qle. lia.
Qed.

Lemma div_counts_all (b : nat) :
  (1 <= b)%nat -> exists q, Number.div_counts b b = Number.Num q /\ q == 1.
Proof.
  intros Hb. pose proof (count_positive b Hb) as Hpos.
  destruct b as [|b]; [lia|]. simpl Number.div_counts.
  eexists. split; [reflexivity|].
  apply Qmult_inv_r. intros H. rewrite H in Hpos. by apply Qlt_irrefl in Hpos.
Qed.

Lemma Math_max_unit (x y : Number.t) :
  Number.in_unit_interval x -> Number.in_unit_interval y ->
  Number.in_unit_interval (Math_max x y).
Proof.
  destruct x as [a| |], y as [b| |]; simpl; try done.
  intros [Ha0 Ha1] [Hb0 Hb1].
  destruct (Q.max_spec a b) as [[_ ->]|[_ ->]]; by split.
Qed.

Lemma includes_empty (s : string) : Str.includes s EmptyString = true.
Proof. by destruct s. Qed.

(** X15.  The two measures of similarity always answer a number between 0
    and 1, never NaN: a text always splits into one word at least, so
    no quotient has the divisor 0. *)
Theorem similarities_in_unit_interval (text1 text2 : string) :
  Number.in_unit_interval (calculateNameSimilarity text1 text2)
  /\ Number.in_unit_interval (calculateStringSimilarity text1 text2).
Proof.
  split.
  - unfold calculateNameSimilarity.
    destruct (decide (normalizeName text1 = normalizeName text2)); [simpl; lra|].
    apply Math_max_unit.
    + destruct (div_counts_unit
                  (length (filter (fun word => someIncludes word
                                                 (splitWhite (normalizeName text2)) = true)
                                  (splitWhite (normalizeName text1))))
                  (length (splitWhite (normalizeName text1))))
        as (q & -> & Hq); [apply length_filter|apply splitWhite_length|exact Hq].
    + destruct (div_counts_unit
                  (length (filter (fun word => someIncludes word
                                                 (splitWhite (normalizeName text1)) = true)
                                  (splitWhite (normalizeName text2))))
                  (length (splitWhite (normalizeName text2))))
        as (q & -> & Hq); [apply length_filter|apply splitWhite_length|exact Hq].
  - unfold calculateStringSimilarity.
    destruct (decide (normalizeText text1 = normalizeText text2)); [simpl; lra|].
    destruct (Str.includes _ _ || Str.includes _ _); [simpl; lra|].
    destruct (div_counts_unit
                (length (filter (fun word => word ∈ splitWhite (normalizeText text2))
                                (splitWhite (normalizeText text1))))
                (Nat.max (length (splitWhite (normalizeText text1)))
                         (length (splitWhite (normalizeText text2)))))
      as (q & -> & Hq); [| |exact Hq].
    + etransitivity; [apply length_filter|]. lia.
    + pose proof (splitWhite_length (normalizeText text1)). lia.
Qed.

(** X16.  A name that has no letter from a to z left after it is normalized
    (a name in digits, say, or in another script) has the similarity 1
    with every name, on whichever side it stands: its one word is the
    empty string, which every word includes. *)
Theorem calculateNameSimilarity_of_letterless_name (name other : string) :
  normalizeName name = EmptyString ->
  (exists q, calculateNameSimilarity name other = Number.Num q /\ q == 1)
  /\ (exists q, calculateNameSimilarity other name = Number.Num q /\ q == 1).
Proof.
  intros Hempty.
  assert (Hsome : forall words, (1 <= length words)%nat ->
                                someIncludes EmptyString words = true).
  { intros [|w words] Hlen; [simpl in Hlen; lia|].
    simpl. by rewrite includes_empty. }
  assert (Hall : forall words : list string,
            filter (fun word => someIncludes word [EmptyString] = true) words = words).
  { intros words. induction words as [|w words IH]; [done|].
    rewrite filter_cons_True; [by rewrite IH|].
    simpl. by rewrite includes_empty, orb_true_r. }
  assert (Hmax : forall k, (1 <= k)%nat ->
            (exists q, Math_max (Number.div_counts 1 1) (Number.div_counts k k)
                       = Number.Num q /\ q == 1)
            /\ (exists q, Math_max (Number.div_counts k k) (Number.div_counts 1 1)
                          = Number.Num q /\ q == 1)).
  { intros k Hk. destruct (div_counts_all k Hk) as (q & -> & Hq).
    destruct (div_counts_all 1 ltac:(lia)) as (q1 & -> & Hq1).
    split; simpl; eexists; (split; [reflexivity|]).
    - destruct (Q.max_spec q1 q) as [[_ ->]|[_ ->]]; done.
    - destruct (Q.max_spec q q1) as [[_ ->]|[_ ->]]; done. }
  unfold calculateNameSimilarity. rewrite Hempty.
  change (splitWhite EmptyString) with [EmptyString].
  pose proof (splitWhite_length (normalizeName other)) as Hlen.
  specialize (Hmax _ Hlen). destruct Hmax as [Hleft Hright].
  split.
  - destruct (decide (EmptyString = normalizeName other)); [by exists 1|].
    rewrite Hall. rewrite filter_cons_True by (by apply Hsome).
    rewrite filter_nil. exact Hleft.
  - destruct (decide (normalizeName other = EmptyString)); [by exists 1|].
    rewrite Hall. rewrite filter_cons_True by (by apply Hsome).
    rewrite filter_nil. exact Hright.
Qed.

Lemma calculateNameSimilarity_of_letterless_name_witness :
  exists q, calculateNameSimilarity "2024" "Jane Doe" = Number.Num q /\ q == 1.
Proof.
  destruct (calculateNameSimilarity_of_letterless_name "2024" "Jane Doe" eq_refl)
    as [H _].
  exact H.
Defined.

End Similarity.

Section BestMatch.

Import ApolloAPIClient.
Local Open Scope Q_scope.

(** The loop of [findBestMatch] for a score that is a rational number:
    the best of the contacts seen, and the first of them among equals. *)
Section Fold.

Variable f : ApolloContact -> Q.

Definition leading (seen : list ApolloContact) (best : option ApolloContact * Number.t)
    : Prop :=
  exists b,
    snd best = Number.Num b
    /\ (forall c, c ∈ seen -> f c <= b)
    /\ match fst best with
       | None => b = 0
       | Some contact =>
           0 < b /\ b = f contact
           /\ exists i, seen !! i = Some contact
                        /\ forall j c, (j < i)%nat -> seen !! j = Some c -> f c < b
       end.

Lemma better_leading (seen : list ApolloContact) (best : option ApolloContact * Number.t)
    (contact : ApolloContact) :
  leading seen best ->
  leading (seen ++ [contact]) (better (fun c => Number.Num (f c)) best contact).
Proof.
  intros (b & Hb & Hall & Hbest). unfold better. rewrite Hb. simpl.
  destruct (Qle_bool (f contact) b) eqn:Hle; simpl.
  - apply Qle_bool_iff in Hle. exists b. split; [exact Hb|]. split.
    + intros c Hc. apply elem_of_app in Hc as [Hc|Hc]; [by apply Hall|].
      apply list_elem_of_singleton in Hc as ->. exact Hle.
    + destruct (fst best) as [c0|]; [|exact Hbest].
      destruct Hbest as (Hpos & Hf & i & Hi & Hbefore).
      split; [exact Hpos|]. split; [exact Hf|]. exists i. split.
      * by apply lookup_app_l_Some.
      * intros j c Hj Hc. apply (Hbefore j c Hj).
        rewrite lookup_app_l in Hc; [exact Hc|].
        apply lookup_lt_Some in Hi. lia.
  - assert (b < f contact) as Hlt.
    { apply Qnot_le_lt. intros H. apply Qle_bool_iff in H. congruence. }
    assert (0 <= b) as Hb0.
    { destruct (fst best); [|rewrite Hbest; apply Qle_refl].
      destruct Hbest as (Hpos & _). by apply Qlt_le_weak. }
    exists (f contact). split; [done|]. split.
    + intros c Hc. apply elem_of_app in Hc as [Hc|Hc].
      * apply Qlt_le_weak. eapply Qle_lt_trans; [by apply Hall|exact Hlt].
      * apply list_elem_of_singleton in Hc as ->. apply Qle_refl.
    + split; [by eapply Qle_lt_trans|]. split; [done|].
      exists (length seen). split; [by rewrite list_lookup_middle|].
      intros j c Hj Hc. rewrite lookup_app_l in Hc by done.
      eapply Qle_lt_trans; [|exact Hlt]. apply Hall.
      apply list_elem_of_lookup. by exists j.
Qed.

Lemma fold_leading (rest seen : list ApolloContact) (best : option ApolloContact * Number.t) :
  leading seen best ->
  leading (seen ++ rest) (fold_left (better (fun c => Number.Num (f c))) rest best).
Proof.
  revert seen best. induction rest as [|contact rest IH]; intros seen best Hl.
  - by rewrite app_nil_r.
  - simpl. rewrite (cons_middle contact seen rest), app_assoc.
    apply IH. by apply better_leading.
Qed.

End Fold.

(** The score of a contact as a rational number. *)
Definition points (targetName : string) (targetCompany targetEmail targetLinkedinUrl : option string)
    (contact : ApolloContact) : Q :=
  match scoreOf targetName targetCompany targetEmail targetLinkedinUrl contact with
  | Number.Num q => q
  | _ => 0
  end.

Lemma scale_unit (x : Number.t) (c : Q) :
  Number.in_unit_interval x -> 0 <= c ->
  exists q, Number.scale x c = Number.Num q /\ 0 <= q <= c.
Proof.
  destruct x as [a| |]; simpl; try done. intros [H0 H1] Hc.
  eexists. split; [reflexivity|]. split.
  - by apply Qmult_le_0_compat.
  - rewrite <- (Qmult_1_l c) at 2. by apply Qmult_le_compat_r.
Qed.

Lemma scoreOf_points (targetName : string)
    (targetCompany targetEmail targetLinkedinUrl : option string) (contact : ApolloContact) :
  scoreOf targetName targetCompany targetEmail targetLinkedinUrl contact
  = Number.Num (points targetName targetCompany targetEmail targetLinkedinUrl contact)
  /\ 0 <= points targetName targetCompany targetEmail targetLinkedinUrl contact
  /\ (JS.spread_truthy targetCompany = None -> JS.spread_truthy targetEmail = None ->
      JS.spread_truthy targetLinkedinUrl = None ->
      points targetName targetCompany targetEmail targetLinkedinUrl contact <= 5 # 10).
Proof.
  unfold points, scoreOf.
  assert (Hname : exists q1,
            match JS.spread_truthy (name contact) with
            | Some contactName =>
                Number.add (Number.Num 0)
                  (Number.scale (calculateNameSimilarity contactName targetName) (5 # 10))
            | None => Number.Num 0
            end = Number.Num q1 /\ 0 <= q1 <= 5 # 10).
  { destruct (JS.spread_truthy (name contact)) as [contactName|].
    - destruct (scale_unit (calculateNameSimilarity contactName targetName) (5 # 10))
        as (q & -> & Hq); [apply similarities_in_unit_interval|lra|].
      simpl. eexists. split; [reflexivity|]. lra.
    - exists 0. split; [done|]. lra. }
  destruct Hname as (q1 & -> & Hq1).
  assert (Hcompany : exists q2,
            match JS.spread_truthy targetCompany, JS.spread_truthy (company contact) with
            | Some target, Some contactCompany =>
                Number.add (Number.Num q1)
                  (Number.scale (calculateStringSimilarity contactCompany target) (3 # 10))
            | _, _ => Number.Num q1
            end = Number.Num q2
            /\ q1 <= q2 /\ (JS.spread_truthy targetCompany = None -> q2 = q1)).
  { destruct (JS.spread_truthy targetCompany) as [target|];
      [|exists q1; split; [done|]; split; [lra|done]].
    destruct (JS.spread_truthy (company contact)) as [contactCompany|];
      [|exists q1; split; [done|]; split; [lra|done]].
    destruct (scale_unit (calculateStringSimilarity contactCompany target) (3 # 10))
      as (q & -> & Hq); [apply similarities_in_unit_interval|lra|].
    simpl. eexists. split; [reflexivity|]. split; [lra|discriminate]. }
  destruct Hcompany as (q2 & -> & Hq2 & Hsame2).
  assert (Hemail : exists q3,
            match JS.spread_truthy targetEmail, JS.spread_truthy (email contact) with
            | Some target, Some contactEmail =>
                if decide (Str.toLowerCase contactEmail = Str.toLowerCase target)
                then Number.add (Number.Num q2) (Number.Num (4 # 10)) else Number.Num q2
            | _, _ => Number.Num q2
            end = Number.Num q3
            /\ q2 <= q3 /\ (JS.spread_truthy targetEmail = None -> q3 = q2)).
  { destruct (JS.spread_truthy targetEmail) as [target|];
      [|exists q2; split; [done|]; split; [lra|done]].
    destruct (JS.spread_truthy (email contact)) as [contactEmail|];
      [|exists q2; split; [done|]; split; [lra|done]].
    destruct (decide _);
      [|exists q2; split; [done|]; split; [lra|done]].
    simpl. eexists. split; [reflexivity|]. split; [lra|discriminate]. }
  destruct Hemail as (q3 & -> & Hq3 & Hsame3).
  assert (Hurl : exists q4,
            match JS.spread_truthy targetLinkedinUrl,
                  JS.spread_truthy (linkedinUrl contact) with
            | Some target, Some contactUrl =>
                if decide (contactUrl = target)
                then Number.add (Number.Num q3) (Number.Num (3 # 10)) else Number.Num q3
            | _, _ => Number.Num q3
            end = Number.Num q4
            /\ q3 <= q4 /\ (JS.spread_truthy targetLinkedinUrl = None -> q4 = q3)).
  { destruct (JS.spread_truthy targetLinkedinUrl) as [target|];
      [|exists q3; split; [done|]; split; [lra|done]].
    destruct (JS.spread_truthy (linkedinUrl contact)) as [contactUrl|];
      [|exists q3; split; [done|]; split; [lra|done]].
    destruct (decide _);
      [|exists q3; split; [done|]; split; [lra|done]].
    simpl. eexists. split; [reflexivity|]. split; [lra|discriminate]. }
  destruct Hurl as (q4 & -> & Hq4 & Hsame4).
  split; [done|]. split; [lra|].
  intros H2 H3 H4. rewrite (Hsame4 H4), (Hsame3 H3), (Hsame2 H2). lra.
Qed.

Lemma findBestMatch_fold (contacts : list ApolloContact) (targetName : string)
    (targetCompany targetEmail targetLinkedinUrl : option string) :
  leading (points targetName targetCompany targetEmail targetLinkedinUrl) contacts
    (fold_left (better (scoreOf targetName targetCompany targetEmail targetLinkedinUrl))
               contacts (None, Number.Num 0)).
Proof.
  assert (Hext : forall best c,
            better (scoreOf targetName targetCompany targetEmail targetLinkedinUrl) best c
            = better (fun c => Number.Num
                                 (points targetName targetCompany targetEmail
                                    targetLinkedinUrl c)) best c).
  { intros best c. unfold better.
    by destruct (scoreOf_points targetName targetCompany targetEmail targetLinkedinUrl c)
      as [-> _]. }
  assert (Hfold : forall l best,
            fold_left (better (scoreOf targetName targetCompany targetEmail
                                 targetLinkedinUrl)) l best
            = fold_left (better (fun c => Number.Num
                                            (points targetName targetCompany targetEmail
                                               targetLinkedinUrl c))) l best).
  { induction l as [|c l IH]; intros best; [done|]. simpl. by rewrite Hext, IH. }
  rewrite Hfold.
  apply (fold_leading _ contacts []).
  exists 0. split; [done|]. split; [|done].
  intros c Hc. by apply elem_of_nil in Hc.
Qed.

(** The similarity of the names counts for one half at most, below the
    threshold of 0.6. *)
Lemma findBestMatch_name_only (contacts : list ApolloContact)
    (targetName : string) (targetCompany targetEmail targetLinkedinUrl : option string) :
  JS.spread_truthy targetCompany = None ->
  JS.spread_truthy targetEmail = None ->
  JS.spread_truthy targetLinkedinUrl = None ->
  findBestMatch contacts targetName targetCompany targetEmail targetLinkedinUrl = None.
Proof.
  intros H2 H3 H4. unfold findBestMatch.
  pose proof (findBestMatch_fold contacts targetName targetCompany targetEmail
                targetLinkedinUrl) as (b & Hb & Hall & Hbest).
  destruct contacts as [|c0 contacts'] eqn:Hcs; [done|].
  rewrite <- Hcs in *. clear Hcs.
  rewrite Hb. simpl gt.
  destruct (Qle_bool b (6 # 10)) eqn:Hle; simpl; [done|].
  destruct (fst (fold_left _ contacts _)) as [best|]; [|done].
  destruct Hbest as (_ & -> & _).
  destruct (scoreOf_points targetName targetCompany targetEmail targetLinkedinUrl best)
    as (_ & _ & Hhalf).
  specialize (Hhalf H2 H3 H4).
  assert (Qle_bool (points targetName targetCompany targetEmail targetLinkedinUrl best)
                   (6 # 10) = true) as Hle'.
  { apply Qle_bool_iff. lra. }
  congruence.
Qed.

(** X17.  The name alone never makes a match.  When no company, no e-mail
    address and no profile address is given to compare (or only empty
    ones), [enrichContact] on a configured client answers null, whatever
    the name and whatever contacts the search of the API returns:
    [findBestMatch] answers null for every list, since the similarity of
    the names counts for one half at most, below its threshold of
    0.6. *)
Theorem enrichContact_needs_more_than_the_name
    (getPersonByEmail : string -> ApolloAPIError + option ApolloContact)
    (searchPeople : ApolloSearchParams -> ApolloAPIError + list ApolloContact)
    (contacts : list ApolloContact) (targetName : string)
    (targetCompany targetEmail targetLinkedinUrl : option string) :
  JS.spread_truthy targetCompany = None ->
  JS.spread_truthy targetEmail = None ->
  JS.spread_truthy targetLinkedinUrl = None ->
  findBestMatch contacts targetName targetCompany targetEmail targetLinkedinUrl = None
  /\ enrichContact true getPersonByEmail searchPeople targetName targetCompany targetEmail
       targetLinkedinUrl = inr None.
Proof.
  intros H2 H3 H4. split; [by apply findBestMatch_name_only|].
  unfold enrichContact. rewrite H3.
  destruct (searchPeople _) as [e|found]; [done|].
  by rewrite findBestMatch_name_only.
Qed.

Definition janeDoe : ApolloContact :=
  mkContact (Some "c-1") (Some "Jane") (Some "Doe") (Some "Jane Doe") (Some "CTO")
    (Some "Acme") (Some "jane@acme.example") None
    (Some "https://www.linkedin.com/in/jane-doe") None None None.

(** The search returns a contact of the very name that is looked for,
    and an empty company is given: no match. *)
Lemma enrichContact_needs_more_than_the_name_witness :
  findBestMatch [janeDoe] "Jane Doe" (Some EmptyString) None None = None
  /\ enrichContact true (fun _ => inr None) (fun _ => inr [janeDoe]) "Jane Doe"
       (Some EmptyString) None None = inr None.
Proof.
  apply enrichContact_needs_more_than_the_name; reflexivity.
Defined.

(** With the company as well the same contact is found. *)
Example findBestMatch_with_company :
  findBestMatch [janeDoe] "Jane Doe" (Some "ACME Inc.") None None = Some janeDoe.
Proof. vm_compute. reflexivity. Qed.

(** X18.  [enrichContact] on a configured client never rejects: a failure of
    the lookup by e-mail address leads on to the search, and a failure
    of the search is answered as null, like a search without a match.
    A contact that the lookup finds is answered as it is, without a
    search.  On a client that is not configured it rejects at once. *)
Theorem enrichContact_never_rejects
    (getPersonByEmail : string -> ApolloAPIError + option ApolloContact)
    (searchPeople : ApolloSearchParams -> ApolloAPIError + list ApolloContact)
    (targetName : string) (targetCompany targetEmail targetLinkedinUrl : option string) :
  let answer :=
    enrichContact true getPersonByEmail searchPeople targetName targetCompany targetEmail
      targetLinkedinUrl in
  (exists found, answer = inr found)
  /\ (forall address contact,
        JS.spread_truthy targetEmail = Some address ->
        getPersonByEmail address = inr (Some contact) ->
        answer = inr (Some contact))
  /\ ((forall params e, searchPeople params <> inr e) ->
      (forall address contact, getPersonByEmail address <> inr (Some contact)) ->
      answer = inr None)
  /\ (exists e,
        enrichContact false getPersonByEmail searchPeople targetName targetCompany
          targetEmail targetLinkedinUrl = inl e).
Proof.
  intros answer. unfold answer, enrichContact.
  split; [|split; [|split; [|by eexists]]].
  - destruct (JS.spread_truthy targetEmail) as [address|].
    + destruct (getPersonByEmail address) as [e|[contact|]]; try (by eexists);
        destruct (searchPeople _); by eexists.
    + destruct (searchPeople _); by eexists.
  - intros address contact -> Hfound. by rewrite Hfound.
  - intros Hsearch Hlookup.
    assert (forall params, exists e, searchPeople params = inl e) as Hfails.
    { intros params. destruct (searchPeople params) as [e|cs] eqn:H; [by exists e|].
      by apply Hsearch in H. }
    destruct (JS.spread_truthy targetEmail) as [address|].
    + destruct (getPersonByEmail address) as [e|[contact|]] eqn:Hl.
      * destruct (Hfails (mkParams
                            (if (2 <=? length (Str.split " " (Text.trim targetName)))%nat
                             then Some [targetName] else None)
                            match JS.spread_truthy targetCompany with
                            | Some c => Some [c]
                            | None => None
                            end None None None None (Some 5%Z) None)) as [e' ->].
        done.
      * by apply Hlookup in Hl.
      * destruct (Hfails (mkParams
                            (if (2 <=? length (Str.split " " (Text.trim targetName)))%nat
                             then Some [targetName] else None)
                            match JS.spread_truthy targetCompany with
                            | Some c => Some [c]
                            | None => None
                            end None None None None (Some 5%Z) None)) as [e' ->].
        done.
    + destruct (Hfails (mkParams
                          (if (2 <=? length (Str.split " " (Text.trim targetName)))%nat
                           then Some [targetName] else None)
                          match JS.spread_truthy targetCompany with
                          | Some c => Some [c]
                          | None => None
                          end None None None None (Some 5%Z) None)) as [e' ->].
      done.
Qed.

End BestMatch.

(** ** The search engines and their manager *)

Section StringFacts.

Local Open Scope string_scope.

Lemma startsWith_refl (s : string) : Str.startsWith s s = true.
Proof.
  induction s as [|c s IH]; [done|]. simpl. by destruct (ascii_dec c c).
Qed.

Lemma startsWith_app (s sub rest : string) :
  Str.startsWith s sub = true -> Str.startsWith (s ++ rest) sub = true.
Proof.
  revert s. induction sub as [|a sub IH]; intros s.
  { intros _. by destruct (s ++ rest). }
  destruct s as [|b s]; simpl; [discriminate|].
  destruct (ascii_dec a b); [apply IH|discriminate].
Qed.

Lemma includes_app_l (s sub rest : string) :
  Str.includes s sub = true -> Str.includes (s ++ rest) sub = true.
Proof.
  induction s as [|c s IH].
  - destruct sub as [|a sub]; [intros _; apply includes_empty|discriminate].
  - intros Hs. change (String c s ++ rest) with (String c (s ++ rest)).
    cbn [Str.includes] in *.
    destruct (Str.startsWith (String c s) sub) eqn:H.
    + change (String c (s ++ rest)) with (String c s ++ rest).
      by rewrite (startsWith_app _ _ rest H).
    + destruct (Str.startsWith (String c (s ++ rest)) sub); [done|]. by apply IH.
Qed.

Lemma includes_app_r (pre s sub : string) :
  Str.includes s sub = true -> Str.includes (pre ++ s) sub = true.
Proof.
  intros Hs. induction pre as [|c pre IH]; [done|].
  change (String c pre ++ s) with (String c (pre ++ s)).
  cbn [Str.includes]. destruct (Str.startsWith _ sub); [done|exact IH].
Qed.

Lemma includes_refl (s : string) : Str.includes s s = true.
Proof. destruct s; [done|]. cbn [Str.includes]. by rewrite startsWith_refl. Qed.

End StringFacts.

Section Google.

Import GoogleSearchEngine.
Local Open Scope string_scope.

Lemma includes_inQuotes (s : string) : Str.includes (inQuotes s) s = true.
Proof.
  unfold inQuotes. apply (includes_app_r (String (ascii_of_nat 34) EmptyString)).
  apply includes_app_l, includes_refl.
Qed.

(** X19.  The search string that [buildSearchString] makes begins with the
    query, holds the operator [site:] and holds the location, when one
    is given; and it is stable: building from it again, with the same
    location, adds nothing. *)
Theorem buildSearchString_is_stable (query : SearchQuery.t) :
  let searchString := buildSearchString query in
  Str.startsWith searchString (SearchQuery.query query) = true
  /\ Str.includes searchString "site:" = true
  /\ (forall location,
        JS.spread_truthy (SearchQuery.location query) = Some location ->
        Str.includes searchString location = true)
  /\ buildSearchString
       (SearchQuery.mk searchString (SearchQuery.location query)
          (SearchQuery.maxResults query) (SearchQuery.language query)
          (SearchQuery.dateRestrict query))
     = searchString.
Proof.
  unfold buildSearchString. simpl.
  set (q := SearchQuery.query query).
  set (sited := if Str.includes q "site:" then q else q ++ " site:linkedin.com/in/").
  assert (Hstart : Str.startsWith sited q = true).
  { unfold sited. destruct (Str.includes q "site:");
      [apply startsWith_refl|apply startsWith_app, startsWith_refl]. }
  assert (Hsite : Str.includes sited "site:" = true).
  { unfold sited. destruct (Str.includes q "site:") eqn:H; [exact H|].
    apply includes_app_r. reflexivity. }
  destruct (JS.spread_truthy (SearchQuery.location query)) as [location|].
  - destruct (Str.includes sited location) eqn:Hloc.
    + split; [exact Hstart|]. split; [exact Hsite|]. split.
      * intros l H. by injection H as <-.
      * by rewrite Hsite, Hloc.
    + assert (Hin : Str.includes (sited ++ " " ++ inQuotes location) location = true).
      { apply includes_app_r, (includes_app_r " "), includes_inQuotes. }
      split; [by apply startsWith_app|]. split; [by apply includes_app_l|]. split.
      * intros l H. by injection H as <-.
      * rewrite (includes_app_l _ _ _ Hsite). by rewrite Hin.
  - split; [exact Hstart|]. split; [exact Hsite|]. split; [discriminate|].
    by rewrite Hsite.
Qed.

End Google.

Section Manager.

Import SearchEngine SearchEngineManager.

Variable URL_parse : string -> option Engines.URL.

(** X20.  With the two engines that the manager is built with, a search
    never rejects, whichever of them is asked for and whether Google is
    configured or not.  The fallback engine answers no result; a search
    of Google that ends with an exception (no configuration, the rate
    limit, a failure of the request) is answered by the fallback engine,
    so it is answered as an empty list too; a search of Google that
    succeeds is answered without duplicates.  Without a name, or with an
    empty one, the primary engine is asked, which is Google exactly when
    it is configured.  Any other name is rejected. *)
Theorem search_with_the_builtin_engines
    (googleSearchConfig : option GoogleSearchEngine.SearchEngineConfig)
    (env : SearchQuery.t -> GoogleSearchEngine.Environment) (query : SearchQuery.t) :
  let m := new googleSearchConfig env in
  let config := GoogleSearchEngine.config_of None googleSearchConfig in
  let ofGoogle :=
    match GoogleSearchEngine.search config (env query) query with
    | inr found => inr (Engines.deduplicateResults URL_parse found)
    | inl _ => inr []
    end in
  search URL_parse m query (Some "fallback") = inr []
  /\ search URL_parse m query (Some "google") = ofGoogle
  /\ search URL_parse m query None
     = (if GoogleSearchEngine.isConfigured config then ofGoogle else inr [])
  /\ search URL_parse m query (Some EmptyString) = search URL_parse m query None
  /\ (forall results, ofGoogle = inr results ->
        NoDup (map (fun r => Engines.normalizeUrl URL_parse (SearchResult.url r)) results))
  /\ (forall name, name <> "google" -> name <> "fallback" -> name <> EmptyString ->
        search URL_parse m query (Some name)
        = inl (mkError ("Search engine not found: " ++ name)%string name None)).
Proof.
  intros m config ofGoogle. subst m. unfold new. fold config. clearbody config.
  set (m := mk _ _).
  assert (Hgoogle : search URL_parse m query (Some "google") = ofGoogle).
  { unfold search, getEngine, m, ofGoogle; simpl.
    by destruct (GoogleSearchEngine.search config (env query) query). }
  assert (Hfallback : search URL_parse m query (Some "fallback") = inr []).
  { reflexivity. }
  assert (Hprimary : search URL_parse m query None
                     = (if GoogleSearchEngine.isConfigured config then ofGoogle
                        else inr [])).
  { rewrite <- Hgoogle. unfold search, getEngine, m; simpl.
    by destruct (GoogleSearchEngine.isConfigured config). }
  split; [exact Hfallback|]. split; [exact Hgoogle|]. split; [exact Hprimary|].
  split; [reflexivity|]. split.
  - intros results. unfold ofGoogle.
    destruct (GoogleSearchEngine.search config (env query) query) as [e|found];
      intros H; injection H as <-; [constructor|].
    apply dedup_NoDup.
  - intros name Hg Hf He. unfold search, getEngine, m.
    assert (JS.spread_truthy (Some name) = Some name) as ->.
    { destruct name; [done|reflexivity]. }
    simpl. rewrite decide_False by (intros H; by apply Hg).
    by rewrite decide_False by (intros H; by apply Hf).
Qed.

End Manager.

(** ** The export of profiles as CSV *)

Section Csv.

Import ExportResults.
Local Open Scope string_scope.

(** How often a character stands in a text. *)
Fixpoint occurrences (c : ascii) (s : string) : nat :=
  match s with
  | EmptyString => 0
  | String d s' => (if ascii_dec d c then 1 else 0) + occurrences c s'
  end.

Lemma split_length (sep : ascii) (s : string) :
  length (Str.split sep s) = Datatypes.S (occurrences sep s).
Proof.
  induction s as [|c s IH]; [done|]. simpl.
  destruct (ascii_dec c sep); simpl; [by rewrite IH|].
  destruct (Str.split sep s); simpl in *; lia.
Qed.

Lemma occurrences_app (c : ascii) (s1 s2 : string) :
  occurrences c (s1 ++ s2) = (occurrences c s1 + occurrences c s2)%nat.
Proof.
  induction s1 as [|d s1 IH]; [done|]. simpl. rewrite IH. lia.
Qed.

(** The number of commas in the values of a profile. *)
Definition commas (p : Profile) : nat :=
  list_sum (map (occurrences ",") (csvValues p)).

(** X21.  The export as CSV neither quotes nor escapes a value.  The row of a
    profile, cut at its commas as a reader of CSV does, has seven
    fields and one more for every comma that stands in a value: it has
    the seven fields of the header exactly when no value of the profile
    holds a comma. *)
Theorem csvRow_is_not_quoted (p : Profile) :
  length (Str.split "," (csvRow p)) = (7 + commas p)%nat
  /\ (length (Str.split "," (csvRow p)) = length csvHeaders
      <-> Forall (fun value => occurrences "," value = 0%nat) (csvValues p)).
Proof.
  assert (Hrow : length (Str.split "," (csvRow p)) = (7 + commas p)%nat).
  { rewrite split_length. unfold csvRow, commas, csvValues. simpl join.
    rewrite !occurrences_app. simpl. lia. }
  split; [exact Hrow|]. rewrite Hrow. unfold commas, csvValues. simpl.
  rewrite !Forall_cons, Forall_nil. lia.
Qed.

Example csvRow_with_a_comma :
  Str.split ","
    (csvRow (mkProfile "Jane Doe" (Some "CTO, Co-founder") (Some "Acme") None
               "https://www.linkedin.com/in/jane-doe" None None))
  = ["Jane Doe"; "CTO"; " Co-founder"; "Acme"; "";
     "https://www.linkedin.com/in/jane-doe"; ""; ""].
Proof. vm_compute. reflexivity. Qed.

End Csv.

(** ** The score of a result, away from the empty list of terms *)

Section Relevance.

Import Engines.

(** X22.  A query that has a word of more than two characters gives every
    item a score that is a number between one half and one: the
    division by the number of terms is a division by a positive
    number. *)
Theorem calculateRelevanceScore_of_a_query_with_a_long_word (item : Item)
    (query : SearchQuery.t) (word : string) :
  word ∈ Str.split " " (Str.toLowerCase (SearchQuery.query query)) ->
  (2 < String.length word)%nat ->
  exists q, calculateRelevanceScore item query = Number.Num q /\ (1 # 2 <= q)%Q /\ (q <= 1)%Q.
Proof.
  intros Hword Hlong. apply calculateRelevanceScore_with_terms.
  intros Hnil.
  assert (Hin : word ∈ queryTerms query).
  { unfold queryTerms. apply list_elem_of_filter. by split. }
  rewrite Hnil in Hin. by apply elem_of_nil in Hin.
Qed.

Lemma calculateRelevanceScore_of_a_query_with_a_long_word_witness :
  exists q,
    calculateRelevanceScore
      (mkItem (Some "Jane Doe - Data Analyst - Acme | LinkedIn")
              (Some "Jane Doe is a data analyst at Acme.")
              (Some "https://www.linkedin.com/in/jane-doe"))
      (SearchQuery.mk "Data analyst" None (Some 10%Z) None None)
    = Number.Num q /\ (1 # 2 <= q)%Q /\ (q <= 1)%Q.
Proof.
  apply (calculateRelevanceScore_of_a_query_with_a_long_word _ _ "analyst").
  - vm_compute. set_solver.
  - vm_compute. lia.
Defined.

End Relevance.

(** ** The configuration and the AI providers *)

From Stdlib Require DecimalPos DecimalZ.

Section Numbers.

Import Text Config.

Lemma list_ascii_of_string_app (s1 s2 : string) :
  list_ascii_of_string (s1 ++ s2) = list_ascii_of_string s1 ++ list_ascii_of_string s2.
Proof. induction s1 as [|c s1 IH]; [done|]. simpl. by rewrite IH. Qed.

Lemma takeWhile_app (p : ascii -> bool) (s rest : list ascii) :
  Forall (fun c => p c = true) s ->
  match rest with c :: _ => p c = false | [] => True end ->
  takeWhile p (s ++ rest) = s.
Proof.
  intros Hs Hrest. induction Hs as [|c s Hc Hs IH]; simpl.
  - destruct rest as [|c rest]; [done|]. simpl. by rewrite Hrest.
  - by rewrite Hc, IH.
Qed.

(** The digits that write a number. *)
Lemma string_of_uint_digits (d : Decimal.uint) :
  Forall (fun c => isDigit c = true)
         (list_ascii_of_string (DecimalString.NilEmpty.string_of_uint d)).
Proof. induction d; simpl; constructor; done. Qed.

Lemma digitsValue_acc (d : Decimal.uint) (acc : positive) :
  digitsValue (list_ascii_of_string (DecimalString.NilEmpty.string_of_uint d)) (Z.pos acc)
  = Z.pos (Pos.of_uint_acc d acc).
Proof.
  revert acc. induction d; intros acc; simpl; [done|..];
    match goal with
    | |- digitsValue _ ?x = Z.pos (Pos.of_uint_acc _ ?a) =>
        replace x with (Z.pos a) by lia
    end; apply IHd.
Qed.

Lemma digitsValue_uint (d : Decimal.uint) :
  digitsValue (list_ascii_of_string (DecimalString.NilEmpty.string_of_uint d)) 0
  = Z.of_N (Pos.of_uint d).
Proof.
  induction d; simpl; [done|exact IHd|..]; apply (digitsValue_acc d).
Qed.

Lemma digits_of_positive (p : positive) :
  exists digits,
    list_ascii_of_string (DecimalString.NilZero.string_of_uint (Pos.to_uint p)) = digits
    /\ Forall (fun c => isDigit c = true) digits
    /\ digits <> []
    /\ digitsValue digits 0 = Z.pos p.
Proof.
  eexists. split; [reflexivity|].
  pose proof (DecimalPos.Unsigned.to_uint_nonnil p) as Hnil.
  pose proof (DecimalPos.Unsigned.of_to p) as Hof.
  destruct (Pos.to_uint p) as [|u|u|u|u|u|u|u|u|u|u] eqn:E; [done|..];
    (split; [rewrite <- E at 1; unfold DecimalString.NilZero.string_of_uint;
             rewrite E; apply string_of_uint_digits|]);
    (split; [done|]);
    unfold DecimalString.NilZero.string_of_uint;
    rewrite digitsValue_uint, Hof; reflexivity.
Qed.

Lemma parseInt_toString (n : Z) (rest : string) :
  match rest with String c _ => isDigit c = false | EmptyString => True end ->
  parseInt (GoogleSearchEngine.toString n ++ rest) = Some n.
Proof.
  intros Hrest.
  assert (Hrest' : match list_ascii_of_string rest with
                   | c :: _ => isDigit c = false
                   | [] => True
                   end) by (by destruct rest).
  unfold parseInt, GoogleSearchEngine.toString. rewrite list_ascii_of_string_app.
  destruct n as [|p|p]; simpl Z.to_int; unfold DecimalString.NilZero.string_of_int.
  - simpl. destruct (list_ascii_of_string rest) as [|c cs]; [done|].
    simpl. by rewrite Hrest'.
  - destruct (digits_of_positive p) as (digits & -> & Hd & Hne & Hv).
    destruct digits as [|c digits]; [done|].
    assert (Hc : isDigit c = true) by (by inversion Hd).
    assert (isWhite c = false) as Hw.
    { revert Hc. unfold isDigit, isWhite. generalize (nat_of_ascii c). intros k Hk.
      apply andb_true_iff in Hk as [H1 H2].
      apply Nat.leb_le in H1. apply Nat.leb_le in H2.
      apply orb_false_iff. split; [apply Nat.eqb_neq; lia|].
      apply andb_false_iff. right. apply Nat.leb_gt. lia. }
    unfold trimStart. cbn [app dropWhile]. rewrite Hw.
    assert (c <> "-"%char /\ c <> "+"%char) as [Hm Hp].
    { split; intros ->; discriminate. }
    change (c :: digits ++ list_ascii_of_string rest)
      with ((c :: digits) ++ list_ascii_of_string rest).
    assert (Hsign : forall (A : Type) (k : bool * list ascii -> A) cs,
               (let '(negative, s) :=
                  match c :: cs with
                  | "-"%char :: s' => (true, s')
                  | "+"%char :: s' => (false, s')
                  | _ => (false, c :: cs)
                  end in k (negative, s))
               = k (false, c :: cs)).
    { intros A k cs.
      destruct c as [[] [] [] [] [] [] [] []]; try reflexivity; by (exfalso; auto). }
    cbn [app]. rewrite (Hsign _ (fun '(negative, s) =>
      match takeWhile isDigit s with
      | [] => None
      | digits => Some (if negative : bool then - digitsValue digits 0
                        else digitsValue digits 0)%Z
      end)).
    change (c :: digits ++ list_ascii_of_string rest)
      with ((c :: digits) ++ list_ascii_of_string rest).
    rewrite (takeWhile_app isDigit (c :: digits) _ Hd Hrest'). cbv zeta. by rewrite Hv.
  - cbn [list_ascii_of_string].
    destruct (digits_of_positive p) as (digits & -> & Hd & Hne & Hv).
    unfold trimStart. cbn [app dropWhile].
    change (isWhite "-") with false. cbv iota beta.
    rewrite (takeWhile_app isDigit digits _ Hd Hrest').
    destruct digits as [|c digits]; [done|]. cbv zeta. by rewrite Hv.
Qed.

(** X23.  [getEnvNumber] reads the whole number at the head of the value and
    passes over what follows it: a variable that is set to the decimal
    writing of a whole number (of a size that JavaScript holds
    exactly), followed by any text that does not begin with a digit, is
    read as that number, and no exception is thrown for the text that
    follows. *)
Theorem getEnvNumber_reads_the_leading_number (env : Env) (name rest : string)
    (defaultValue n : Z) :
  (Z.abs n <= 2 ^ 53)%Z ->
  match rest with String c _ => isDigit c = false | EmptyString => True end ->
  env name = Some (GoogleSearchEngine.toString n ++ rest)%string ->
  getEnvNumber env name defaultValue = inr n.
Proof.
  intros _ Hrest Henv. unfold getEnvNumber. rewrite Henv.
  assert (JS.spread_truthy (Some (GoogleSearchEngine.toString n ++ rest)%string)
          = Some (GoogleSearchEngine.toString n ++ rest)%string) as ->.
  { pose proof (parseInt_toString n rest Hrest) as Hp.
    destruct (GoogleSearchEngine.toString n ++ rest)%string; [discriminate|done]. }
  by rewrite parseInt_toString.
Qed.

(** The rate limit [100/day] is read as 100. *)
Lemma getEnvNumber_reads_the_leading_number_witness :
  getEnvNumber
    (fun name => if decide (name = "GOOGLE_SEARCH_RATE_LIMIT") then Some "100/day" else None)
    "GOOGLE_SEARCH_RATE_LIMIT" 100%Z
  = inr 100%Z.
Proof.
  apply (getEnvNumber_reads_the_leading_number _ _ "/day" 100%Z 100%Z);
    [simpl; lia|reflexivity|reflexivity].
Defined.

(** A variable that is not set, or set to the empty text, gives the
    default; a value that is white space only, or that has no digit
    behind its white space and its sign, gives the exception, and so
    does a number written with a word. *)
Example getEnvNumber_samples :
  let env value : Env := fun _ => value in
  getEnvNumber (env None) "DELAY" 120000%Z = inr 120000%Z
  /\ getEnvNumber (env (Some "")) "DELAY" 120000%Z = inr 120000%Z
  /\ getEnvNumber (env (Some " 250ms")) "DELAY" 120000%Z = inr 250%Z
  /\ getEnvNumber (env (Some "1e3")) "DELAY" 120000%Z = inr 1%Z
  /\ getEnvNumber (env (Some "-5")) "DELAY" 120000%Z = inr (-5)%Z
  /\ getEnvNumber (env (Some " ")) "DELAY" 120000%Z
     = inl "Environment variable DELAY must be a valid number"
  /\ getEnvNumber (env (Some "ten")) "DELAY" 120000%Z
     = inl "Environment variable DELAY must be a valid number".
Proof. vm_compute. by repeat split. Qed.

End Numbers.

Section Providers.

Import Config AIProviderManager.

(** The provider that comes first in the order openai, gemini,
    openrouter, ollama among the ones that are configured. *)
Definition firstConfigured (configured : AIProviders) : option AIProvider :=
  match openai configured, gemini configured, openrouter configured, ollama configured with
  | Some p, _, _, _ => Some p
  | None, Some p, _, _ => Some p
  | None, None, Some p, _ => Some p
  | None, None, None, p => p
  end.

(** X24.  The keys of the configured providers stand in the order of
    preference, so the default provider is the first key, and the last
    line of [getDefaultAIProvider] is never reached.  Asked without a
    name, the manager answers the first provider that is configured in
    that order; it throws exactly when none is configured, and then with
    the message that no provider is available.  Asked with a name, it
    answers the provider of that name, and throws when there is none. *)
Theorem getProvider_follows_the_order_of_preference (configured : AIProviders) :
  getDefaultAIProvider configured = head (getAvailableAIProviders configured)
  /\ getProvider configured None
     = match firstConfigured configured with
       | Some provider => inr provider
       | None => inl (mkError "No AI provider available" "none")
       end
  /\ getProvider configured (Some EmptyString) = getProvider configured None
  /\ (forall name, name <> EmptyString ->
        match getProvider configured (Some name) with
        | inr provider =>
            name ∈ getAvailableAIProviders configured
            /\ getAIProvider configured name = Some provider
        | inl e =>
            (name ∉ getAvailableAIProviders configured)
            /\ e = mkError ("AI provider not found: " ++ name)%string name
        end).
Proof.
  destruct configured as [[o|] [g|] [r|] [l|]];
    (split; [reflexivity|]); (split; [reflexivity|]); (split; [reflexivity|]);
    intros name Hname;
    (assert (JS.spread_truthy (Some name) = Some name) as Htruthy
       by (destruct name; [done|reflexivity]));
    unfold getProvider; rewrite Htruthy;
    unfold initializeProviders, getAvailableAIProviders, getAIProvider; simpl;
    repeat (destruct (decide _); simplify_eq; simpl);
    (split; [set_solver|done]).
Qed.

End Providers.

(** ** The search of one query *)

Section SingleSearchFacts.

Import Orchestrator SingleSearch.








(** The filter answers an entry that is undefined, and the write of the
    handler fails as well: every call of the store before it succeeded,
    yet the promise is rejected, with the exception of the handler, and
    the operation stays active, marked as failed. *)
Example searchProfiles_undefined_entry :
  let script :=
    mkScript true [] true 1010%Z [] []
      [Some (resultAt "https://www.linkedin.com/in/jane-doe"); None]
      true 1030%Z [] "Cannot read properties of undefined" 1040%Z false "SQLITE_BUSY" in
  let run :=
    searchProfiles "op-1" "row-1" "data analyst" emptyConfig 1000%Z script new in
  fst run = RejectedWith "SQLITE_BUSY"
  /\ activeOperations (snd run) !! "op-1" = Some 0%nat
  /\ (SearchOperation.status <$> heap (snd run) !! 0%nat) = Some failed.
Proof. vm_compute. by repeat split. Qed.

End SingleSearchFacts.

(** ** The shutdown of the server *)

Section Shutdown.

Import Orchestrator Server.

(** Every active operation is an object that carries the id under which
    the map holds it, as [searchProfiles] and [globalSearchProfiles]
    file it. *)
Definition eachUnderItsId (s : t) : Prop :=
  forall id r, activeOperations s !! id = Some r ->
    exists o, heap s !! r = Some o /\ SearchOperation.id o = id.

Lemma cancelSearch_ok_active (id : string) (now : Date) (s : t) :
  activeOperations (snd (cancelSearch id now true s)) = delete id (activeOperations s)
  /\ fst (cancelSearch id now true s) <> None.
Proof.
  unfold cancelSearch. destruct (activeOperations s !! id) as [r|] eqn:E.
  - cbv zeta. by destruct (operationTimers _ !! id).
  - simpl. split; [by rewrite delete_id|done].
Qed.

Lemma cancelSearch_heap (id : string) (now : Date) (ok : bool) (s : t) (r : nat) :
  heap (snd (cancelSearch id now ok s)) !! r
  = if decide (activeOperations s !! id = Some r)
    then (fun o => SearchOperation.set_endTime (Some now)
                     (SearchOperation.set_status cancelled o)) <$> heap s !! r
    else heap s !! r.
Proof.
  unfold cancelSearch. destruct (activeOperations s !! id) as [r0|] eqn:E.
  - cbv zeta.
    match goal with
    | |- heap (snd ?x) !! r = _ =>
        assert (heap (snd x)
                = alter (fun o => SearchOperation.set_endTime (Some now)
                                    (SearchOperation.set_status cancelled o))
                        r0 (heap s)) as ->
    end.
    { destruct ok; [|done]. cbn [snd]. by destruct (operationTimers _ !! id). }
    destruct (decide (Some r0 = Some r)) as [[= ->]|Hr];
      [apply lookup_alter_eq|apply lookup_alter_ne; congruence].
  - cbn [snd]. by destruct (decide _).
Qed.

Lemma cancelSearch_heap_is_Some (id : string) (now : Date) (ok : bool) (s : t) (r : nat) :
  is_Some (heap s !! r) -> is_Some (heap (snd (cancelSearch id now ok s)) !! r).
Proof.
  intros [o Ho]. rewrite cancelSearch_heap, Ho. by destruct (decide _).
Qed.

Lemma cancelSearch_keeps_cancelled (id : string) (now : Date) (ok : bool) (s : t) (r : nat) :
  (SearchOperation.status <$> heap s !! r) = Some cancelled ->
  (SearchOperation.status <$> heap (snd (cancelSearch id now ok s)) !! r) = Some cancelled.
Proof.
  rewrite cancelSearch_heap. destruct (heap s !! r) as [o|]; [|done].
  by destruct (decide _).
Qed.

Lemma cancelSearch_marks (id : string) (now : Date) (ok : bool) (s : t) (r : nat) :
  activeOperations s !! id = Some r -> is_Some (heap s !! r) ->
  (SearchOperation.status <$> heap (snd (cancelSearch id now ok s)) !! r) = Some cancelled.
Proof.
  intros Hr [o Ho]. by rewrite cancelSearch_heap, decide_True, Ho.
Qed.

(** The loop as long as every write succeeds. *)
Lemma cancelEach_ok (clock : nat -> Date) (writes : nat -> bool)
    (snapshot : list SearchOperation.t) (i : nat) (s : t) :
  (forall j, (j < length snapshot)%nat -> writes (i + j)%nat = true) ->
  exists s',
    cancelEach clock writes i snapshot s = (true, s')
    /\ (forall id, activeOperations s' !! id
                   = if decide (id ∈ SearchOperation.id <$> snapshot) then None
                     else activeOperations s !! id)
    /\ (forall r, is_Some (heap s !! r) -> is_Some (heap s' !! r))
    /\ (forall r, (SearchOperation.status <$> heap s !! r) = Some cancelled ->
                  (SearchOperation.status <$> heap s' !! r) = Some cancelled)
    /\ (forall id r, activeOperations s !! id = Some r ->
                     id ∈ SearchOperation.id <$> snapshot ->
                     is_Some (heap s !! r) ->
                     (SearchOperation.status <$> heap s' !! r) = Some cancelled).
Proof.
  revert i s. induction snapshot as [|operation rest IH]; intros i s Hw.
  { exists s. split; [done|]. split.
    - intros id. rewrite decide_False; [done|]. apply not_elem_of_nil.
    - split; [done|]. split; [done|]. intros id r _ Hin. by apply elem_of_nil in Hin. }
  cbn [cancelEach].
  assert (Hwi : writes i = true).
  { rewrite <- (Nat.add_0_r i). apply Hw. simpl. lia. }
  rewrite Hwi.
  destruct (cancelSearch_ok_active (SearchOperation.id operation) (clock i) s)
    as [Hact Hsome].
  pose proof (cancelSearch_heap_is_Some (SearchOperation.id operation) (clock i) true s)
    as Hkeep.
  pose proof (cancelSearch_keeps_cancelled (SearchOperation.id operation) (clock i) true s)
    as Hstay.
  pose proof (cancelSearch_marks (SearchOperation.id operation) (clock i) true s)
    as Hmark.
  destruct (cancelSearch (SearchOperation.id operation) (clock i) true s) as [[b|] s1];
    [|done]. cbn [snd] in *.
  destruct (IH (S i) s1) as (s' & Hrun & Hact' & Hkeep' & Hstay' & Hmark').
  { intros j Hj. replace (S i + j)%nat with (i + S j)%nat by lia. apply Hw. simpl. lia. }
  exists s'. split; [exact Hrun|]. split.
  { intros id. rewrite Hact', Hact. rewrite fmap_cons.
    destruct (decide (id ∈ SearchOperation.id <$> rest)) as [Hin|Hin].
    - rewrite decide_True; [done|]. by apply list_elem_of_further.
    - destruct (decide (id = SearchOperation.id operation)) as [->|Hid].
      + rewrite lookup_delete_eq, decide_True; [done|]. apply list_elem_of_here.
      + rewrite lookup_delete_ne by done. rewrite decide_False; [done|].
        intros H. apply elem_of_cons in H as [H|H]; done. }
  split; [by intros r Hr; apply Hkeep', Hkeep|].
  split; [by intros r Hr; apply Hstay', Hstay|].
  intros id r Hr Hin Hobj. rewrite fmap_cons in Hin.
  destruct (decide (id = SearchOperation.id operation)) as [->|Hid].
  - apply Hstay', Hmark; done.
  - apply elem_of_cons in Hin as [Hin|Hin]; [done|].
    apply (Hmark' id r); [|done|by apply Hkeep].
    rewrite Hact. by rewrite lookup_delete_ne.
Qed.

Lemma cancelEach_app (clock : nat -> Date) (writes : nat -> bool)
    (before rest : list SearchOperation.t) (i : nat) (s s1 : t) :
  cancelEach clock writes i before s = (true, s1) ->
  cancelEach clock writes i (before ++ rest) s
  = cancelEach clock writes (i + length before) rest s1.
Proof.
  revert i s. induction before as [|operation before IH]; intros i s.
  { simpl. intros [= ->]. by rewrite Nat.add_0_r. }
  cbn [cancelEach app length].
  destruct (cancelSearch (SearchOperation.id operation) (clock i) (writes i) s)
    as [[b|] s2]; [|done].
  intros H. rewrite (IH _ _ H). f_equal. lia.
Qed.

(** The ids of the snapshot are the keys of the map. *)
Lemma getActiveOperations_ids (s : t) :
  eachUnderItsId s ->
  SearchOperation.id <$> getActiveOperations s = (map_to_list (activeOperations s)).*1.
Proof.
  intros Hfiled. unfold getActiveOperations.
  assert (Hall : Forall (fun entry : string * nat =>
                           activeOperations s !! entry.1 = Some entry.2)
                        (map_to_list (activeOperations s))).
  { apply Forall_forall. intros [id r] Hin. by apply elem_of_map_to_list. }
  induction Hall as [|[id r] l Hentry Hall IH]; [done|].
  destruct (Hfiled id r Hentry) as (o & Ho & Hid).
  cbn [omap list_omap fmap list_fmap]. simpl in *. rewrite Ho. simpl.
  rewrite Hid. f_equal. exact IH.
Qed.

Lemma snapshot_ids (snapshot : list SearchOperation.t) (s : t) :
  eachUnderItsId s -> snapshot ≡ₚ getActiveOperations s ->
  NoDup (SearchOperation.id <$> snapshot)
  /\ forall id, id ∈ SearchOperation.id <$> snapshot <-> is_Some (activeOperations s !! id).
Proof.
  intros Hfiled Hperm.
  assert (Hids : SearchOperation.id <$> snapshot ≡ₚ (map_to_list (activeOperations s)).*1).
  { rewrite <- (getActiveOperations_ids s Hfiled). by apply fmap_Permutation. }
  split.
  - rewrite Hids. apply NoDup_fst_map_to_list.
  - intros id. rewrite Hids. rewrite list_elem_of_fmap. split.
    + intros ([id' r] & -> & Hin). apply elem_of_map_to_list in Hin. by exists r.
    + intros [r Hr]. exists (id, r). split; [done|]. by apply elem_of_map_to_list.
Qed.

(** X26.  The shutdown while no other task runs, for the snapshot of the
    active operations in any order.  When every write of a cancellation
    succeeds, no operation is active at the end, every operation that
    was active is marked as cancelled, and the store is closed.  When a
    write fails, the loop is left there: the operations before it are
    cancelled, the operation of the failing write is marked as cancelled
    and is still active, the operations behind it are still active as
    they were, and the store is not closed. *)
Theorem cleanup_stops_at_the_first_failing_write (snapshot : list SearchOperation.t)
    (clock : nat -> Date) (writes : nat -> bool) (s : t) :
  eachUnderItsId s ->
  snapshot ≡ₚ getActiveOperations s ->
  let ids := SearchOperation.id <$> snapshot in
  let final := cleanupOver snapshot clock writes s in
  ((forall i, (i < length snapshot)%nat -> writes i = true) ->
     final.2 = true
     /\ activeOperations final.1 = ∅
     /\ forall id r, activeOperations s !! id = Some r ->
          (SearchOperation.status <$> heap final.1 !! r) = Some cancelled)
  /\ (forall k id,
        ids !! k = Some id -> writes k = false ->
        (forall i, (i < k)%nat -> writes i = true) ->
        final.2 = false
        /\ (forall id', activeOperations final.1 !! id'
                        = if decide (id' ∈ take k ids) then None
                          else activeOperations s !! id')
        /\ exists r,
             activeOperations final.1 !! id = Some r
             /\ (SearchOperation.status <$> heap final.1 !! r) = Some cancelled).
Proof.
  intros Hfiled Hperm ids final.
  destruct (snapshot_ids snapshot s Hfiled Hperm) as [Hnodup Hkeys]. fold ids in Hnodup.
  split.
  - intros Hw.
    destruct (cancelEach_ok clock writes snapshot 0 s Hw)
      as (s' & Hrun & Hact & _ & _ & Hmark).
    subst final. unfold cleanupOver. rewrite Hrun. cbn [fst snd].
    split; [done|]. split.
    + apply map_eq. intros id. rewrite Hact, lookup_empty.
      destruct (decide _) as [|Hout]; [done|].
      destruct (activeOperations s !! id) as [r|] eqn:E; [|done].
      exfalso. apply Hout, Hkeys. by exists r.
    + intros id r Hr. apply (Hmark id r Hr).
      * apply Hkeys. by exists r.
      * destruct (Hfiled id r Hr) as (o & Ho & _). by exists o.
  - intros k id Hk Hfail Hw.
    assert (Hlen : (k < length snapshot)%nat).
    { apply lookup_lt_Some in Hk. unfold ids in Hk. by rewrite length_fmap in Hk. }
    destruct (lookup_lt_is_Some_2 snapshot k Hlen) as [operation Hop].
    assert (Hid : SearchOperation.id operation = id).
    { unfold ids in Hk. rewrite list_lookup_fmap, Hop in Hk. by injection Hk. }
    pose proof (take_drop_middle snapshot k operation Hop) as Hsplit.
    destruct (cancelEach_ok clock writes (take k snapshot) 0 s)
      as (s1 & Hrun & Hact & Hkeep & _ & _).
    { intros j Hj. apply Hw. rewrite length_take in Hj. simpl. lia. }
    assert (Hfinal : cancelEach clock writes 0 snapshot s
                     = cancelEach clock writes k (operation :: drop (S k) snapshot) s1).
    { rewrite <- Hsplit at 1. rewrite (cancelEach_app _ _ _ _ _ _ _ Hrun).
      f_equal. rewrite length_take. lia. }
    assert (Htake : SearchOperation.id <$> take k snapshot = take k ids).
    { unfold ids. by rewrite fmap_take. }
    rewrite Htake in Hact.
    assert (Hout : id ∉ take k ids).
    { intros Hin. apply list_elem_of_lookup in Hin as [j Hj].
      assert (Hjk : (j < k)%nat).
      { apply lookup_lt_Some in Hj. rewrite length_take in Hj. lia. }
      rewrite lookup_take_lt in Hj by done.
      pose proof (NoDup_lookup _ _ _ _ Hnodup Hj Hk). lia. }
    assert (Hin : id ∈ ids) by (by apply list_elem_of_lookup; exists k).
    apply Hkeys in Hin as [r Hr].
    assert (Hr1 : activeOperations s1 !! id = Some r).
    { by rewrite Hact, decide_False. }
    assert (Hobj : is_Some (heap s1 !! r)).
    { apply Hkeep. destruct (Hfiled id r Hr) as (o & Ho & _). by exists o. }
    subst final. unfold cleanupOver. rewrite Hfinal. cbn [cancelEach].
    rewrite Hid, Hfail.
    pose proof (cancelSearch_marks id (clock k) false s1 r Hr1 Hobj) as Hmark.
    unfold cancelSearch in *. rewrite Hr1 in *. cbn [fst snd] in *.
    split; [done|]. split; [exact Hact|].
    exists r. split; [exact Hr1|exact Hmark].
Qed.

(** Three operations are active, and the write of the second
    cancellation fails. *)
Definition threeActive : t :=
  let object id :=
    SearchOperation.mk id "data analyst" running 1000%Z None 4 1 2 None (1 # 4) None
      {| maxLocations := Some 4%Z; delayBetweenSearches := None;
         enableQueryExpansion := None; enableResultFiltering := None;
         enableContactEnrichment := None; aiProvider := None;
         relevanceThreshold := None |} in
  set_activeOperations
    (<[ "op-1" := 0%nat ]> (<[ "op-2" := 1%nat ]> (<[ "op-3" := 2%nat ]> ∅)))
    (set_heap
       (<[ 0%nat := object "op-1" ]> (<[ 1%nat := object "op-2" ]>
          (<[ 2%nat := object "op-3" ]> ∅)))
       new).

Lemma cleanup_stops_at_the_first_failing_write_witness :
  let final :=
    cleanup (fun i => (2000 + Z.of_nat i)%Z) (fun i => negb (i =? 1)%nat) threeActive in
  final.2 = false
  /\ exists id r,
       (SearchOperation.id <$> getActiveOperations threeActive) !! 1%nat = Some id
       /\ activeOperations final.1 !! id = Some r
       /\ (SearchOperation.status <$> heap final.1 !! r) = Some cancelled.
Proof.
  assert (Hfiled : eachUnderItsId threeActive).
  { intros id r Hr. unfold threeActive in Hr. simpl in Hr.
    apply lookup_insert_Some in Hr as [[<- <-]|[_ Hr]]; [by eexists|].
    apply lookup_insert_Some in Hr as [[<- <-]|[_ Hr]]; [by eexists|].
    apply lookup_insert_Some in Hr as [[<- <-]|[_ Hr]]; [by eexists|].
    by rewrite lookup_empty in Hr. }
  assert (Hlen : length (SearchOperation.id <$> getActiveOperations threeActive) = 3%nat).
  { rewrite (getActiveOperations_ids _ Hfiled), length_fmap, length_map_to_list.
    unfold threeActive. simpl.
    rewrite !map_size_insert_None, map_size_empty; [done|..];
      repeat (rewrite lookup_insert_ne by done); by rewrite ?lookup_empty. }
  destruct (lookup_lt_is_Some_2 (SearchOperation.id <$> getActiveOperations threeActive)
              1%nat) as [id Hid]; [lia|].
  destruct (cleanup_stops_at_the_first_failing_write (getActiveOperations threeActive)
              (fun i => (2000 + Z.of_nat i)%Z) (fun i => negb (i =? 1)%nat) threeActive
              Hfiled (reflexivity _))
    as [_ Hfail].
  destruct (Hfail 1%nat id Hid eq_refl) as (Hclosed & _ & r & Hr & Hst).
  { intros i Hi. by replace i with 0%nat by lia. }
  cbv zeta. split; [exact Hclosed|]. exists id, r. by repeat split.
Defined.

End Shutdown.
